(** * matter.js: mDNS scanner, mDNS responder and TLV object schema

    A shallow embedding of
    - [packages/matter.js/src/mdns/MdnsScanner.ts] (class [MdnsScanner]),
    - the mDNS responder [MdnsServer] (class [MdnsServer]),
    - [packages/matter.js/src/tlv/TlvWrapper.ts] (class [ObjectSchema]),
    and the properties of the design document that concern them.

    Conventions.  A JavaScript [Map] is an insertion-ordered association
    list ([JsMap]).  Numbers that the code treats as integers are [Z];
    the announce interval, which starts at 1.5, is a rational [Q] (every
    value it takes is a dyadic rational, exact in a double).  Effects
    (datagrams handed to the transport, warnings, resolved promises) are
    recorded in the state, oldest first. *)

From Stdlib Require Import String Ascii List ZArith QArith Qminmax Lia Bool Arith.
From Stdlib Require Import Permutation Sorted Lqa DecimalString.
From Stdlib Require DecimalZ DecimalPos.
Import ListNotations.

Set Implicit Arguments.
Set Warnings "-register-all,-abstract-large-number".

(* ================================================================== *)
(** * JavaScript strings *)

Definition startsWith (s p : string) : bool := String.prefix p s.

Definition endsWith (s suffix : string) : bool :=
  let n := String.length s in
  let m := String.length suffix in
  if (m <=? n)%nat then String.eqb (String.substring (n - m) m s) suffix else false.

(** [s.split(c)] for a one-character separator: never empty. *)
Fixpoint split (c : ascii) (s : string) : list string :=
  match s with
  | EmptyString => [EmptyString]
  | String a rest =>
      if Ascii.eqb a c then EmptyString :: split c rest
      else match split c rest with
           | [] => [String a EmptyString]
           | piece :: pieces => String a piece :: pieces
           end
  end.

(** [s.indexOf(c)], [None] for -1. *)
Fixpoint indexOf (c : ascii) (s : string) : option nat :=
  match s with
  | EmptyString => None
  | String a rest =>
      if Ascii.eqb a c then Some 0%nat
      else option_map S (indexOf c rest)
  end.

(** A number in a template string. *)
Definition decimal (z : Z) : string := DecimalString.NilZero.string_of_int (Z.to_int z).

(* ================================================================== *)
(** * JavaScript [Map]: insertion-ordered, string keys *)

Module JsMap.
Section Defs.
Variable V : Type.

Definition t := list (string * V).

Definition empty : t := [].

Fixpoint get (k : string) (m : t) : option V :=
  match m with
  | [] => None
  | (k', v) :: rest => if String.eqb k' k then Some v else get k rest
  end.

Definition has (k : string) (m : t) : bool :=
  match get k m with Some _ => true | None => false end.

(** [m.set(k, v)]: an existing key keeps its position. *)
Fixpoint set (k : string) (v : V) (m : t) : t :=
  match m with
  | [] => [(k, v)]
  | (k', v') :: rest =>
      if String.eqb k' k then (k', v) :: rest else (k', v') :: set k v rest
  end.

Definition delete (k : string) (m : t) : t :=
  filter (fun kv => negb (String.eqb (fst kv) k)) m.

Definition keys (m : t) : list string := map fst m.
Definition values (m : t) : list V := map snd m.
Definition size (m : t) : nat := length m.
End Defs.
Arguments empty {V}.
End JsMap.

(* ================================================================== *)
(** * DNS messages *)

(** Modelled from the spec: [DnsRecordType] of the DNS codec, which is not
    part of the sources at hand; the record types the data model lists. *)
Inductive DnsRecordType := A | AAAA | SRV | TXT | PTR | ANY.

Definition DnsRecordType_eqb (x y : DnsRecordType) : bool :=
  match x, y with
  | A, A | AAAA, AAAA | SRV, SRV | TXT, TXT | PTR, PTR | ANY, ANY => true
  | _, _ => false
  end.

Inductive DnsMessageType := Query | TruncatedQuery | Response | TruncatedResponse.

(** [DnsRecordClass.IN]. *)
Definition IN : Z := 1%Z.

Record DnsQuery := {
  q_name : string;
  q_recordType : DnsRecordType;
  q_recordClass : Z;
  uniCastResponse : bool
}.

(** The payload of a record: a string (A, AAAA, PTR), an SRV value, or the
    string array of a TXT record. *)
Inductive RecordValue :=
| StrValue (s : string)
| SrvValue (priority weight port : Z) (target : string)
| TxtValue (items : list string).

Record DnsRecord := {
  name : string;
  recordType : DnsRecordType;
  recordClass : Z;
  ttl : Z;
  value : RecordValue
}.

Definition ByteArray := list Byte.byte.

(** [DnsMessagePartiallyPreEncoded]: answers and additional records are
    already encoded. *)
Record DnsMessagePartiallyPreEncoded := {
  messageType : DnsMessageType;
  transactionId : Z;
  queries : list DnsQuery;
  answers : list ByteArray;
  additionalRecords : list ByteArray
}.

Definition MAX_MDNS_MESSAGE_SIZE : nat := 1500.

Definition sumLengths (l : list ByteArray) : nat :=
  list_sum (map (@List.length Byte.byte) l).

(* ================================================================== *)
(** * The scanner's state *)

Record ActiveQuery := {
  aq_queries : list DnsQuery;
  aq_answers : list DnsRecord
}.

Record MatterServerRecordWithExpire := {
  ip : string;
  port : Z;
  addr_expires : Z
}.

(** The keys [parseTxtRecord] can set. *)
Record DiscoveryData := {
  SII : option Z; SAI : option Z; SAT : option Z; T : option Z;
  D : option Z; CM : option Z; DT : option Z; PH : option Z; ICD : option Z;
  VP : option string; DN : option string; RI : option string; PI : option string
}.

Record OperationalDeviceRecordWithExpire := {
  op_deviceIdentifier : string;
  op_addresses : JsMap.t MatterServerRecordWithExpire;
  op_expires : Z;
  op_data : DiscoveryData
}.

(** [V] and [P] hold the result of [parseInt], whose NaN is the inner
    [None]. *)
Record CommissionableDeviceRecordWithExpire := {
  instanceId : string;
  deviceIdentifier : string;
  addresses : JsMap.t MatterServerRecordWithExpire;
  expires : Z;
  SD : option Z;
  V : option (option Z);
  P : option (option Z);
  data : DiscoveryData
}.

(** A waiter: the delay of its timeout timer, when it has one. *)
Record Waiter := {
  timer : option Q;
  resolveOnUpdatedRecords : bool
}.

Inductive Event :=
| Sent (m : DnsMessagePartiallyPreEncoded)
| Warned
| Resolved (queryId : string).

Record MdnsScanner := {
  activeAnnounceQueries : JsMap.t ActiveQuery;
  (** delay in ms of the running query timer; [None] when stopped *)
  queryTimer : option Q;
  nextAnnounceIntervalSeconds : Q;
  operationalDeviceRecords : JsMap.t OperationalDeviceRecordWithExpire;
  commissionableDeviceRecords : JsMap.t CommissionableDeviceRecordWithExpire;
  recordWaiters : JsMap.t Waiter;
  periodicTimer : bool;
  transportOpen : bool;
  closing : bool;
  enableIpv4 : bool;
  events : list Event
}.

Definition START_ANNOUNCE_INTERVAL_SECONDS : Q := 3 # 2.

Definition initialScanner (ipv4 : bool) : MdnsScanner :=
  {| activeAnnounceQueries := JsMap.empty;
     queryTimer := None;
     nextAnnounceIntervalSeconds := START_ANNOUNCE_INTERVAL_SECONDS;
     operationalDeviceRecords := JsMap.empty;
     commissionableDeviceRecords := JsMap.empty;
     recordWaiters := JsMap.empty;
     periodicTimer := true;
     transportOpen := true;
     closing := false;
     enableIpv4 := ipv4;
     events := [] |}.

(** ** Field updates *)

Definition with_queries (s : MdnsScanner) (m : JsMap.t ActiveQuery)
    (t : option Q) (i : Q) : MdnsScanner :=
  {| activeAnnounceQueries := m; queryTimer := t; nextAnnounceIntervalSeconds := i;
     operationalDeviceRecords := operationalDeviceRecords s;
     commissionableDeviceRecords := commissionableDeviceRecords s;
     recordWaiters := recordWaiters s; periodicTimer := periodicTimer s;
     transportOpen := transportOpen s; closing := closing s;
     enableIpv4 := enableIpv4 s; events := events s |}.

Definition with_operational (s : MdnsScanner)
    (m : JsMap.t OperationalDeviceRecordWithExpire) : MdnsScanner :=
  {| activeAnnounceQueries := activeAnnounceQueries s; queryTimer := queryTimer s;
     nextAnnounceIntervalSeconds := nextAnnounceIntervalSeconds s;
     operationalDeviceRecords := m;
     commissionableDeviceRecords := commissionableDeviceRecords s;
     recordWaiters := recordWaiters s; periodicTimer := periodicTimer s;
     transportOpen := transportOpen s; closing := closing s;
     enableIpv4 := enableIpv4 s; events := events s |}.

Definition with_commissionable (s : MdnsScanner)
    (m : JsMap.t CommissionableDeviceRecordWithExpire) : MdnsScanner :=
  {| activeAnnounceQueries := activeAnnounceQueries s; queryTimer := queryTimer s;
     nextAnnounceIntervalSeconds := nextAnnounceIntervalSeconds s;
     operationalDeviceRecords := operationalDeviceRecords s;
     commissionableDeviceRecords := m;
     recordWaiters := recordWaiters s; periodicTimer := periodicTimer s;
     transportOpen := transportOpen s; closing := closing s;
     enableIpv4 := enableIpv4 s; events := events s |}.

Definition with_waiters (s : MdnsScanner) (m : JsMap.t Waiter) : MdnsScanner :=
  {| activeAnnounceQueries := activeAnnounceQueries s; queryTimer := queryTimer s;
     nextAnnounceIntervalSeconds := nextAnnounceIntervalSeconds s;
     operationalDeviceRecords := operationalDeviceRecords s;
     commissionableDeviceRecords := commissionableDeviceRecords s;
     recordWaiters := m; periodicTimer := periodicTimer s;
     transportOpen := transportOpen s; closing := closing s;
     enableIpv4 := enableIpv4 s; events := events s |}.

Definition emit (s : MdnsScanner) (e : list Event) : MdnsScanner :=
  {| activeAnnounceQueries := activeAnnounceQueries s; queryTimer := queryTimer s;
     nextAnnounceIntervalSeconds := nextAnnounceIntervalSeconds s;
     operationalDeviceRecords := operationalDeviceRecords s;
     commissionableDeviceRecords := commissionableDeviceRecords s;
     recordWaiters := recordWaiters s; periodicTimer := periodicTimer s;
     transportOpen := transportOpen s; closing := closing s;
     enableIpv4 := enableIpv4 s; events := events s ++ e |}.

(* ================================================================== *)
(** * MdnsScanner: queries and the send loop *)


Section Mdns.

(** [DnsCodec.encodeRecord] and the encoded size of one question; the
    codec is not part of the sources at hand. *)
Variable encodeRecord : DnsRecord -> ByteArray.
Variable encodedQueryLength : DnsQuery -> nat.

(** Modelled from the spec: the length of [DnsCodec.encode(m)], which is
    not part of the sources at hand.  An RFC 1035 message is a 12-byte
    header followed by the questions and the records; the records of a
    partially pre-encoded message are written as they are. *)
Definition encodedLength (m : DnsMessagePartiallyPreEncoded) : nat :=
  12 + list_sum (map encodedQueryLength (queries m))
  + sumLengths (answers m) + sumLengths (additionalRecords m).

(** The mutable locals of the [while (true)] loop of [sendQueries]. *)
Record SendLoop := {
  dnsMessageDataToSend : DnsMessagePartiallyPreEncoded;
  dnsMessageSize : nat;
  emitted : list Event
}.

Definition set_answers (m : DnsMessagePartiallyPreEncoded)
    (qs : list DnsQuery) (ans : list ByteArray) : DnsMessagePartiallyPreEncoded :=
  {| messageType := messageType m; transactionId := transactionId m;
     queries := qs; answers := ans; additionalRecords := additionalRecords m |}.

Definition set_messageType (m : DnsMessagePartiallyPreEncoded)
    (ty : DnsMessageType) : DnsMessagePartiallyPreEncoded :=
  {| messageType := ty; transactionId := transactionId m;
     queries := queries m; answers := answers m;
     additionalRecords := additionalRecords m |}.

(** One turn of the loop: [nextAnswer] has been shifted off
    [answersToSend]. *)
Definition sendQueriesStep (emptyLength : nat) (l : SendLoop)
    (nextAnswer : DnsRecord) : SendLoop :=
  let m := dnsMessageDataToSend l in
  let nextAnswerEncoded := encodeRecord nextAnswer in
  let size := (dnsMessageSize l + length nextAnswerEncoded)%nat in
  if (MAX_MDNS_MESSAGE_SIZE <? size)%nat then
    let warning := match answers m with [] => [Warned] | _ :: _ => [] end in
    {| dnsMessageDataToSend := set_answers m [] [nextAnswerEncoded];
       dnsMessageSize := (emptyLength + length nextAnswerEncoded)%nat;
       emitted := emitted l ++ warning ++ [Sent m] |}
  else
    {| dnsMessageDataToSend := set_answers m (queries m) (answers m ++ [nextAnswerEncoded]);
       dnsMessageSize := size;
       emitted := emitted l |}.

Definition sendQueriesLoop (emptyLength : nat) (answersToSend : list DnsRecord)
    (l : SendLoop) : SendLoop :=
  fold_left (sendQueriesStep emptyLength) answersToSend l.

(** The datagrams of one [sendQueries] cycle, with the warning if any. *)
Definition sendQueriesBurst (qs : list DnsQuery) (answersToSend : list DnsRecord)
    : list Event :=
  let m0 := {| messageType := TruncatedQuery; transactionId := 0%Z;
               queries := qs; answers := []; additionalRecords := [] |} in
  let emptyLength := encodedLength m0 in
  let l := sendQueriesLoop emptyLength answersToSend
             {| dnsMessageDataToSend := m0; dnsMessageSize := emptyLength;
                emitted := [] |} in
  emitted l ++ [Sent (set_messageType (dnsMessageDataToSend l) Query)].

Definition sendQueries (s : MdnsScanner) : MdnsScanner :=
  let allQueries := JsMap.values (activeAnnounceQueries s) in
  let qs := flat_map aq_queries allQueries in
  let ans := flat_map aq_answers allQueries in
  let t := (nextAnnounceIntervalSeconds s * 1000)%Q in
  let nextAnnounceInterval := (nextAnnounceIntervalSeconds s * 2)%Q in
  emit (with_queries s (activeAnnounceQueries s) (Some t)
          (Qmin nextAnnounceInterval (60 * 60)%Q))
       (sendQueriesBurst qs ans).

Definition sameQuery (a b : DnsQuery) : bool :=
  String.eqb (q_name a) (q_name b)
  && DnsRecordType_eqb (q_recordType a) (q_recordType b)
  && Z.eqb (q_recordClass a) (q_recordClass b).

Definition setQueryRecords (s : MdnsScanner) (queryId : string)
    (qs : list DnsQuery) (ans : list DnsRecord) : MdnsScanner :=
  let store (ans' : list DnsRecord) :=
    with_queries s
      (JsMap.set queryId {| aq_queries := qs; aq_answers := ans' |}
         (activeAnnounceQueries s))
      (Some 0%Q) START_ANNOUNCE_INTERVAL_SECONDS in
  match JsMap.get queryId (activeAnnounceQueries s) with
  | Some activeExistingQuery =>
      let existingQueries := aq_queries activeExistingQuery in
      let newQueries :=
        filter (fun query =>
                  negb (existsb (fun existingQuery => sameQuery existingQuery query)
                          existingQueries)) qs in
      match newQueries with
      | [] => s
      | _ :: _ => store (aq_answers activeExistingQuery ++ ans)
      end
  | None => store ans
  end.

Definition getActiveQueryEarlierAnswers (s : MdnsScanner) : list DnsRecord :=
  flat_map aq_answers (JsMap.values (activeAnnounceQueries s)).

Definition removeQuery (s : MdnsScanner) (queryId : string) : MdnsScanner :=
  let m := JsMap.delete queryId (activeAnnounceQueries s) in
  match JsMap.size m with
  | O => with_queries s m None START_ANNOUNCE_INTERVAL_SECONDS
  | S _ => with_queries s m (queryTimer s) (nextAnnounceIntervalSeconds s)
  end.


(* ------------------------------------------------------------------ *)
(** ** Waiters *)

(** [registerWaiterPromise]: the timer runs [timeoutSeconds * 1000] ms. *)
Definition registerWaiterPromise (s : MdnsScanner) (queryId : string)
    (timeoutSeconds : option Q) (resolveOnUpdated : bool) : MdnsScanner :=
  with_waiters s
    (JsMap.set queryId
       {| timer := option_map (fun t => (t * 1000)%Q) timeoutSeconds;
          resolveOnUpdatedRecords := resolveOnUpdated |}
       (recordWaiters s)).

Definition finishWaiter (s : MdnsScanner) (queryId : string)
    (resolvePromise isUpdatedRecord : bool) : MdnsScanner :=
  match JsMap.get queryId (recordWaiters s) with
  | None => s
  | Some waiter =>
      if isUpdatedRecord && negb (resolveOnUpdatedRecords waiter) then s
      else
        let s1 := if resolvePromise then emit s [Resolved queryId] else s in
        with_waiters s1 (JsMap.delete queryId (recordWaiters s1))
  end.

Definition hasWaiter (s : MdnsScanner) (queryId : string) : bool :=
  JsMap.has queryId (recordWaiters s).

(* ------------------------------------------------------------------ *)
(** ** Sorting of the addresses *)

(** [isIPv6] of [util/Ip.js], not part of the sources at hand. *)
Variable isIPv6 : string -> bool.

(** The comparator handed to [entries.sort]. *)
Definition compareServerEntries (a b : MatterServerRecordWithExpire) : Z :=
  let aIsIPv6 := isIPv6 (ip a) in
  let bIsIPv6 := isIPv6 (ip b) in
  if aIsIPv6 && negb bIsIPv6 then (-1)%Z
  else if negb aIsIPv6 && bIsIPv6 then 1%Z
  else if aIsIPv6 && bIsIPv6 then
    if startsWith (ip a) "fd" && negb (startsWith (ip b) "fd") then (-1)%Z
    else if negb (startsWith (ip a) "fd") && startsWith (ip b) "fd" then 1%Z
    else if startsWith (ip a) "fe80:" && negb (startsWith (ip b) "fe80:") then (-1)%Z
    else if negb (startsWith (ip a) "fe80:") && startsWith (ip b) "fe80:" then 1%Z
    else 0%Z
  else 0%Z.

(** [Array.prototype.sort(compare)]: a stable sort (ECMAScript 2019).  An
    element moves in front of the sorted rest as long as it does not
    compare greater, so equal elements keep their order. *)
Section JsSort.
Variable X : Type.
Variable compare : X -> X -> Z.

Fixpoint sortInsert (x : X) (l : list X) : list X :=
  match l with
  | [] => [x]
  | y :: rest =>
      if (compare x y <=? 0)%Z then x :: y :: rest else y :: sortInsert x rest
  end.

Fixpoint jsSort (l : list X) : list X :=
  match l with
  | [] => []
  | x :: rest => sortInsert x (jsSort rest)
  end.
End JsSort.

Definition sortServerEntries (entries : list MatterServerRecordWithExpire)
    : list MatterServerRecordWithExpire :=
  jsSort compareServerEntries entries.

(** [ServerAddressIp]: ip and port, of type "udp". *)
Record ServerAddressIp := { sa_ip : string; sa_port : Z }.

Definition toServerAddressIp (e : MatterServerRecordWithExpire) : ServerAddressIp :=
  {| sa_ip := ip e; sa_port := port e |}.

Record OperationalDevice := {
  od_deviceIdentifier : string;
  od_addresses : list ServerAddressIp;
  od_expires : Z;
  od_data : DiscoveryData
}.

(** What [getCommissionableDeviceRecords] returns: the record with its
    addresses as a sorted array and [expires] undefined. *)
Record CommissionableDevice := {
  cd_record : CommissionableDeviceRecordWithExpire;
  cd_addresses : list ServerAddressIp
}.

Definition getOperationalDeviceRecords (s : MdnsScanner) (deviceMatterQname : string)
    : option OperationalDevice :=
  match JsMap.get deviceMatterQname (operationalDeviceRecords s) with
  | None => None
  | Some device =>
      match JsMap.size (op_addresses device) with
      | O => None
      | S _ =>
          Some {| od_deviceIdentifier := op_deviceIdentifier device;
                  od_addresses :=
                    map toServerAddressIp
                      (sortServerEntries (JsMap.values (op_addresses device)));
                  od_expires := op_expires device;
                  od_data := op_data device |}
      end
  end.

Inductive CommissionableDeviceIdentifiers :=
| ByInstanceId (instanceId : string)
| ByLongDiscriminator (longDiscriminator : Z)
| ByShortDiscriminator (shortDiscriminator : Z)
| ByVendorId (vendorId : Z)
| ByDeviceType (deviceType : Z)
| ByProductId (productId : Z)
| ByNothing.

Definition optZ_is (o : option Z) (z : Z) : bool :=
  match o with Some x => Z.eqb x z | None => false end.

Definition optNum_is (o : option (option Z)) (z : Z) : bool :=
  match o with Some (Some x) => Z.eqb x z | _ => false end.

Definition matchesIdentifier (identifier : CommissionableDeviceIdentifiers)
    (r : CommissionableDeviceRecordWithExpire) : bool :=
  match identifier with
  | ByInstanceId i => String.eqb (instanceId r) i
  | ByLongDiscriminator d => optZ_is (D (data r)) d
  | ByShortDiscriminator sd => optZ_is (SD r) sd
  | ByVendorId v => optNum_is (V r) v
  | ByDeviceType dt => optZ_is (DT (data r)) dt
  | ByProductId p => optNum_is (P r) p
  | ByNothing => optZ_is (CM (data r)) 1 || optZ_is (CM (data r)) 2
  end.

Definition getCommissionableDeviceRecords (s : MdnsScanner)
    (identifier : CommissionableDeviceIdentifiers) : list CommissionableDevice :=
  let storedRecords := JsMap.values (commissionableDeviceRecords s) in
  let foundRecords := filter (matchesIdentifier identifier) storedRecords in
  map (fun record =>
         {| cd_record := record;
            cd_addresses :=
              map toServerAddressIp
                (sortServerEntries (JsMap.values (addresses record))) |})
      foundRecords.


(* ------------------------------------------------------------------ *)
(** ** Errors *)

Inductive Error :=
| ImplementationError (message : string)
| ValidationError (message : string) (fieldName : option string)
| UnexpectedDataError (message : string)
| JsError (message : string).

(** A method that may throw: the state it leaves, and its result or the
    error. *)
Inductive Outcome (R : Type) :=
| Done (s : MdnsScanner) (r : R)
| Threw (s : MdnsScanner) (e : Error).
Arguments Done {R}.
Arguments Threw {R}.

Definition bind {R R' : Type} (o : Outcome R)
    (k : MdnsScanner -> R -> Outcome R') : Outcome R' :=
  match o with
  | Done s r => k s r
  | Threw s e => Threw s e
  end.

Definition stateOf {R : Type} (o : Outcome R) : MdnsScanner :=
  match o with Done s _ => s | Threw s _ => s end.

(** [for (const x of l) body]: an exception leaves the loop. *)
Fixpoint forEach {X R : Type} (body : MdnsScanner -> R -> X -> Outcome R)
    (l : list X) (s : MdnsScanner) (r : R) : Outcome R :=
  match l with
  | [] => Done s r
  | x :: rest => bind (body s r x) (forEach body rest)
  end.

(* ------------------------------------------------------------------ *)
(** ** Query identifiers *)

(** The names of [MdnsConsts.js], which is not part of the sources at
    hand: the two service names are those of the design document, the
    name builders are parameters.  A vendor or product id may be the NaN
    of [parseInt], the inner [None] of its record field; a discriminator
    is passed as the record has it, [None] for undefined. *)
Definition MATTER_SERVICE_QNAME : string := "_matter._tcp.local".
Definition MATTER_COMMISSION_SERVICE_QNAME : string := "_matterc._udp.local".
Variable getDeviceInstanceQname : string -> string.
Variable getLongDiscriminatorQname : option Z -> string.
Variable getShortDiscriminatorQname : option Z -> string.
Variable getVendorQname : option Z -> string.
Variable getDeviceTypeQname : Z -> string.
Variable getCommissioningModeQname : string.
Variable productQueryId : option Z -> string.

(** [VendorId(v)] of [datatype/VendorId.js], not part of the sources at
    hand: the branded number, or an error if it validates and refuses. *)
Variable VendorId : option Z -> Error + option Z.

Definition buildCommissionableQueryIdentifier
    (identifier : CommissionableDeviceIdentifiers) : string :=
  match identifier with
  | ByInstanceId i => getDeviceInstanceQname i
  | ByLongDiscriminator d => getLongDiscriminatorQname (Some d)
  | ByShortDiscriminator sd => getShortDiscriminatorQname (Some sd)
  | ByVendorId v => getVendorQname (Some v)
  | ByDeviceType dt => getDeviceTypeQname dt
  | ByProductId p => productQueryId (Some p)
  | ByNothing => getCommissioningModeQname
  end.

Definition extractInstanceId (instanceName : string) : string :=
  match indexOf "." instanceName with
  | Some instanceNameSeparator => String.substring 0 instanceNameSeparator instanceName
  | None => instanceName
  end.

(** [findCommissionableQueryIdentifier]: the candidates in the order the
    method tries them. *)
Definition findCommissionableQueryIdentifier (s : MdnsScanner)
    (instanceName : string) (record : CommissionableDeviceRecordWithExpire)
    : Outcome (option string) :=
  if closing s then
    Threw s (ImplementationError
               "Cannot discover commissionable device because scanner is closing.")
  else
    let has q := JsMap.has q (activeAnnounceQueries s) in
    let instanceQueryId := getDeviceInstanceQname (extractInstanceId instanceName) in
    if has instanceQueryId then Done s (Some instanceQueryId) else
    let longDiscriminatorQueryId := getLongDiscriminatorQname (D (data record)) in
    if has longDiscriminatorQueryId then Done s (Some longDiscriminatorQueryId) else
    let shortDiscriminatorQueryId := getShortDiscriminatorQname (SD record) in
    if has shortDiscriminatorQueryId then Done s (Some shortDiscriminatorQueryId) else
    let afterVendor (k : unit -> Outcome (option string)) :=
      match V record with
      | Some v =>
          match VendorId v with
          | inl e => Threw s e
          | inr vendorId =>
              let vendorIdQueryId := getVendorQname vendorId in
              if has vendorIdQueryId then Done s (Some vendorIdQueryId) else k tt
          end
      | None => k tt
      end in
    afterVendor (fun _ =>
    let afterDeviceType (k : unit -> Outcome (option string)) :=
      match DT (data record) with
      | Some dt =>
          let deviceTypeQueryId := getDeviceTypeQname dt in
          if has deviceTypeQueryId then Done s (Some deviceTypeQueryId) else k tt
      | None => k tt
      end in
    afterDeviceType (fun _ =>
    let afterProduct (k : unit -> Outcome (option string)) :=
      match P record with
      | Some p =>
          let productIdQueryId := productQueryId p in
          if has productIdQueryId then Done s (Some productIdQueryId) else k tt
      | None => k tt
      end in
    afterProduct (fun _ =>
    let commissioningModeQueryId := getCommissioningModeQname in
    if has commissioningModeQueryId then Done s (Some commissioningModeQueryId)
    else Done s None))).

Definition ptrQuery (n : string) : DnsQuery :=
  {| q_name := n; q_recordType := PTR; q_recordClass := IN; uniCastResponse := false |}.

Definition getCommissionableQueryRecords
    (identifier : CommissionableDeviceIdentifiers) : list DnsQuery :=
  let second :=
    match identifier with
    | ByInstanceId i => getDeviceInstanceQname i
    | ByLongDiscriminator d => getLongDiscriminatorQname (Some d)
    | ByShortDiscriminator sd => getShortDiscriminatorQname (Some sd)
    | ByVendorId v => getVendorQname (Some v)
    | ByDeviceType dt => getDeviceTypeQname dt
    | ByProductId _ | ByNothing => getCommissioningModeQname
    end in
  map ptrQuery [MATTER_COMMISSION_SERVICE_QNAME; second].

(* ------------------------------------------------------------------ *)
(** ** Discovery methods, up to their first suspension

    An [async] method runs until it awaits the waiter's promise; the rest
    runs when the promise is resolved ([..._resume]). *)

Inductive Started (R : Type) :=
| Returned (r : R)
| Suspended (queryId : string).
Arguments Returned {R}.
Arguments Suspended {R}.

Definition findOperationalDevice (s : MdnsScanner) (deviceMatterQname : string)
    (timeoutSeconds : option Q) (ignoreExistingRecords : bool)
    : Outcome (Started (option OperationalDevice)) :=
  if closing s then
    Threw s (ImplementationError
               "Cannot discover operational device because scanner is closing.")
  else
    let storedDevice :=
      if ignoreExistingRecords then None
      else getOperationalDeviceRecords s deviceMatterQname in
    match storedDevice with
    | Some d => Done s (Returned (Some d))
    | None =>
        let s1 := registerWaiterPromise s deviceMatterQname timeoutSeconds true in
        let s2 := setQueryRecords s1 deviceMatterQname
                    [{| q_name := deviceMatterQname; q_recordType := SRV;
                        q_recordClass := IN; uniCastResponse := false |}] [] in
        Done s2 (Suspended deviceMatterQname)
    end.

Definition findOperationalDevice_resume (s : MdnsScanner) (deviceMatterQname : string)
    : MdnsScanner * option OperationalDevice :=
  (removeQuery s deviceMatterQname, getOperationalDeviceRecords s deviceMatterQname).

(** [timeoutSeconds] defaults to 5. *)
Definition findCommissionableDevices (s : MdnsScanner)
    (identifier : CommissionableDeviceIdentifiers) (timeoutSeconds : Q)
    (ignoreExistingRecords : bool) : Outcome (Started (list CommissionableDevice)) :=
  let storedRecords :=
    if ignoreExistingRecords then []
    else filter (fun d => match cd_addresses d with [] => false | _ :: _ => true end)
           (getCommissionableDeviceRecords s identifier) in
  match storedRecords with
  | _ :: _ => Done s (Returned storedRecords)
  | [] =>
      let queryId := buildCommissionableQueryIdentifier identifier in
      let s1 := registerWaiterPromise s queryId (Some timeoutSeconds) true in
      let s2 := setQueryRecords s1 queryId (getCommissionableQueryRecords identifier) [] in
      Done s2 (Suspended queryId)
  end.

Definition findCommissionableDevices_resume (s : MdnsScanner)
    (identifier : CommissionableDeviceIdentifiers)
    : MdnsScanner * list CommissionableDevice :=
  (removeQuery s (buildCommissionableQueryIdentifier identifier),
   getCommissionableDeviceRecords s identifier).

(** [findCommissionableDevicesContinuously] up to its first suspension:
    the callback sees every record found so far ([discoveredDevices] is
    still empty, records with the same [deviceIdentifier] are reported
    once); [remainingTime] is what is left of the window, in seconds. *)
Fixpoint reportOnce (seen : list string) (l : list CommissionableDevice)
    : list CommissionableDevice :=
  match l with
  | [] => []
  | d :: rest =>
      let i := deviceIdentifier (cd_record d) in
      if existsb (String.eqb i) seen then reportOnce seen rest
      else d :: reportOnce (i :: seen) rest
  end.

Definition findCommissionableDevicesContinuously (s : MdnsScanner)
    (identifier : CommissionableDeviceIdentifiers) (remainingTime : Z)
    : Outcome (list CommissionableDevice * Started (list CommissionableDevice)) :=
  let queryId := buildCommissionableQueryIdentifier identifier in
  let s1 := setQueryRecords s queryId (getCommissionableQueryRecords identifier) [] in
  let reported := reportOnce [] (getCommissionableDeviceRecords s1 identifier) in
  if (remainingTime <=? 0)%Z then
    Done s1 (reported, Returned (getCommissionableDeviceRecords s1 identifier))
  else
    Done (registerWaiterPromise s1 queryId (Some (inject_Z remainingTime)) false)
         (reported, Suspended queryId).

(* ------------------------------------------------------------------ *)
(** ** close *)

Definition stopAll (s : MdnsScanner) : MdnsScanner :=
  {| activeAnnounceQueries := activeAnnounceQueries s; queryTimer := None;
     nextAnnounceIntervalSeconds := nextAnnounceIntervalSeconds s;
     operationalDeviceRecords := operationalDeviceRecords s;
     commissionableDeviceRecords := commissionableDeviceRecords s;
     recordWaiters := recordWaiters s; periodicTimer := false;
     transportOpen := false; closing := true;
     enableIpv4 := enableIpv4 s; events := events s |}.

Definition hasTimer (s : MdnsScanner) (queryId : string) : bool :=
  match JsMap.get queryId (recordWaiters s) with
  | Some w => match timer w with Some _ => true | None => false end
  | None => false
  end.

Definition close (s : MdnsScanner) : MdnsScanner :=
  let s1 := stopAll s in
  fold_left (fun acc queryId => finishWaiter acc queryId (hasTimer acc queryId) false)
            (JsMap.keys (recordWaiters s1)) s1.

(* ------------------------------------------------------------------ *)
(** ** TXT records *)

(** [parseInt], with [None] for NaN.  Its results are integers; the
    Infinity of a numeral beyond the doubles is not modelled. *)
Variable parseInt : string -> option Z.

Local Open Scope string_scope.

Definition emptyDiscoveryData : DiscoveryData :=
  {| SII := None; SAI := None; SAT := None; T := None; D := None; CM := None;
     DT := None; PH := None; ICD := None;
     VP := None; DN := None; RI := None; PI := None |}.

(** [result[key] = intValue] ([i]) or [result[key] = value] ([str]). *)
Definition setField (r : DiscoveryData) (key : string)
    (i : option Z) (str : option string) : DiscoveryData :=
  let int k old := if String.eqb key k then i else old in
  let txt k old := if String.eqb key k then str else old in
  {| SII := int "SII" (SII r); SAI := int "SAI" (SAI r); SAT := int "SAT" (SAT r);
     T := int "T" (T r); D := int "D" (D r); CM := int "CM" (CM r);
     DT := int "DT" (DT r); PH := int "PH" (PH r); ICD := int "ICD" (ICD r);
     VP := txt "VP" (VP r); DN := txt "DN" (DN r); RI := txt "RI" (RI r);
     PI := txt "PI" (PI r) |}.

Definition includes (l : list string) (x : string) : bool := existsb (String.eqb x) l.

Definition parseTxtItem (result : DiscoveryData) (item : string) : DiscoveryData :=
  let parts := split "=" item in
  match nth_error parts 0, nth_error parts 1 with
  | Some key, Some val =>
      if includes ["SII"; "SAI"; "SAT"; "T"; "D"; "CM"; "DT"; "PH"; "ICD"] key then
        match parseInt val with
        | None => result
        | Some intValue => setField result key (Some intValue) None
        end
      else if includes ["VP"; "DN"; "RI"; "PI"] key then
        setField result key None (Some val)
      else result
  | _, _ => result
  end.

Definition parseTxtRecord (record : DnsRecord) : DiscoveryData :=
  match value record with
  | TxtValue items => fold_left parseTxtItem items emptyDiscoveryData
  | _ => emptyDiscoveryData
  end.

(** [{...old, ...txtData}] on the keys of [DiscoveryData]. *)
Definition spreadData (old txtData : DiscoveryData) : DiscoveryData :=
  let over {X} (n o : option X) := match n with Some _ => n | None => o end in
  {| SII := over (SII txtData) (SII old); SAI := over (SAI txtData) (SAI old);
     SAT := over (SAT txtData) (SAT old); T := over (T txtData) (T old);
     D := over (D txtData) (D old); CM := over (CM txtData) (CM old);
     DT := over (DT txtData) (DT old); PH := over (PH txtData) (PH old);
     ICD := over (ICD txtData) (ICD old);
     VP := over (VP txtData) (VP old); DN := over (DN txtData) (DN old);
     RI := over (RI txtData) (RI old); PI := over (PI txtData) (PI old) |}.

(** The record under construction in [parseCommissionableTxtRecord]:
    [instanceId], [deviceIdentifier], [SD], [V] and [P] are set by the
    caller. *)
Definition parseCommissionableTxtRecord (now : Z) (record : DnsRecord)
    : option CommissionableDeviceRecordWithExpire :=
  match value record with
  | TxtValue _ =>
      let result := parseTxtRecord record in
      match D result, CM result with
      | Some _, Some _ =>
          Some {| instanceId := ""; deviceIdentifier := "";
                  addresses := JsMap.empty;
                  expires := (now + ttl record * 1000)%Z;
                  SD := None; V := None; P := None; data := result |}
      | _, _ => None
      end
  | _ => None
  end.

Local Close Scope string_scope.

(** JavaScript's 32-bit [>>] and [&]. *)
Definition toInt32 (z : Z) : Z := ((z + 2 ^ 31) mod 2 ^ 32 - 2 ^ 31)%Z.
Definition js_shr (x n : Z) : Z := Z.shiftr (toInt32 x) (n mod 32).
Definition js_and (x y : Z) : Z := Z.land (toInt32 x) (toInt32 y).

(* ------------------------------------------------------------------ *)
(** ** Incoming records *)

Record DnsMessage := {
  dm_messageType : DnsMessageType;
  dm_transactionId : Z;
  dm_queries : list DnsQuery;
  dm_answers : list DnsRecord;
  dm_additionalRecords : list DnsRecord
}.

Record IpRecord := { ip_value : string; ip_ttl : Z }.

(** The codec gives an A or AAAA record a string value; a record of
    another shape, on which [value.startsWith] would fail, is left out. *)
Definition handleIpRecords (s : MdnsScanner) (answers : list DnsRecord)
    (target netInterface : string) : list IpRecord :=
  let ipRecords :=
    filter (fun r =>
              ((DnsRecordType_eqb (recordType r) A && enableIpv4 s)
               || DnsRecordType_eqb (recordType r) AAAA)
              && String.eqb (name r) target) answers in
  flat_map (fun r =>
              match value r with
              | StrValue v =>
                  [{| ip_value := if startsWith v "fe80::"
                                  then (v ++ "%" ++ netInterface)%string else v;
                      ip_ttl := ttl r |}]
              | _ => []
              end) ipRecords.

Definition handleOperationalTxtRecord (now : Z) (s : MdnsScanner)
    (record : DnsRecord) : MdnsScanner :=
  let matterName := name record in
  if (ttl record =? 0)%Z then
    if JsMap.has matterName (operationalDeviceRecords s)
    then with_operational s (JsMap.delete matterName (operationalDeviceRecords s))
    else s
  else
    match value record with
    | TxtValue _ =>
        let txtData := parseTxtRecord record in
        let device :=
          match JsMap.get matterName (operationalDeviceRecords s) with
          | Some device =>
              {| op_deviceIdentifier := op_deviceIdentifier device;
                 op_addresses := op_addresses device;
                 op_expires := (now + ttl record * 1000)%Z;
                 op_data := spreadData (op_data device) txtData |}
          | None =>
              {| op_deviceIdentifier := matterName;
                 op_addresses := JsMap.empty;
                 op_expires := (now + ttl record * 1000)%Z;
                 op_data := txtData |}
          end in
        with_operational s (JsMap.set matterName device (operationalDeviceRecords s))
    | _ => s
    end.

(** The body of [for (const { value: ip, ttl } of ips)], on the address
    map; [keyOf] is the key under which the entry is stored again. *)
Definition updateAddress (now port' : Z)
    (keyOf : string -> MatterServerRecordWithExpire -> string)
    (addrs : JsMap.t MatterServerRecordWithExpire) (r : IpRecord)
    : JsMap.t MatterServerRecordWithExpire :=
  if (ip_ttl r =? 0)%Z then JsMap.delete (ip_value r) addrs
  else
    let matterServer :=
      match JsMap.get (ip_value r) addrs with
      | Some e => e
      | None => {| ip := ip_value r; port := port'; addr_expires := 0 |}
      end in
    let matterServer' :=
      {| ip := ip matterServer; port := port matterServer;
         addr_expires := (now + ip_ttl r * 1000)%Z |} in
    JsMap.set (keyOf (ip_value r) matterServer') matterServer' addrs.

Definition ipQueries (s : MdnsScanner) (target : string) : list DnsQuery :=
  {| q_name := target; q_recordType := AAAA; q_recordClass := IN;
     uniCastResponse := false |}
  :: (if enableIpv4 s
      then [{| q_name := target; q_recordType := A; q_recordClass := IN;
               uniCastResponse := false |}]
      else []).

(** The codec gives an SRV record an [SrvValue]; for another shape,
    whose [target] and [port] would be undefined, the model stops after
    the test of the ttl. *)
Definition handleOperationalSrvRecord (now : Z) (s : MdnsScanner)
    (record : DnsRecord) (answers formerAnswers : list DnsRecord)
    (netInterface : string) : MdnsScanner :=
  let matterName := name record in
  if (ttl record =? 0)%Z then
    if JsMap.has matterName (operationalDeviceRecords s)
    then with_operational s (JsMap.delete matterName (operationalDeviceRecords s))
    else s
  else
    match value record with
    | SrvValue _ _ port' target =>
        let ips := handleIpRecords s (answers ++ formerAnswers) target netInterface in
        let deviceExisted := JsMap.has matterName (operationalDeviceRecords s) in
        let device :=
          match JsMap.get matterName (operationalDeviceRecords s) with
          | Some device => device
          | None => {| op_deviceIdentifier := matterName;
                       op_addresses := JsMap.empty;
                       op_expires := (now + ttl record * 1000)%Z;
                       op_data := emptyDiscoveryData |}
          end in
        let addrs :=
          fold_left (updateAddress now port' (fun _ e => ip e)) ips (op_addresses device) in
        let s1 :=
          match ips with
          | [] => s
          | _ :: _ =>
              with_operational s
                (JsMap.set matterName
                   {| op_deviceIdentifier := op_deviceIdentifier device;
                      op_addresses := addrs;
                      op_expires := op_expires device;
                      op_data := op_data device |}
                   (operationalDeviceRecords s))
          end in
        match JsMap.size addrs with
        | O =>
            if hasWaiter s1 matterName
            then setQueryRecords s1 matterName (ipQueries s1 target) answers
            else s1
        | S _ => finishWaiter s1 matterName true deviceExisted
        end
    | _ => s
    end.

Definition isOperational (ty : DnsRecordType) (r : DnsRecord) : bool :=
  DnsRecordType_eqb (recordType r) ty && endsWith (name r) MATTER_SERVICE_QNAME.

Definition handleOperationalRecords (now : Z) (s : MdnsScanner)
    (answers formerAnswers : list DnsRecord) (netInterface : string)
    : MdnsScanner * bool :=
  let '(s1, handled1) :=
    match List.find (isOperational TXT) answers with
    | Some operationalTxtRecord =>
        (handleOperationalTxtRecord now s operationalTxtRecord, true)
    | None => (s, false)
    end in
  let operationalSrvRecord :=
    match List.find (isOperational SRV) answers with
    | Some r => Some r
    | None => List.find (isOperational SRV) formerAnswers
    end in
  match operationalSrvRecord with
  | Some r => (handleOperationalSrvRecord now s1 r answers formerAnswers netInterface, true)
  | None => (s1, handled1)
  end.

(** A JavaScript [Set] of strings, in insertion order. *)
Definition setAdd (x : string) (l : list string) : list string :=
  if includes l x then l else l ++ [x].
Definition setDelete (x : string) (l : list string) : list string :=
  filter (fun y => negb (String.eqb y x)) l.

Definition isCommissionable (r : DnsRecord) : bool :=
  endsWith (name r) MATTER_COMMISSION_SERVICE_QNAME.

(** The body of [for (const record of txtRecords)]; the second component
    is [queryMissingDataForInstances]. *)
Definition commissionableTxtStep (now : Z) (acc : MdnsScanner * list string)
    (record : DnsRecord) : MdnsScanner * list string :=
  let '(s, queryMissingDataForInstances) := acc in
  let name' := name record in
  if (ttl record =? 0)%Z then
    if JsMap.has name' (commissionableDeviceRecords s)
    then (with_commissionable s (JsMap.delete name' (commissionableDeviceRecords s)),
          queryMissingDataForInstances)
    else acc
  else
    match parseCommissionableTxtRecord now record with
    | None => acc
    | Some parsedRecord =>
        let instanceId' := extractInstanceId name' in
        let SD' :=
          match D (data parsedRecord), SD parsedRecord with
          | Some d, None => Some (js_and (js_shr d 8) 15)
          | _, sd => sd
          end in
        let '(V', P') :=
          match VP (data parsedRecord) with
          | Some vp =>
              let VpValueArr := split "+" vp in
              (option_map parseInt (nth_error VpValueArr 0),
               option_map parseInt (nth_error VpValueArr 1))
          | None => (V parsedRecord, P parsedRecord)
          end in
        let storedRecord := JsMap.get name' (commissionableDeviceRecords s) in
        let parsedRecord' :=
          {| instanceId := instanceId'; deviceIdentifier := instanceId';
             addresses := match storedRecord with
                          | Some stored => addresses stored
                          | None => addresses parsedRecord
                          end;
             expires := expires parsedRecord;
             SD := SD'; V := V'; P := P'; data := data parsedRecord |} in
        (with_commissionable s
           (JsMap.set name' parsedRecord' (commissionableDeviceRecords s)),
         match storedRecord with
         | Some _ => queryMissingDataForInstances
         | None => setAdd name' queryMissingDataForInstances
         end)
    end.

(** The body of [for (const record of srvRecords)]; a value that is not
    an [SrvValue] is treated as in [handleOperationalSrvRecord]. *)
Definition commissionableSrvStep (now : Z) (answers formerAnswers : list DnsRecord)
    (netInterface : string) (s : MdnsScanner)
    (queryMissingDataForInstances : list string) (record : DnsRecord)
    : Outcome (list string) :=
  match JsMap.get (name record) (commissionableDeviceRecords s) with
  | None => Done s queryMissingDataForInstances
  | Some storedRecord =>
    if (ttl record =? 0)%Z then
      Done (with_commissionable s
              (JsMap.delete (name record) (commissionableDeviceRecords s)))
           queryMissingDataForInstances
    else
      match value record with
      | SrvValue _ _ port' target =>
        let recordExisting :=
          match JsMap.size (addresses storedRecord) with O => false | S _ => true end in
        let ips := handleIpRecords s (answers ++ formerAnswers) target netInterface in
        let addrs :=
          fold_left (updateAddress now port' (fun k _ => k)) ips (addresses storedRecord) in
        let storedRecord' :=
          {| instanceId := instanceId storedRecord;
             deviceIdentifier := deviceIdentifier storedRecord;
             addresses := addrs; expires := expires storedRecord;
             SD := SD storedRecord; V := V storedRecord; P := P storedRecord;
             data := data storedRecord |} in
        let s1 :=
          with_commissionable s
            (JsMap.set (name record) storedRecord' (commissionableDeviceRecords s)) in
        match JsMap.size addrs with
        | O =>
            bind (findCommissionableQueryIdentifier s1 "" storedRecord')
              (fun s2 queryId =>
                 match queryId with
                 | None => Done s2 queryMissingDataForInstances
                 | Some queryId =>
                     Done (setQueryRecords s2 queryId (ipQueries s2 target) answers)
                          queryMissingDataForInstances
                 end)
        | S _ =>
            bind (findCommissionableQueryIdentifier s1 (name record) storedRecord')
              (fun s2 queryId =>
                 match queryId with
                 | None => Done s2 queryMissingDataForInstances
                 | Some queryId =>
                     Done (finishWaiter s2 queryId true recordExisting)
                          (setDelete (name record) queryMissingDataForInstances)
                 end)
        end
      | _ => Done s queryMissingDataForInstances
      end
  end.

(** The body of the last loop, over the instances that had only a TXT
    record. *)
Definition commissionableMissingStep (answers : list DnsRecord)
    (s : MdnsScanner) (_ : unit) (name' : string) : Outcome unit :=
  match JsMap.get name' (commissionableDeviceRecords s) with
  | None => Done s tt
  | Some storedRecord =>
      bind (findCommissionableQueryIdentifier s "" storedRecord)
        (fun s1 queryId =>
           match queryId with
           | None => Done s1 tt
           | Some queryId =>
               Done (setQueryRecords s1 queryId
                       [{| q_name := name'; q_recordType := ANY; q_recordClass := IN;
                           uniCastResponse := false |}] answers) tt
           end)
  end.

(** The records under [_matterc._udp.local]: those of the message or,
    when it has none, those of the known answers. *)
Definition commissionableRecordsOf (answers formerAnswers : list DnsRecord)
    : list DnsRecord :=
  match filter isCommissionable answers with
  | [] => filter isCommissionable formerAnswers
  | l => l
  end.

Definition ofType (ty : DnsRecordType) (l : list DnsRecord) : list DnsRecord :=
  filter (fun r => DnsRecordType_eqb (recordType r) ty) l.

Definition handleCommissionableRecords (now : Z) (s : MdnsScanner)
    (answers formerAnswers : list DnsRecord) (netInterface : string) : Outcome unit :=
  let commissionableRecords := commissionableRecordsOf answers formerAnswers in
  match commissionableRecords with
  | [] => Done s tt
  | _ :: _ =>
      let txtRecords := ofType TXT commissionableRecords in
      let '(s1, missing1) := fold_left (commissionableTxtStep now) txtRecords (s, []) in
      let srvRecords := ofType SRV commissionableRecords in
      bind (forEach (commissionableSrvStep now answers formerAnswers netInterface)
              srvRecords s1 missing1)
        (fun s2 missing2 => forEach (commissionableMissingStep answers) missing2 s2 tt)
  end.

(** [handleDnsMessage]: [message] is what [DnsCodec.decode] returns,
    [None] when the bytes cannot be parsed. *)
Definition handleDnsMessage (now : Z) (s : MdnsScanner) (message : option DnsMessage)
    (netInterface : string) : Outcome unit :=
  if closing s then Done s tt
  else
    match message with
    | None => Done s tt
    | Some message =>
        match dm_messageType message with
        | Response | TruncatedResponse =>
            let answers := dm_answers message ++ dm_additionalRecords message in
            let '(s1, handled) :=
              handleOperationalRecords now s answers
                (getActiveQueryEarlierAnswers s) netInterface in
            if handled then Done s1 tt
            else handleCommissionableRecords now s1 answers
                   (getActiveQueryEarlierAnswers s1) netInterface
        | _ => Done s tt
        end
    end.

(* ------------------------------------------------------------------ *)
(** ** Cancelling a discovery, reading the cache *)

(** [cancelOperationalDeviceDiscovery]; [deviceMatterQname] is the name
    [createOperationalMatterQName] builds from the fabric and the node
    id, as for [findOperationalDevice]. *)
Definition cancelOperationalDeviceDiscovery (s : MdnsScanner)
    (deviceMatterQname : string) : MdnsScanner :=
  finishWaiter s deviceMatterQname true false.

Definition cancelCommissionableDeviceDiscovery (s : MdnsScanner)
    (identifier : CommissionableDeviceIdentifiers) : MdnsScanner :=
  let queryId := buildCommissionableQueryIdentifier identifier in
  finishWaiter s queryId true false.

Definition getDiscoveredOperationalDevice (s : MdnsScanner) (deviceMatterQname : string)
    : option OperationalDevice :=
  getOperationalDeviceRecords s deviceMatterQname.

Definition getDiscoveredCommissionableDevices (s : MdnsScanner)
    (identifier : CommissionableDeviceIdentifiers) : list CommissionableDevice :=
  getCommissionableDeviceRecords s identifier.

(* ------------------------------------------------------------------ *)
(** ** expire *)

(** [[...addresses.entries()].forEach(...)]: the addresses of the
    snapshot that have expired are deleted from the map. *)
Definition expireAddresses (now : Z) (addresses : JsMap.t MatterServerRecordWithExpire)
    : JsMap.t MatterServerRecordWithExpire :=
  fold_left (fun acc kv =>
               if (now <? addr_expires (snd kv))%Z then acc
               else JsMap.delete (fst kv) acc)
            addresses addresses.

(** The two loops of [expire] are the same code, one over the
    operational and one over the commissionable records; [addressesOf]
    and [expiresOf] read the two fields the callback destructures.  The
    address map is pruned in place, so the record that stays in the cache
    holds the pruned map ([withAddresses]). *)
Section ExpireLoop.
Variable X : Type.
Variable addressesOf : X -> JsMap.t MatterServerRecordWithExpire.
Variable expiresOf : X -> Z.
Variable withAddresses : X -> JsMap.t MatterServerRecordWithExpire -> X.

Definition expireStep (now : Z) (records : JsMap.t X) (entry : string * X) : JsMap.t X :=
  let '(recordKey, record) := entry in
  let addresses' :=
    if (now <? expiresOf record)%Z then expireAddresses now (addressesOf record)
    else addressesOf record in
  if (expiresOf record <=? now)%Z || (JsMap.size addresses' =? 0)%nat
  then JsMap.delete recordKey records
  else JsMap.set recordKey (withAddresses record addresses') records.

Definition expireLoop (now : Z) (records : JsMap.t X) : JsMap.t X :=
  fold_left (expireStep now) records records.
End ExpireLoop.

Definition op_withAddresses (device : OperationalDeviceRecordWithExpire)
    (a : JsMap.t MatterServerRecordWithExpire) : OperationalDeviceRecordWithExpire :=
  {| op_deviceIdentifier := op_deviceIdentifier device; op_addresses := a;
     op_expires := op_expires device; op_data := op_data device |}.

Definition cr_withAddresses (record : CommissionableDeviceRecordWithExpire)
    (a : JsMap.t MatterServerRecordWithExpire) : CommissionableDeviceRecordWithExpire :=
  {| instanceId := instanceId record; deviceIdentifier := deviceIdentifier record;
     addresses := a; expires := expires record;
     SD := SD record; V := V record; P := P record; data := data record |}.

(** [expire], which the periodic timer runs every minute; [now] is
    [Time.nowMs()]. *)
Definition expire (now : Z) (s : MdnsScanner) : MdnsScanner :=
  let s1 :=
    with_operational s
      (expireLoop op_addresses op_expires op_withAddresses now
         (operationalDeviceRecords s)) in
  with_commissionable s1
    (expireLoop addresses expires cr_withAddresses now
       (commissionableDeviceRecords s1)).

(* ------------------------------------------------------------------ *)
(** ** TimerNode: the timers of [Time] on Node.js

    [Time.getTimer] and [Time.getPeriodicTimer] of [TimeNode] build a
    [TimerNode].  The platform's pending timers are the handles that
    [setTimeout] and [setInterval] have returned and that have neither
    been cleared nor, for [setTimeout], run. *)

Record NodeTimers := {
  pending : list nat;
  nextHandle : nat
}.

Record TimerNode := {
  timerId : option nat;
  isRunning : bool;
  intervalMs : Q;
  periodic : bool
}.

Section TimeNode.

(** The text of a number in a template string. *)
Variable numberToString : Q -> string.

(** The constructor. *)
Definition TimerNode_new (intervalMs' : Q) (periodic' : bool) : Error + TimerNode :=
  if negb (Qle_bool 0 intervalMs') || negb (Qle_bool intervalMs' 2147483647)
  then inl (ImplementationError
              ("Invalid intervalMs: " ++ numberToString intervalMs'
               ++ ". The value must be between 0 and 32-bit maximum value (2147483647)"))
  else inr {| timerId := None; isRunning := false;
              intervalMs := intervalMs'; periodic := periodic' |}.

End TimeNode.

(** [clearTimeout(id)] and [clearInterval(id)]; clearing [undefined] or
    a handle that is not pending does nothing. *)
Definition clearTimer (n : NodeTimers) (handle : option nat) : NodeTimers :=
  match handle with
  | Some h => {| pending := List.remove Nat.eq_dec h (pending n);
                 nextHandle := nextHandle n |}
  | None => n
  end.

Definition TimerNode_stop (n : NodeTimers) (t : TimerNode) : NodeTimers * TimerNode :=
  (clearTimer n (timerId t),
   {| timerId := timerId t; isRunning := false;
      intervalMs := intervalMs t; periodic := periodic t |}).

Definition TimerNode_start (n : NodeTimers) (t : TimerNode) : NodeTimers * TimerNode :=
  let '(n1, t1) := if isRunning t then TimerNode_stop n t else (n, t) in
  let handle := nextHandle n1 in
  ({| pending := pending n1 ++ [handle]; nextHandle := S handle |},
   {| timerId := Some handle; isRunning := true;
      intervalMs := intervalMs t1; periodic := periodic t1 |}).

(** The platform runs the function that [start] scheduled under
    [handle]: a timeout is no longer pending when it runs, and the
    function marks a timer that is not periodic as stopped before it
    calls the callback. *)
Definition TimerNode_fire (n : NodeTimers) (t : TimerNode) (handle : nat)
    : NodeTimers * TimerNode :=
  if periodic t then (n, t)
  else
    ({| pending := List.remove Nat.eq_dec handle (pending n);
        nextHandle := nextHandle n |},
     {| timerId := timerId t; isRunning := false;
        intervalMs := intervalMs t; periodic := periodic t |}).

(* ================================================================== *)
(** * MdnsServer: the responder *)

(** [isDeepEqual] of [util/DeepEqual.js] and the key under which the time
    of the last multicast of a record is kept ([buildDnsRecordKey], a
    template string over the name, class, type and interface); number
    formatting is not modelled. *)
Variable isDeepEqual : DnsRecord -> DnsRecord -> bool.
Variable buildDnsRecordKey : DnsRecord -> string -> string.

Definition RecordValue_eqb (x y : RecordValue) : bool :=
  match x, y with
  | StrValue a, StrValue b => String.eqb a b
  | SrvValue p w q t, SrvValue p' w' q' t' =>
      Z.eqb p p' && Z.eqb w w' && Z.eqb q q' && String.eqb t t'
  | TxtValue a, TxtValue b =>
      if list_eq_dec string_dec a b then true else false
  | _, _ => false
  end.

Definition DnsRecord_eqb (x y : DnsRecord) : bool :=
  String.eqb (name x) (name y)
  && DnsRecordType_eqb (recordType x) (recordType y)
  && Z.eqb (recordClass x) (recordClass y)
  && Z.eqb (ttl x) (ttl y)
  && RecordValue_eqb (value x) (value y).

Inductive ServerEvent :=
| ServerSent (m : DnsMessagePartiallyPreEncoded) (netInterface : string)
    (unicastTarget : option string).

Record MdnsServer := {
  recordLastSentAsMulticastAnswer : JsMap.t Z;
  server_events : list ServerEvent
}.

Definition queryRecords (q : DnsQuery) (records : list DnsRecord) : list DnsRecord :=
  match q_recordType q with
  | ANY => filter (fun record => String.eqb (name record) (q_name q)) records
  | ty =>
      filter (fun record =>
                String.eqb (name record) (q_name q)
                && DnsRecordType_eqb (recordType record) ty) records
  end.

(** One turn of the answers loop of [sendRecords]. *)
Definition sendRecordsStep (emptyLength : nat) (l : SendLoop)
    (nextAnswer : DnsRecord) : SendLoop :=
  let m := dnsMessageDataToSend l in
  let nextAnswerEncoded := encodeRecord nextAnswer in
  let size := (dnsMessageSize l + length nextAnswerEncoded)%nat in
  if (MAX_MDNS_MESSAGE_SIZE <? size)%nat then
    {| dnsMessageDataToSend := set_answers m (queries m) [nextAnswerEncoded];
       dnsMessageSize := (emptyLength + length nextAnswerEncoded)%nat;
       emitted := emitted l ++ [Sent m] |}
  else
    {| dnsMessageDataToSend := set_answers m (queries m) (answers m ++ [nextAnswerEncoded]);
       dnsMessageSize := size;
       emitted := emitted l |}.

(** The loop over [additionalRecordsToSend], which stops at the first
    record that does not fit. *)
Fixpoint pushAdditionalRecords (size : nat) (pushed : list ByteArray)
    (additionalRecordsToSend : list DnsRecord) : list ByteArray :=
  match additionalRecordsToSend with
  | [] => pushed
  | additionalRecord :: rest =>
      let additionalRecordEncoded := encodeRecord additionalRecord in
      let size' := (size + length additionalRecordEncoded)%nat in
      if (MAX_MDNS_MESSAGE_SIZE <? size')%nat then pushed
      else pushAdditionalRecords size' (pushed ++ [additionalRecordEncoded]) rest
  end.

(** The datagrams of one [sendRecords] call. *)
Definition sendRecords (ty : DnsMessageType) (transactionId' : Z)
    (qs : list DnsQuery) (answers' additionalRecords' : list DnsRecord)
    : list DnsMessagePartiallyPreEncoded :=
  let m0 := {| messageType := ty; transactionId := transactionId';
               queries := qs; answers := []; additionalRecords := [] |} in
  let emptyLength := encodedLength m0 in
  let l := fold_left (sendRecordsStep emptyLength) answers'
             {| dnsMessageDataToSend := m0; dnsMessageSize := emptyLength;
                emitted := [] |} in
  let m := dnsMessageDataToSend l in
  flat_map (fun e => match e with Sent d => [d] | _ => [] end) (emitted l)
  ++ [{| messageType := messageType m; transactionId := transactionId m;
         queries := queries m; answers := answers m;
         additionalRecords :=
           pushAdditionalRecords (dnsMessageSize l) [] additionalRecords' |}].

(** Known-answer suppression of the answers: one filter per known answer,
    until nothing is left. *)
Fixpoint suppressKnownAnswers (answers' knownAnswers : list DnsRecord) : list DnsRecord :=
  match knownAnswers with
  | [] => answers'
  | knownAnswersRecord :: rest =>
      let answers'' :=
        filter (fun record => negb (isDeepEqual record knownAnswersRecord)) answers' in
      match answers'' with
      | [] => []
      | _ :: _ => suppressKnownAnswers answers'' rest
      end
  end.

Definition suppressAdditionalRecords (additionalRecords' knownAnswers : list DnsRecord)
    : list DnsRecord :=
  fold_left (fun acc knownAnswersRecord =>
               filter (fun record => negb (isDeepEqual record knownAnswersRecord)) acc)
            knownAnswers additionalRecords'.

(** What one turn of [for (const portRecords of records.values())]
    hands to [sendRecords]. *)
Record ResponseData := {
  rd_answers : list DnsRecord;
  rd_additionalRecords : list DnsRecord;
  rd_uniCastResponse : bool
}.

(** [answers.includes(record)] compares references; [answers] holds
    members of [portRecords] selected by name and type, so a record equal
    to a member of [answers] is itself a member, and comparing values
    gives the same result. *)
Definition buildResponse (now : Z) (srv : MdnsServer) (netInterface : string)
    (qs : list DnsQuery) (knownAnswers portRecords : list DnsRecord)
    : option (ResponseData * MdnsServer) :=
  let answers0 := flat_map (fun query => queryRecords query portRecords) qs in
  match answers0 with
  | [] => None
  | _ :: _ =>
      let additional0 :=
        if existsb (fun query =>
                      negb (DnsRecordType_eqb (q_recordType query) A)
                      && negb (DnsRecordType_eqb (q_recordType query) AAAA)) qs
        then filter (fun record =>
                       negb (existsb (DnsRecord_eqb record) answers0)
                       && negb (DnsRecordType_eqb (recordType record) PTR)) portRecords
        else [] in
      let answers1 := suppressKnownAnswers answers0 knownAnswers in
      match answers1 with
      | [] => None
      | _ :: _ =>
          let additional1 := suppressAdditionalRecords additional0 knownAnswers in
          let uniCast0 := forallb uniCastResponse qs in
          let timeSince (answer : DnsRecord) : Z :=
            (now - match JsMap.get (buildDnsRecordKey answer netInterface)
                           (recordLastSentAsMulticastAnswer srv) with
                   | Some t => t
                   | None => 0
                   end)%Z in
          let uniCast :=
            if uniCast0
               && existsb (fun answer => (ttl answer * 250 <? timeSince answer)%Z) answers1
            then false else uniCast0 in
          if uniCast then
            Some ({| rd_answers := answers1; rd_additionalRecords := additional1;
                     rd_uniCastResponse := true |}, srv)
          else
            let answers2 := filter (fun answer => (1000 <? timeSince answer)%Z) answers1 in
            match answers2 with
            | [] => None
            | _ :: _ =>
                Some ({| rd_answers := answers2; rd_additionalRecords := additional1;
                         rd_uniCastResponse := false |},
                      {| recordLastSentAsMulticastAnswer :=
                           fold_left (fun m answer =>
                                        JsMap.set (buildDnsRecordKey answer netInterface) now m)
                                     answers2 (recordLastSentAsMulticastAnswer srv);
                         server_events := server_events srv |})
            end
      end
  end.

Definition respond (srv : MdnsServer) (netInterface remoteIp : string)
    (transactionId' : Z) (r : ResponseData) : MdnsServer :=
  {| recordLastSentAsMulticastAnswer := recordLastSentAsMulticastAnswer srv;
     server_events :=
       server_events srv
       ++ map (fun d => ServerSent d netInterface
                          (if rd_uniCastResponse r then Some remoteIp else None))
              (sendRecords Response transactionId' [] (rd_answers r)
                 (rd_additionalRecords r)) |}.

(** One turn of [for (const portRecords of records.values())]. *)
Definition serverHandlePortRecords (now : Z) (message : DnsMessage)
    (remoteIp netInterface : string) (srv : MdnsServer)
    (portRecords : list DnsRecord) : MdnsServer :=
  match buildResponse now srv netInterface
          (dm_queries message) (dm_answers message) portRecords with
  | None => srv
  | Some (r, srv') =>
      respond srv' netInterface remoteIp (dm_transactionId message) r
  end.

(** [MdnsServer.handleDnsMessage] for a message received on
    [netInterface]: [records] are the record sets served there, by port
    and type; [now k] is the clock when the turn of key [k] reads it. *)
Definition serverHandleDnsMessage (now : string -> Z) (srv : MdnsServer)
    (records : JsMap.t (list DnsRecord)) (message : option DnsMessage)
    (remoteIp netInterface : string) : MdnsServer :=
  match JsMap.size records, message with
  | S _, Some message =>
      match dm_messageType message with
      | Query | TruncatedQuery =>
          match dm_queries message with
          | [] => srv
          | _ :: _ =>
              fold_left
                (fun acc kv =>
                   serverHandlePortRecords (now (fst kv)) message remoteIp
                     netInterface acc (snd kv))
                records srv
          end
      | _ => srv
      end
  | _, _ => srv
  end.

(* ------------------------------------------------------------------ *)
(** ** Announcements *)

(** [AnnouncementType], a numeric enum: [Commissionable] is 0. *)
Inductive AnnouncementType := Commissionable | Operative.

Definition announcementTypeNumber (type : AnnouncementType) : Z :=
  match type with Commissionable => 0%Z | Operative => 1%Z end.

(** [buildTypePortKey]: the template string of the port, a dash and the
    type. *)
Definition buildTypePortKey (type : AnnouncementType) (port : Z) : string :=
  (decimal port ++ "-" ++ decimal (announcementTypeNumber type))%string.

Definition isKeyForPort (key : string) (port : Z) : bool :=
  startsWith key (decimal port ++ "-")%string.





(* ================================================================== *)
(** * Properties of the scanner and of the responder *)

(** ** Maps *)

Lemma JsMap_get_set_same (X : Type) (k : string) (v : X) (m : JsMap.t X) :
  JsMap.get k (JsMap.set k v m) = Some v.
Proof.
  induction m as [|[k' v'] m IH]; simpl.
  - now rewrite String.eqb_refl.
  - destruct (String.eqb k' k) eqn:E; simpl; rewrite E; auto.
Qed.

Lemma JsMap_get_set_other (X : Type) (k k' : string) (v : X) (m : JsMap.t X) :
  k <> k' -> JsMap.get k' (JsMap.set k v m) = JsMap.get k' m.
Proof.
  intros Hne. induction m as [|[k0 v0] m IH]; simpl.
  - destruct (String.eqb k k') eqn:E; auto.
    apply String.eqb_eq in E. contradiction.
  - destruct (String.eqb k0 k) eqn:E; simpl.
    + apply String.eqb_eq in E. subst k0.
      destruct (String.eqb k k') eqn:E'; auto.
      apply String.eqb_eq in E'. contradiction.
    + now rewrite IH.
Qed.

Lemma JsMap_get_delete_same (X : Type) (k : string) (m : JsMap.t X) :
  JsMap.get k (JsMap.delete k m) = None.
Proof.
  unfold JsMap.delete.
  induction m as [|[k' v'] m IH]; simpl; auto.
  destruct (String.eqb k' k) eqn:E; simpl; auto.
  now rewrite E.
Qed.

Lemma JsMap_get_delete_other (X : Type) (k k' : string) (m : JsMap.t X) :
  k <> k' -> JsMap.get k' (JsMap.delete k m) = JsMap.get k' m.
Proof.
  intros Hne. unfold JsMap.delete.
  induction m as [|[k0 v0] m IH]; simpl; auto.
  destruct (String.eqb k0 k) eqn:E; simpl.
  - apply String.eqb_eq in E. subst k0.
    destruct (String.eqb k k') eqn:E'; auto.
    apply String.eqb_eq in E'. contradiction.
  - now rewrite IH.
Qed.

Lemma JsMap_set_neq (X : Type) (k : string) (v : X) (m : JsMap.t X) :
  JsMap.get k m <> Some v -> JsMap.set k v m <> m.
Proof.
  intros Hget Heq. apply Hget. rewrite <- Heq at 1. apply JsMap_get_set_same.
Qed.

(** ** setQueryRecords *)

Lemma newQueries_nil (existingQueries qs : list DnsQuery) :
  filter (fun query =>
            negb (existsb (fun existingQuery => sameQuery existingQuery query)
                    existingQueries)) qs = []
  <-> forall q, In q qs ->
        exists e, In e existingQueries /\ sameQuery e q = true.
Proof.
  split.
  - intros Hnil q Hq.
    destruct (existsb (fun e => sameQuery e q) existingQueries) eqn:E.
    + apply existsb_exists in E. exact E.
    + assert (In q []) as Hin; [|destruct Hin].
      rewrite <- Hnil. apply filter_In. split; auto. now rewrite E.
  - intros Hall.
    induction qs as [|q qs IH]; simpl; auto.
    assert (existsb (fun e => sameQuery e q) existingQueries = true) as E.
    { apply existsb_exists. apply Hall. now left. }
    rewrite E. simpl. apply IH. intros q' Hq'. apply Hall. now right.
Qed.

(** Claim C1, as the code has it.  On a query id that is already
    active, [setQueryRecords] does nothing when every new tuple (name,
    class, type) is already stored; otherwise the entry holds the new
    queries (the stored ones are overwritten, not merged) and the stored
    answers followed by the new ones, the interval is reset and a send is
    scheduled at once. *)
Theorem setQueryRecords_existing (s : MdnsScanner) (queryId : string)
    (qs : list DnsQuery) (ans : list DnsRecord) (existing : ActiveQuery) :
  JsMap.get queryId (activeAnnounceQueries s) = Some existing ->
  ((forall q, In q qs ->
      exists e, In e (aq_queries existing) /\ sameQuery e q = true) ->
   setQueryRecords s queryId qs ans = s)
  /\
  ((exists q, In q qs /\
      forall e, In e (aq_queries existing) -> sameQuery e q = false) ->
   JsMap.get queryId (activeAnnounceQueries (setQueryRecords s queryId qs ans))
     = Some {| aq_queries := qs; aq_answers := aq_answers existing ++ ans |}
   /\ nextAnnounceIntervalSeconds (setQueryRecords s queryId qs ans)
      = START_ANNOUNCE_INTERVAL_SECONDS
   /\ queryTimer (setQueryRecords s queryId qs ans) = Some 0%Q).
Proof.
  intros Hget. unfold setQueryRecords. rewrite Hget. split.
  - intros Hall.
    now rewrite (proj2 (newQueries_nil (aq_queries existing) qs) Hall).
  - intros [q [Hq Hnew]].
    destruct (filter _ qs) as [|x l] eqn:E.
    + exfalso.
      destruct (proj1 (newQueries_nil (aq_queries existing) qs) E q Hq)
        as [e [He Hsame]]. rewrite (Hnew e He) in Hsame. discriminate.
    + simpl. rewrite JsMap_get_set_same. auto.
Qed.

Lemma setQueryRecords_cases (s : MdnsScanner) (queryId : string)
    (qs : list DnsQuery) (ans : list DnsRecord) :
  setQueryRecords s queryId qs ans = s
  \/ exists ans',
       setQueryRecords s queryId qs ans
       = with_queries s
           (JsMap.set queryId {| aq_queries := qs; aq_answers := ans' |}
              (activeAnnounceQueries s))
           (Some 0%Q) START_ANNOUNCE_INTERVAL_SECONDS.
Proof.
  unfold setQueryRecords.
  destruct (JsMap.get queryId (activeAnnounceQueries s)) as [existing|].
  - destruct (filter _ qs); [now left | right; eauto].
  - right; eauto.
Qed.

(** ** The announce interval *)

Lemma Qmin_cases (a b : Q) :
  (a <= b /\ Qmin a b == a) \/ (b <= a /\ Qmin a b == b).
Proof.
  destruct (Q.min_spec a b) as [[H1 H2]|[H1 H2]].
  - left. split; [apply Qlt_le_weak; exact H1 | exact H2].
  - right. split; assumption.
Qed.

Lemma sendQueries_interval (s : MdnsScanner) :
  nextAnnounceIntervalSeconds (sendQueries s)
  = Qmin (nextAnnounceIntervalSeconds s * 2) (60 * 60).
Proof. reflexivity. Qed.

Lemma sendQueries_timer (s : MdnsScanner) :
  queryTimer (sendQueries s) = Some (nextAnnounceIntervalSeconds s * 1000).
Proof. reflexivity. Qed.



(** ** The send loops *)

Definition sentMessages (es : list Event) : list DnsMessagePartiallyPreEncoded :=
  flat_map (fun e => match e with Sent d => [d] | _ => [] end) es.

Lemma sentMessages_app (a b : list Event) :
  sentMessages (a ++ b) = sentMessages a ++ sentMessages b.
Proof. unfold sentMessages. apply flat_map_app. Qed.

Lemma sumLengths_app (a b : list ByteArray) :
  sumLengths (a ++ b) = (sumLengths a + sumLengths b)%nat.
Proof. unfold sumLengths. now rewrite map_app, list_sum_app. Qed.

(** An answer fits when a message that holds the questions and this
    answer alone is within the budget. *)
Definition fitsAlone (emptyLength : nat) (a : DnsRecord) : Prop :=
  (emptyLength + length (encodeRecord a) <= MAX_MDNS_MESSAGE_SIZE)%nat.

(** What holds of the loop's locals at every turn: the counter is the
    length of the empty message plus the answers collected, the message
    under construction is no longer than the counter says, and a message
    with two answers or more is within the budget. *)
Definition loopInvariant (ty : DnsMessageType) (emptyLength : nat) (l : SendLoop) : Prop :=
  let m := dnsMessageDataToSend l in
  dnsMessageSize l = (emptyLength + sumLengths (answers m))%nat
  /\ (12 + list_sum (map encodedQueryLength (queries m)) <= emptyLength)%nat
  /\ additionalRecords m = []
  /\ messageType m = ty
  /\ (2 <= length (answers m) -> dnsMessageSize l <= MAX_MDNS_MESSAGE_SIZE)%nat
  /\ Forall (fun d => messageType d = ty
                      /\ additionalRecords d = []
                      /\ (2 <= length (answers d) ->
                          encodedLength d <= MAX_MDNS_MESSAGE_SIZE)%nat)
            (sentMessages (emitted l)).

Lemma loopInvariant_length (ty : DnsMessageType) (emptyLength : nat) (l : SendLoop) :
  loopInvariant ty emptyLength l ->
  (encodedLength (dnsMessageDataToSend l) <= dnsMessageSize l)%nat.
Proof.
  intros (Hsize & Hq & Hadd & _). unfold encodedLength.
  rewrite Hadd, Hsize. unfold sumLengths at 2. simpl. lia.
Qed.

Lemma sendQueriesStep_invariant (emptyLength : nat) (l : SendLoop) (a : DnsRecord) :
  loopInvariant TruncatedQuery emptyLength l ->
  loopInvariant TruncatedQuery emptyLength (sendQueriesStep emptyLength l a).
Proof.
  intros Hinv. pose proof (loopInvariant_length Hinv) as Hlen.
  destruct Hinv as (Hsize & Hq & Hadd & Hty & Htwo & Hsent).
  unfold sendQueriesStep, loopInvariant.
  destruct (MAX_MDNS_MESSAGE_SIZE <? dnsMessageSize l + length (encodeRecord a))%nat eqn:E; simpl.
  - repeat split; auto; try lia; try (unfold sumLengths; simpl; lia).
    rewrite !sentMessages_app. apply Forall_app. split; auto.
    apply Forall_app. split.
    + destruct (answers (dnsMessageDataToSend l)); simpl; constructor.
    + simpl. constructor; [|constructor]. repeat split; auto.
      intros H. specialize (Htwo H). lia.
  - apply Nat.ltb_ge in E. repeat split; auto; try lia.
    rewrite sumLengths_app. unfold sumLengths at 2. simpl. lia.
Qed.

Lemma sendRecordsStep_invariant (ty : DnsMessageType) (emptyLength : nat)
    (l : SendLoop) (a : DnsRecord) :
  loopInvariant ty emptyLength l ->
  loopInvariant ty emptyLength (sendRecordsStep emptyLength l a).
Proof.
  intros Hinv. pose proof (loopInvariant_length Hinv) as Hlen.
  destruct Hinv as (Hsize & Hq & Hadd & Hty & Htwo & Hsent).
  unfold sendRecordsStep, loopInvariant.
  destruct (MAX_MDNS_MESSAGE_SIZE <? dnsMessageSize l + length (encodeRecord a))%nat eqn:E; simpl.
  - repeat split; auto; try lia; try (unfold sumLengths; simpl; lia).
    rewrite !sentMessages_app. apply Forall_app. split; auto.
    simpl. constructor; [|constructor]. repeat split; auto.
    intros H. specialize (Htwo H). lia.
  - apply Nat.ltb_ge in E. repeat split; auto; try lia.
    rewrite sumLengths_app. unfold sumLengths at 2. simpl. lia.
Qed.

Lemma fold_left_invariant (X Y : Type) (f : X -> Y -> X) (I : X -> Prop) :
  (forall x y, I x -> I (f x y)) ->
  forall (ys : list Y) (x : X), I x -> I (fold_left f ys x).
Proof.
  intros Hstep ys. induction ys as [|y ys IH]; simpl; auto.
Qed.

(** When every answer fits alone, the counter never exceeds the budget
    and so does no datagram. *)
Definition withinBudget (l : SendLoop) : Prop :=
  (dnsMessageSize l <= MAX_MDNS_MESSAGE_SIZE)%nat
  /\ Forall (fun d => encodedLength d <= MAX_MDNS_MESSAGE_SIZE)%nat
            (sentMessages (emitted l)).

Lemma sendQueriesLoop_withinBudget (emptyLength : nat) (xs : list DnsRecord) :
  Forall (fitsAlone emptyLength) xs ->
  forall l, loopInvariant TruncatedQuery emptyLength l -> withinBudget l ->
  withinBudget (fold_left (sendQueriesStep emptyLength) xs l).
Proof.
  induction 1 as [|a xs Ha Hxs IH]; simpl; auto.
  intros l Hinv [Hsize Hsent]. apply IH.
  - now apply sendQueriesStep_invariant.
  - pose proof (loopInvariant_length Hinv) as Hlen.
    unfold sendQueriesStep, withinBudget. unfold fitsAlone in Ha.
    destruct (MAX_MDNS_MESSAGE_SIZE <? dnsMessageSize l + length (encodeRecord a))%nat eqn:E; simpl.
    + split; [lia|]. rewrite !sentMessages_app. apply Forall_app. split; auto.
      apply Forall_app. split.
      * destruct (answers (dnsMessageDataToSend l)); simpl; constructor.
      * simpl. constructor; [lia|constructor].
    + apply Nat.ltb_ge in E. split; auto.
Qed.

Lemma sendRecordsLoop_withinBudget (ty : DnsMessageType) (emptyLength : nat)
    (xs : list DnsRecord) :
  Forall (fitsAlone emptyLength) xs ->
  forall l, loopInvariant ty emptyLength l -> withinBudget l ->
  withinBudget (fold_left (sendRecordsStep emptyLength) xs l).
Proof.
  induction 1 as [|a xs Ha Hxs IH]; simpl; auto.
  intros l Hinv [Hsize Hsent]. apply IH.
  - now apply sendRecordsStep_invariant.
  - pose proof (loopInvariant_length Hinv) as Hlen.
    unfold sendRecordsStep, withinBudget. unfold fitsAlone in Ha.
    destruct (MAX_MDNS_MESSAGE_SIZE <? dnsMessageSize l + length (encodeRecord a))%nat eqn:E; simpl.
    + split; [lia|]. rewrite !sentMessages_app. apply Forall_app. split; auto.
      simpl. constructor; [lia|constructor].
    + apply Nat.ltb_ge in E. split; auto.
Qed.

(** No answer is lost: the answers of the datagrams sent so far and of
    the message under construction are the encoded answers, in order. *)
Definition answersSoFar (l : SendLoop) : list ByteArray :=
  flat_map answers (sentMessages (emitted l)) ++ answers (dnsMessageDataToSend l).

Lemma sendQueriesLoop_answers (emptyLength : nat) (xs : list DnsRecord) :
  forall l,
    answersSoFar (fold_left (sendQueriesStep emptyLength) xs l)
    = answersSoFar l ++ map encodeRecord xs.
Proof.
  induction xs as [|a xs IH]; intros l; simpl.
  - now rewrite app_nil_r.
  - rewrite IH. unfold answersSoFar, sendQueriesStep.
    destruct (MAX_MDNS_MESSAGE_SIZE <? dnsMessageSize l + length (encodeRecord a))%nat; simpl.
    + rewrite !sentMessages_app, !flat_map_app.
      destruct (answers (dnsMessageDataToSend l)) eqn:E; simpl;
        rewrite ?app_nil_r, <- ?app_assoc; simpl; try rewrite E; reflexivity.
    + now rewrite <- !app_assoc.
Qed.

Lemma sendRecordsLoop_answers (emptyLength : nat) (xs : list DnsRecord) :
  forall l,
    answersSoFar (fold_left (sendRecordsStep emptyLength) xs l)
    = answersSoFar l ++ map encodeRecord xs.
Proof.
  induction xs as [|a xs IH]; intros l; simpl.
  - now rewrite app_nil_r.
  - rewrite IH. unfold answersSoFar, sendRecordsStep.
    destruct (MAX_MDNS_MESSAGE_SIZE <? dnsMessageSize l + length (encodeRecord a))%nat; simpl.
    + rewrite !sentMessages_app, !flat_map_app. simpl.
      rewrite ?app_nil_r, <- ?app_assoc. reflexivity.
    + now rewrite <- !app_assoc.
Qed.

(** The warning of [sendQueries] is logged at most once, for the first
    answer. *)
Lemma sendQueriesStep_answers_nonempty (emptyLength : nat) (l : SendLoop) (a : DnsRecord) :
  answers (dnsMessageDataToSend (sendQueriesStep emptyLength l a)) <> [].
Proof.
  unfold sendQueriesStep.
  destruct (MAX_MDNS_MESSAGE_SIZE <? _)%nat; simpl; try discriminate.
  destruct (answers (dnsMessageDataToSend l)); discriminate.
Qed.

Lemma sendQueriesLoop_no_more_warnings (emptyLength : nat) (xs : list DnsRecord) :
  forall l,
    answers (dnsMessageDataToSend l) <> [] ->
    (In Warned (emitted (fold_left (sendQueriesStep emptyLength) xs l))
     <-> In Warned (emitted l)).
Proof.
  induction xs as [|a xs IH]; intros l Hne; simpl; [tauto|].
  rewrite IH by apply sendQueriesStep_answers_nonempty.
  unfold sendQueriesStep.
  destruct (MAX_MDNS_MESSAGE_SIZE <? _)%nat; simpl; [|tauto].
  destruct (answers (dnsMessageDataToSend l)) eqn:E; [congruence|].
  simpl. rewrite in_app_iff. simpl. split; [intros [H|[H|[]]]|]; auto. discriminate.
Qed.

Definition emptyQuery (qs : list DnsQuery) : DnsMessagePartiallyPreEncoded :=
  {| messageType := TruncatedQuery; transactionId := 0%Z;
     queries := qs; answers := []; additionalRecords := [] |}.

Lemma initial_invariant (m0 : DnsMessagePartiallyPreEncoded) :
  answers m0 = [] -> additionalRecords m0 = [] ->
  loopInvariant (messageType m0) (encodedLength m0)
    {| dnsMessageDataToSend := m0; dnsMessageSize := encodedLength m0; emitted := [] |}.
Proof.
  intros Ha Hadd. unfold loopInvariant, encodedLength.
  cbn [dnsMessageDataToSend dnsMessageSize emitted].
  rewrite Ha, Hadd. unfold sumLengths, sentMessages. cbn [map list_sum flat_map length].
  repeat split; auto; try lia; try constructor.
Qed.

Lemma encodedLength_set_messageType (m : DnsMessagePartiallyPreEncoded) (ty : DnsMessageType) :
  encodedLength (set_messageType m ty) = encodedLength m.
Proof. reflexivity. Qed.

(** The burst of one [sendQueries] cycle. *)
Lemma sendQueriesBurst_spec (qs : list DnsQuery) (ans : list DnsRecord) :
  let burst := sentMessages (sendQueriesBurst qs ans) in
  let emptyLength := encodedLength (emptyQuery qs) in
  (exists init last,
      burst = init ++ [last]
      /\ Forall (fun d => messageType d = TruncatedQuery) init
      /\ messageType last = Query)
  /\ (forall d, In d burst -> (2 <= length (answers d))%nat ->
        (encodedLength d <= MAX_MDNS_MESSAGE_SIZE)%nat)
  /\ ((emptyLength <= MAX_MDNS_MESSAGE_SIZE)%nat ->
      Forall (fitsAlone emptyLength) ans ->
      forall d, In d burst -> (encodedLength d <= MAX_MDNS_MESSAGE_SIZE)%nat)
  /\ flat_map answers burst = map encodeRecord ans
  /\ (In Warned (sendQueriesBurst qs ans)
      <-> exists a rest, ans = a :: rest /\ ~ fitsAlone emptyLength a).
Proof.
  intros burst emptyLength.
  unfold sendQueriesBurst, sendQueriesLoop in burst. fold (emptyQuery qs) in burst.
  fold emptyLength in burst.
  set (l0 := {| dnsMessageDataToSend := emptyQuery qs; dnsMessageSize := emptyLength;
                emitted := [] |}) in *.
  set (l := fold_left (sendQueriesStep emptyLength) ans l0) in *.
  assert (loopInvariant TruncatedQuery emptyLength l0) as Hinv0
    by (apply (initial_invariant (emptyQuery qs)); reflexivity).
  assert (loopInvariant TruncatedQuery emptyLength l) as Hinv
    by (apply fold_left_invariant; auto; intros; now apply sendQueriesStep_invariant).
  pose proof (loopInvariant_length Hinv) as Hlen.
  destruct Hinv as (Hsize & Hq & Hadd & Hty & Htwo & Hsent).
  assert (burst = sentMessages (emitted l)
                  ++ [set_messageType (dnsMessageDataToSend l) Query]) as Hburst
    by (unfold burst; now rewrite sentMessages_app).
  repeat split.
  - exists (sentMessages (emitted l)), (set_messageType (dnsMessageDataToSend l) Query).
    repeat split; auto.
    eapply Forall_impl; [|exact Hsent]. simpl. tauto.
  - intros d Hd Hd2. rewrite Hburst in Hd. apply in_app_iff in Hd. destruct Hd as [Hd|[Hd|[]]].
    + rewrite Forall_forall in Hsent. now apply (Hsent d Hd).
    + subst d. rewrite encodedLength_set_messageType. simpl in Hd2.
      specialize (Htwo Hd2). lia.
  - intros Hempty Hfits d Hd.
    assert (withinBudget l) as [Hb1 Hb2].
    { apply sendQueriesLoop_withinBudget; auto. split; [exact Hempty | constructor]. }
    rewrite Hburst in Hd. apply in_app_iff in Hd. destruct Hd as [Hd|[Hd|[]]].
    + rewrite Forall_forall in Hb2. now apply Hb2.
    + subst d. rewrite encodedLength_set_messageType. lia.
  - rewrite Hburst, flat_map_app. simpl. rewrite app_nil_r.
    change (answersSoFar l = map encodeRecord ans).
    unfold l. now rewrite sendQueriesLoop_answers.
  - unfold sendQueriesBurst, sendQueriesLoop. fold (emptyQuery qs). fold emptyLength.
    fold l0. fold l. rewrite in_app_iff. intros [H|[H|[]]]; [|discriminate].
    unfold l in H. destruct ans as [|a rest]; [destruct H|].
    exists a, rest. split; auto. cbn [fold_left] in H.
    rewrite sendQueriesLoop_no_more_warnings in H by apply sendQueriesStep_answers_nonempty.
    unfold sendQueriesStep, fitsAlone, l0 in *.
    cbn [dnsMessageSize dnsMessageDataToSend emitted] in H.
    destruct (MAX_MDNS_MESSAGE_SIZE <? emptyLength + length (encodeRecord a))%nat eqn:E.
    + apply Nat.ltb_lt in E. lia.
    + destruct H.
  - intros (a & rest & Hans & Hfit).
    unfold sendQueriesBurst, sendQueriesLoop. fold (emptyQuery qs). fold emptyLength.
    fold l0. fold l. rewrite in_app_iff. left.
    unfold l. rewrite Hans. cbn [fold_left].
    rewrite sendQueriesLoop_no_more_warnings by apply sendQueriesStep_answers_nonempty.
    unfold sendQueriesStep, fitsAlone, l0 in *.
    cbn [dnsMessageSize dnsMessageDataToSend emitted].
    destruct (MAX_MDNS_MESSAGE_SIZE <? emptyLength + length (encodeRecord a))%nat eqn:E.
    + cbn. now left.
    + apply Nat.ltb_ge in E. lia.
Qed.

Lemma pushAdditionalRecords_spec (l : list DnsRecord) :
  forall (size : nat) (pushed : list ByteArray),
  exists extra rest,
    pushAdditionalRecords size pushed l = pushed ++ extra
    /\ map encodeRecord l = extra ++ rest
    /\ (extra <> [] -> (size + sumLengths extra <= MAX_MDNS_MESSAGE_SIZE)%nat).
Proof.
  induction l as [|r l IH]; intros size pushed; simpl.
  - exists [], []. rewrite app_nil_r. repeat split; auto. congruence.
  - destruct (MAX_MDNS_MESSAGE_SIZE <? size + length (encodeRecord r))%nat eqn:E.
    + exists [], (encodeRecord r :: map encodeRecord l).
      rewrite app_nil_r. repeat split; auto. congruence.
    + apply Nat.ltb_ge in E.
      destruct (IH (size + length (encodeRecord r))%nat (pushed ++ [encodeRecord r]))
        as (extra & rest & H1 & H2 & H3).
      exists (encodeRecord r :: extra), rest. rewrite H1, H2, <- app_assoc.
      repeat split; auto. intros _.
      destruct extra as [|e extra'].
      * unfold sumLengths. simpl. lia.
      * assert (e :: extra' <> []) as Hne by discriminate.
        specialize (H3 Hne). unfold sumLengths in *. simpl in *. lia.
Qed.

(** The datagrams of one [sendRecords] call of the responder. *)
Lemma sendRecords_spec (ty : DnsMessageType) (tid : Z) (qs : list DnsQuery)
    (ans additional : list DnsRecord) :
  let out := sendRecords ty tid qs ans additional in
  let emptyLength := (12 + list_sum (map encodedQueryLength qs))%nat in
  Forall (fun d => messageType d = ty) out
  /\ (forall d, In d out ->
        (2 <= length (answers d))%nat \/ additionalRecords d <> [] ->
        (encodedLength d <= MAX_MDNS_MESSAGE_SIZE)%nat)
  /\ ((emptyLength <= MAX_MDNS_MESSAGE_SIZE)%nat ->
      Forall (fitsAlone emptyLength) ans ->
      forall d, In d out -> (encodedLength d <= MAX_MDNS_MESSAGE_SIZE)%nat)
  /\ flat_map answers out = map encodeRecord ans
  /\ (exists rest, map encodeRecord additional = flat_map additionalRecords out ++ rest).
Proof.
  intros out emptyLength. unfold sendRecords in out.
  set (m0 := {| messageType := ty; transactionId := tid; queries := qs;
                answers := []; additionalRecords := [] |}) in *.
  assert (encodedLength m0 = emptyLength) as Hempty.
  { unfold encodedLength, emptyLength, m0, sumLengths.
    cbn [queries answers additionalRecords map].
    change (list_sum (@nil nat)) with 0%nat. lia. }
  set (l0 := {| dnsMessageDataToSend := m0; dnsMessageSize := emptyLength;
                emitted := [] |}) in *.
  set (l := fold_left (sendRecordsStep emptyLength) ans l0) in *.
  assert (loopInvariant ty emptyLength l0) as Hinv0.
  { unfold l0. rewrite <- Hempty. apply (initial_invariant m0); reflexivity. }
  assert (loopInvariant ty emptyLength l) as Hinv
    by (apply fold_left_invariant; auto; intros; now apply sendRecordsStep_invariant).
  pose proof (loopInvariant_length Hinv) as Hlen.
  destruct Hinv as (Hsize & Hq & Hadd & Hty & Htwo & Hsent).
  destruct (pushAdditionalRecords_spec additional (dnsMessageSize l) [])
    as (extra & rest & Hpush & Hmap & Hextra).
  simpl in Hpush.
  pose (final := {| messageType := messageType (dnsMessageDataToSend l);
                    transactionId := transactionId (dnsMessageDataToSend l);
                    queries := queries (dnsMessageDataToSend l);
                    answers := answers (dnsMessageDataToSend l);
                    additionalRecords :=
                      pushAdditionalRecords (dnsMessageSize l) [] additional |}).
  assert (out = sentMessages (emitted l) ++ [final]) as Hout.
  { unfold out, sendRecords. fold m0. rewrite Hempty. reflexivity. }
  assert (encodedLength final
          = (encodedLength (dnsMessageDataToSend l) + sumLengths extra)%nat) as Hfinal.
  { unfold encodedLength, final. cbn [queries answers additionalRecords].
    rewrite Hpush, Hadd. change (sumLengths []) with 0%nat. lia. }
  rewrite Forall_forall in Hsent.
  repeat split.
  - rewrite Hout. apply Forall_app. split.
    + apply Forall_forall. intros d Hd. now apply (Hsent d Hd).
    + constructor; [exact Hty | constructor].
  - intros d Hd Hcase. rewrite Hout in Hd. apply in_app_iff in Hd.
    destruct Hd as [Hd|[Hd|[]]].
    + destruct (Hsent d Hd) as (_ & Hnone & Hbound).
      destruct Hcase as [H2|Hne]; [auto | contradiction].
    + subst d. rewrite Hfinal.
      destruct extra as [|e extra'].
      * change (sumLengths []) with 0%nat.
        destruct Hcase as [H2|Hne].
        -- unfold final in H2. cbn [answers] in H2. specialize (Htwo H2). lia.
        -- exfalso. apply Hne. unfold final. cbn [additionalRecords]. now rewrite Hpush.
      * assert (e :: extra' <> []) as Hne' by discriminate.
        specialize (Hextra Hne'). lia.
  - intros Hfit0 Hfits d Hd.
    assert (withinBudget l) as [Hb1 Hb2].
    { apply sendRecordsLoop_withinBudget with (ty := ty); auto.
      split; [exact Hfit0 | constructor]. }
    rewrite Hout in Hd. apply in_app_iff in Hd. destruct Hd as [Hd|[Hd|[]]].
    + rewrite Forall_forall in Hb2. now apply Hb2.
    + subst d. rewrite Hfinal.
      destruct extra as [|e extra'].
      * change (sumLengths []) with 0%nat. lia.
      * assert (e :: extra' <> []) as Hne' by discriminate.
        specialize (Hextra Hne'). lia.
  - rewrite Hout, flat_map_app. simpl. rewrite app_nil_r.
    change (answersSoFar l = map encodeRecord ans).
    unfold l. now rewrite sendRecordsLoop_answers.
  - exists rest. rewrite Hout, flat_map_app.
    assert (flat_map additionalRecords (sentMessages (emitted l)) = []) as Hnil.
    { clear -Hsent. induction (sentMessages (emitted l)) as [|d ds IH]; simpl; auto.
      destruct (Hsent d (or_introl eq_refl)) as (_ & Hd & _). rewrite Hd. simpl.
      apply IH. intros d' Hd'. apply Hsent. now right. }
    rewrite Hnil. simpl. rewrite app_nil_r. unfold final. cbn [additionalRecords].
    now rewrite Hpush.
Qed.

(** ** Known-answer suppression *)

Definition notKnown (knownAnswers : list DnsRecord) (x : DnsRecord) : Prop :=
  forall k, In k knownAnswers -> isDeepEqual x k = false.

Lemma suppressKnownAnswers_spec (knownAnswers : list DnsRecord) :
  forall (ans : list DnsRecord) (x : DnsRecord),
    In x (suppressKnownAnswers ans knownAnswers) ->
    In x ans /\ notKnown knownAnswers x.
Proof.
  induction knownAnswers as [|k ks IH]; intros ans x Hx; simpl in Hx.
  - split; auto. intros k [].
  - destruct (filter _ ans) as [|y ys] eqn:E; [destruct Hx|].
    apply IH in Hx. destruct Hx as [Hin Hks].
    rewrite <- E in Hin. apply filter_In in Hin. destruct Hin as [Hin Hneq].
    split; auto. intros k' [Hk|Hk].
    + subst k'. now apply negb_true_iff in Hneq.
    + now apply Hks.
Qed.

Lemma suppressAdditionalRecords_spec (knownAnswers : list DnsRecord) :
  forall (additional : list DnsRecord) (x : DnsRecord),
    In x (suppressAdditionalRecords additional knownAnswers) ->
    In x additional /\ notKnown knownAnswers x.
Proof.
  unfold suppressAdditionalRecords.
  induction knownAnswers as [|k ks IH]; intros additional x Hx; simpl in Hx.
  - split; auto. intros k [].
  - apply IH in Hx. destruct Hx as [Hin Hks].
    apply filter_In in Hin. destruct Hin as [Hin Hneq].
    split; auto. intros k' [Hk|Hk].
    + subst k'. now apply negb_true_iff in Hneq.
    + now apply Hks.
Qed.

Lemma suppressKnownAnswers_all (knownAnswers ans : list DnsRecord) :
  (forall x, In x ans -> exists k, In k knownAnswers /\ isDeepEqual x k = true) ->
  suppressKnownAnswers ans knownAnswers = [].
Proof.
  intros Hall.
  destruct (suppressKnownAnswers ans knownAnswers) as [|x xs] eqn:E; auto.
  assert (In x (suppressKnownAnswers ans knownAnswers)) as Hx by (rewrite E; now left).
  apply suppressKnownAnswers_spec in Hx. destruct Hx as [Hin Hnot].
  destruct (Hall x Hin) as (k & Hk & Heq). rewrite (Hnot k Hk) in Heq. discriminate.
Qed.

Lemma queryRecords_incl (q : DnsQuery) (records : list DnsRecord) (x : DnsRecord) :
  In x (queryRecords q records) -> In x records.
Proof.
  unfold queryRecords.
  destruct (q_recordType q); intros H; apply filter_In in H; tauto.
Qed.

(** The candidate answers of a record set for the questions of a query. *)
Definition candidateAnswers (qs : list DnsQuery) (portRecords : list DnsRecord)
    : list DnsRecord :=
  flat_map (fun query => queryRecords query portRecords) qs.

Lemma buildResponse_spec (now : Z) (srv srv' : MdnsServer) (netInterface : string)
    (qs : list DnsQuery) (knownAnswers portRecords : list DnsRecord) (r : ResponseData) :
  buildResponse now srv netInterface qs knownAnswers portRecords = Some (r, srv') ->
  server_events srv' = server_events srv
  /\ forall x, In x (rd_answers r ++ rd_additionalRecords r) ->
       In x portRecords /\ notKnown knownAnswers x.
Proof.
  unfold buildResponse. fold (candidateAnswers qs portRecords).
  destruct (candidateAnswers qs portRecords) as [|c cs] eqn:Ec; [discriminate|].
  rewrite <- Ec.
  set (additional0 := if existsb _ qs then filter _ portRecords else []).
  assert (forall x, In x (suppressKnownAnswers (candidateAnswers qs portRecords) knownAnswers) ->
                    In x portRecords /\ notKnown knownAnswers x) as Hans.
  { intros x Hx. apply suppressKnownAnswers_spec in Hx. destruct Hx as [Hin Hnot].
    split; auto. unfold candidateAnswers in Hin. apply in_flat_map in Hin.
    destruct Hin as (q & _ & Hq). eapply queryRecords_incl; eauto. }
  assert (forall x, In x (suppressAdditionalRecords additional0 knownAnswers) ->
                    In x portRecords /\ notKnown knownAnswers x) as Hadd.
  { intros x Hx. apply suppressAdditionalRecords_spec in Hx. destruct Hx as [Hin Hnot].
    split; auto. unfold additional0 in Hin.
    destruct (existsb _ qs); [|destruct Hin].
    apply filter_In in Hin. tauto. }
  destruct (suppressKnownAnswers (candidateAnswers qs portRecords) knownAnswers)
    as [|a1 as1] eqn:E1; [discriminate|].
  rewrite <- E1 in *.
  match goal with
  | |- (if ?u then _ else _) = _ -> _ => destruct u
  end.
  - intros H. inversion H; subst; clear H.
    cbn [rd_answers rd_additionalRecords server_events]. split; auto.
    intros x Hx. apply in_app_iff in Hx. destruct Hx; auto.
  - match goal with
    | |- match ?f with [] => _ | _ :: _ => _ end = _ -> _ => destruct f as [|b bs] eqn:E2
    end; [discriminate|].
    intros H. inversion H; subst; clear H.
    cbn [rd_answers rd_additionalRecords server_events]. split; auto.
    intros x Hx. apply in_app_iff in Hx. destruct Hx as [Hx|Hx]; auto.
    apply Hans. rewrite <- E2 in Hx. apply filter_In in Hx. tauto.
Qed.

Lemma buildResponse_all_known (now : Z) (srv : MdnsServer) (netInterface : string)
    (qs : list DnsQuery) (knownAnswers portRecords : list DnsRecord) :
  (forall x, In x (candidateAnswers qs portRecords) ->
     exists k, In k knownAnswers /\ isDeepEqual x k = true) ->
  buildResponse now srv netInterface qs knownAnswers portRecords = None.
Proof.
  intros Hall. pose proof (suppressKnownAnswers_all _ _ Hall) as Hnil.
  unfold buildResponse. fold (candidateAnswers qs portRecords).
  destruct (candidateAnswers qs portRecords) as [|c cs]; auto.
  now rewrite Hnil.
Qed.

(** A datagram of the responder carries only encodings of records of the
    set [portRecords] that equal no known answer. *)
Definition suppressed (knownAnswers portRecords : list DnsRecord)
    (e : ServerEvent) : Prop :=
  match e with
  | ServerSent d _ _ =>
      forall b, In b (answers d ++ additionalRecords d) ->
        exists x, In x portRecords /\ notKnown knownAnswers x /\ b = encodeRecord x
  end.

Lemma serverHandlePortRecords_spec (now : Z) (message : DnsMessage)
    (remoteIp netInterface : string) (srv : MdnsServer) (portRecords : list DnsRecord) :
  exists new,
    server_events (serverHandlePortRecords now message remoteIp netInterface srv portRecords)
    = server_events srv ++ new
    /\ Forall (suppressed (dm_answers message) portRecords) new.
Proof.
  unfold serverHandlePortRecords.
  destruct (buildResponse now srv netInterface (dm_queries message)
              (dm_answers message) portRecords) as [[r srv']|] eqn:E.
  - apply buildResponse_spec in E. destruct E as [Hev Hr].
    unfold respond. cbn [server_events]. rewrite Hev.
    eexists. split; [reflexivity|].
    apply Forall_forall. intros e He. apply in_map_iff in He.
    destruct He as (d & Hed & Hd). subst e. unfold suppressed.
    destruct (sendRecords_spec Response (dm_transactionId message) []
                (rd_answers r) (rd_additionalRecords r))
      as (_ & _ & _ & Hans & rest & Hadd).
    intros b Hb. apply in_app_iff in Hb.
    assert (In b (map encodeRecord (rd_answers r ++ rd_additionalRecords r))) as Hin.
    { rewrite map_app. apply in_app_iff. destruct Hb as [Hb|Hb].
      - left. rewrite <- Hans. apply in_flat_map. eauto.
      - right. rewrite Hadd. apply in_app_iff. left. apply in_flat_map. eauto. }
    apply in_map_iff in Hin. destruct Hin as (x & Hx & Hxin).
    exists x. destruct (Hr x Hxin). auto.
  - exists []. rewrite app_nil_r. split; auto.
Qed.

Lemma serverHandleDnsMessage_spec (now : string -> Z) (srv : MdnsServer)
    (records : JsMap.t (list DnsRecord)) (message : DnsMessage)
    (remoteIp netInterface : string) :
  exists new,
    server_events (serverHandleDnsMessage now srv records (Some message)
                     remoteIp netInterface)
    = server_events srv ++ new
    /\ Forall (fun e => exists portRecords,
                   In portRecords (JsMap.values records)
                   /\ suppressed (dm_answers message) portRecords e) new.
Proof.
  unfold serverHandleDnsMessage.
  assert (exists new, server_events srv = server_events srv ++ new
                      /\ Forall (fun e => exists portRecords,
                                   In portRecords (JsMap.values records)
                                   /\ suppressed (dm_answers message) portRecords e) new)
    as Hsame by (exists []; rewrite app_nil_r; auto).
  assert (forall (rs : JsMap.t (list DnsRecord)) (acc : MdnsServer),
             incl rs records ->
             exists new,
               server_events
                 (fold_left (fun acc kv =>
                               serverHandlePortRecords (now (fst kv)) message remoteIp
                                 netInterface acc (snd kv)) rs acc)
               = server_events acc ++ new
               /\ Forall (fun e => exists portRecords,
                            In portRecords (JsMap.values records)
                            /\ suppressed (dm_answers message) portRecords e) new) as H.
  { induction rs as [|[k portRecords] rs IH]; intros acc Hincl; simpl.
    - exists []. rewrite app_nil_r. auto.
    - destruct (serverHandlePortRecords_spec (now k) message remoteIp netInterface
                  acc portRecords) as (new1 & Hev1 & Hok1).
      destruct (IH (serverHandlePortRecords (now k) message remoteIp netInterface
                      acc portRecords)) as (new2 & Hev2 & Hok2).
      { intros x Hx. apply Hincl. now right. }
      exists (new1 ++ new2). rewrite Hev2, Hev1, app_assoc. split; auto.
      apply Forall_app. split; auto.
      eapply Forall_impl; [|exact Hok1]. intros e He. exists portRecords. split; auto.
      unfold JsMap.values. apply in_map_iff. exists (k, portRecords). split; auto.
      apply Hincl. now left. }
  destruct (JsMap.size records); auto.
  destruct (dm_messageType message); auto;
    destruct (dm_queries message) as [|q qs']; auto;
    apply H; apply incl_refl.
Qed.

Lemma serverHandlePortRecords_all_known (now : Z) (message : DnsMessage)
    (remoteIp netInterface : string) (srv : MdnsServer) (portRecords : list DnsRecord) :
  (forall x, In x (candidateAnswers (dm_queries message) portRecords) ->
     exists k, In k (dm_answers message) /\ isDeepEqual x k = true) ->
  serverHandlePortRecords now message remoteIp netInterface srv portRecords = srv.
Proof.
  intros Hall. unfold serverHandlePortRecords.
  now rewrite buildResponse_all_known.
Qed.

(** ** What the queries and the waiters leave alone *)

Lemma setQueryRecords_frame (s : MdnsScanner) (queryId : string)
    (qs : list DnsQuery) (ans : list DnsRecord) :
  let s' := setQueryRecords s queryId qs ans in
  operationalDeviceRecords s' = operationalDeviceRecords s
  /\ commissionableDeviceRecords s' = commissionableDeviceRecords s
  /\ recordWaiters s' = recordWaiters s
  /\ closing s' = closing s
  /\ enableIpv4 s' = enableIpv4 s
  /\ events s' = events s.
Proof.
  destruct (setQueryRecords_cases s queryId qs ans) as [H|[ans' H]];
    cbv zeta; rewrite H; repeat split; reflexivity.
Qed.

Lemma finishWaiter_frame (s : MdnsScanner) (queryId : string) (resolve updated : bool) :
  let s' := finishWaiter s queryId resolve updated in
  operationalDeviceRecords s' = operationalDeviceRecords s
  /\ commissionableDeviceRecords s' = commissionableDeviceRecords s
  /\ activeAnnounceQueries s' = activeAnnounceQueries s
  /\ closing s' = closing s
  /\ enableIpv4 s' = enableIpv4 s.
Proof.
  cbv zeta. unfold finishWaiter.
  destruct (JsMap.get queryId (recordWaiters s)) as [w|]; [|repeat split; reflexivity].
  destruct (updated && negb (resolveOnUpdatedRecords w)); [repeat split; reflexivity|].
  destruct resolve; repeat split; reflexivity.
Qed.


(** ** Goodbye records on the operational path *)

Lemma JsMap_has_get (X : Type) (k : string) (m : JsMap.t X) :
  JsMap.has k m = false -> JsMap.get k m = None.
Proof. unfold JsMap.has. destruct (JsMap.get k m); [discriminate | auto]. Qed.

Lemma delete_if_has (X : Type) (k : string) (m : JsMap.t X) :
  JsMap.get k (if JsMap.has k m then JsMap.delete k m else m) = None.
Proof.
  destruct (JsMap.has k m) eqn:E.
  - apply JsMap_get_delete_same.
  - now apply JsMap_has_get.
Qed.




(** ** Goodbye records on the commissionable path *)

















(** ** Commissionable TXT records *)

Local Open Scope string_scope.

(** No item of the TXT record has the key [key] in front of its "=". *)
Definition keyAbsent (key : string) (items : list string) : Prop :=
  forall item, In item items -> nth_error (split "=" item) 0 <> Some key.

Lemma parseTxtItem_D (r : DiscoveryData) (item : string) :
  nth_error (split "=" item) 0 <> Some "D" ->
  D (parseTxtItem r item) = D r.
Proof.
  intros Hkey. unfold parseTxtItem.
  destruct (nth_error (split "=" item) 0) as [key|]; auto.
  destruct (nth_error (split "=" item) 1) as [val|]; auto.
  assert (String.eqb key "D" = false) as E
    by (apply String.eqb_neq; congruence).
  destruct (includes _ key).
  - destruct (parseInt val); auto. unfold setField. cbn [D]. now rewrite E.
  - destruct (includes _ key); auto. unfold setField. cbn [D]. now rewrite E.
Qed.

Lemma parseTxtItem_CM (r : DiscoveryData) (item : string) :
  nth_error (split "=" item) 0 <> Some "CM" ->
  CM (parseTxtItem r item) = CM r.
Proof.
  intros Hkey. unfold parseTxtItem.
  destruct (nth_error (split "=" item) 0) as [key|]; auto.
  destruct (nth_error (split "=" item) 1) as [val|]; auto.
  assert (String.eqb key "CM" = false) as E
    by (apply String.eqb_neq; congruence).
  destruct (includes _ key).
  - destruct (parseInt val); auto. unfold setField. cbn [CM]. now rewrite E.
  - destruct (includes _ key); auto. unfold setField. cbn [CM]. now rewrite E.
Qed.

Lemma parseTxtItems_D_absent (items : list string) :
  keyAbsent "D" items ->
  forall r, D r = None -> D (fold_left parseTxtItem items r) = None.
Proof.
  induction items as [|item items IH]; intros Habs r Hr; simpl; auto.
  apply IH.
  - intros i Hi. apply Habs. now right.
  - rewrite parseTxtItem_D; auto. apply Habs. now left.
Qed.

Lemma parseTxtRecord_D_absent (record : DnsRecord) (items : list string) :
  value record = TxtValue items -> keyAbsent "D" items ->
  D (parseTxtRecord record) = None.
Proof.
  intros Hv Habs. unfold parseTxtRecord. rewrite Hv.
  now apply parseTxtItems_D_absent.
Qed.

Lemma parseTxtItems_CM_absent (items : list string) :
  keyAbsent "CM" items ->
  forall r, CM r = None -> CM (fold_left parseTxtItem items r) = None.
Proof.
  induction items as [|item items IH]; intros Habs r Hr; simpl; auto.
  apply IH.
  - intros i Hi. apply Habs. now right.
  - rewrite parseTxtItem_CM; auto. apply Habs. now left.
Qed.

Lemma parseTxtRecord_CM_absent (record : DnsRecord) (items : list string) :
  value record = TxtValue items -> keyAbsent "CM" items ->
  CM (parseTxtRecord record) = None.
Proof.
  intros Hv Habs. unfold parseTxtRecord. rewrite Hv.
  now apply parseTxtItems_CM_absent.
Qed.

Local Close Scope string_scope.

Lemma commissionableTxtStep_dropped (now : Z) (acc : MdnsScanner * list string)
    (record : DnsRecord) :
  ttl record <> 0%Z ->
  D (parseTxtRecord record) = None \/ CM (parseTxtRecord record) = None ->
  commissionableTxtStep now acc record = acc.
Proof.
  intros Httl Hmiss. destruct acc as [s missing]. unfold commissionableTxtStep.
  destruct (ttl record =? 0)%Z eqn:E; [apply Z.eqb_eq in E; contradiction|].
  unfold parseCommissionableTxtRecord.
  destruct (value record); auto.
  destruct Hmiss as [H|H]; rewrite H; auto.
  destruct (D (parseTxtRecord record)); auto.
Qed.

Lemma commissionableTxtStep_stored (now : Z) (s : MdnsScanner) (missing : list string)
    (record : DnsRecord) (items : list string) (d cm : Z) :
  ttl record <> 0%Z ->
  value record = TxtValue items ->
  D (parseTxtRecord record) = Some d ->
  CM (parseTxtRecord record) = Some cm ->
  exists stored,
    JsMap.get (name record)
      (commissionableDeviceRecords (fst (commissionableTxtStep now (s, missing) record)))
    = Some stored
    /\ SD stored = Some (js_and (js_shr d 8) 15)
    /\ data stored = parseTxtRecord record
    /\ expires stored = (now + ttl record * 1000)%Z
    /\ addresses stored
       = match JsMap.get (name record) (commissionableDeviceRecords s) with
         | Some old => addresses old
         | None => JsMap.empty
         end.
Proof.
  intros Httl Hv HD HCM. unfold commissionableTxtStep.
  destruct (ttl record =? 0)%Z eqn:E; [apply Z.eqb_eq in E; contradiction|].
  unfold parseCommissionableTxtRecord. rewrite Hv, HD, HCM.
  cbn [data SD V P addresses expires].
  rewrite HD.
  destruct (VP (parseTxtRecord record)); cbn [fst with_commissionable commissionableDeviceRecords];
    rewrite JsMap_get_set_same; eexists; (split; [reflexivity|]);
    cbn [SD data expires addresses]; repeat split; auto.
Qed.

Lemma commissionableTxtStep_others (now : Z) (acc : MdnsScanner * list string)
    (record : DnsRecord) (k : string) :
  k <> name record ->
  JsMap.get k (commissionableDeviceRecords (fst (commissionableTxtStep now acc record)))
  = JsMap.get k (commissionableDeviceRecords (fst acc)).
Proof.
  intros Hne. destruct acc as [s missing]. unfold commissionableTxtStep.
  destruct (ttl record =? 0)%Z.
  - destruct (JsMap.has (name record) (commissionableDeviceRecords s)); cbn [fst]; auto.
    simpl. apply JsMap_get_delete_other. congruence.
  - destruct (parseCommissionableTxtRecord now record) as [parsed|]; cbn [fst]; auto.
    destruct (VP (data parsed)); cbn [fst]; simpl; apply JsMap_get_set_other; congruence.
Qed.

(** [(D >> 8) & 0x0f] is bits 8 to 11 of [D], whatever its size. *)
Lemma toInt32_eq (z : Z) : exists k, toInt32 z = (z + k * 2 ^ 32)%Z.
Proof.
  unfold toInt32. exists (- ((z + 2 ^ 31) / 2 ^ 32))%Z.
  rewrite Z.mod_eq by lia. lia.
Qed.

Lemma shortDiscriminator_bits (d : Z) :
  js_and (js_shr d 8) 15 = ((d / 256) mod 16)%Z.
Proof.
  unfold js_and, js_shr.
  change (8 mod 32)%Z with 8%Z.
  assert (toInt32 15 = 15%Z) as H15 by reflexivity. rewrite H15.
  change 15%Z with (Z.ones 4). rewrite Z.land_ones by lia.
  destruct (toInt32_eq (Z.shiftr (toInt32 d) 8)) as [k Hk]. rewrite Hk.
  rewrite Z.shiftr_div_pow2 by lia.
  destruct (toInt32_eq d) as [k' Hk']. rewrite Hk'.
  change (2 ^ 8)%Z with 256%Z. change (2 ^ 4)%Z with 16%Z.
  replace (d + k' * 2 ^ 32)%Z with (d + (k' * 2 ^ 24) * 256)%Z by lia.
  rewrite Z.div_add by lia.
  replace (d / 256 + k' * 2 ^ 24 + k * 2 ^ 32)%Z
    with (d / 256 + (k' * 2 ^ 20 + k * 2 ^ 28) * 16)%Z by lia.
  now rewrite Z.mod_add by lia.
Qed.

(** ** TXT records for a device that is already cached *)

Lemma handleOperationalTxtRecord_refresh (now : Z) (s : MdnsScanner) (record : DnsRecord)
    (device : OperationalDeviceRecordWithExpire) :
  ttl record <> 0%Z ->
  JsMap.get (name record) (operationalDeviceRecords s) = Some device ->
  exists device',
    JsMap.get (name record)
      (operationalDeviceRecords (handleOperationalTxtRecord now s record)) = Some device'
    /\ op_addresses device' = op_addresses device
    /\ op_deviceIdentifier device' = op_deviceIdentifier device
    /\ match value record with
       | TxtValue _ =>
           op_expires device' = (now + ttl record * 1000)%Z
           /\ op_data device' = spreadData (op_data device) (parseTxtRecord record)
       | _ => device' = device
       end.
Proof.
  intros Httl Hget. unfold handleOperationalTxtRecord.
  destruct (ttl record =? 0)%Z eqn:E; [apply Z.eqb_eq in E; contradiction|].
  destruct (value record) as [v|pr we po ta|items];
    [exists device; repeat split; auto | exists device; repeat split; auto |].
  rewrite Hget. cbn [with_operational operationalDeviceRecords].
  rewrite JsMap_get_set_same. eexists. split; [reflexivity|]. repeat split.
Qed.

Lemma handleOperationalTxtRecord_others (now : Z) (s : MdnsScanner) (record : DnsRecord)
    (k : string) :
  k <> name record ->
  JsMap.get k (operationalDeviceRecords (handleOperationalTxtRecord now s record))
  = JsMap.get k (operationalDeviceRecords s).
Proof.
  intros Hne. unfold handleOperationalTxtRecord.
  destruct (ttl record =? 0)%Z.
  - destruct (JsMap.has (name record) (operationalDeviceRecords s)); auto.
    simpl. apply JsMap_get_delete_other. congruence.
  - destruct (value record); auto.
    simpl. apply JsMap_get_set_other. congruence.
Qed.

(** ** The order of the returned addresses *)

(** The priority order of the design: IPv6 "fd" addresses, then IPv6
    link-local addresses, then other IPv6 addresses, then IPv4. *)
Definition addressPriority (e : MatterServerRecordWithExpire) : nat :=
  if isIPv6 (ip e) then
    if startsWith (ip e) "fd" then 0
    else if startsWith (ip e) "fe80:" then 1
    else 2
  else 3.

Lemma fd_not_link_local (a : string) :
  startsWith a "fd" = true -> startsWith a "fe80:" = false.
Proof.
  unfold startsWith. destruct a as [|c1 [|c2 a]]; cbn [prefix]; try discriminate.
  - destruct (ascii_dec "f" c1); discriminate.
  - destruct (ascii_dec "f" c1); [|discriminate].
    destruct (ascii_dec "d" c2); [|discriminate].
    destruct (ascii_dec "e" c2); [|reflexivity]. congruence.
Qed.

(** The comparator is the comparison of the priorities. *)
Lemma compareServerEntries_priority (a b : MatterServerRecordWithExpire) :
  compareServerEntries a b
  = match Nat.compare (addressPriority a) (addressPriority b) with
    | Lt => (-1)%Z
    | Eq => 0%Z
    | Gt => 1%Z
    end.
Proof.
  unfold compareServerEntries, addressPriority.
  destruct (isIPv6 (ip a)), (isIPv6 (ip b)); simpl; try reflexivity;
    try (destruct (startsWith (ip a) "fd"); [|destruct (startsWith (ip a) "fe80:")];
         reflexivity);
    try (destruct (startsWith (ip b) "fd"); [|destruct (startsWith (ip b) "fe80:")];
         reflexivity).
  destruct (startsWith (ip a) "fd") eqn:Ea.
  - rewrite (fd_not_link_local _ Ea).
    destruct (startsWith (ip b) "fd") eqn:Eb.
    + rewrite (fd_not_link_local _ Eb). reflexivity.
    + destruct (startsWith (ip b) "fe80:"); reflexivity.
  - destruct (startsWith (ip b) "fd") eqn:Eb.
    + rewrite (fd_not_link_local _ Eb).
      destruct (startsWith (ip a) "fe80:"); reflexivity.
    + destruct (startsWith (ip a) "fe80:"), (startsWith (ip b) "fe80:"); reflexivity.
Qed.

Section StableSort.
Variable X : Type.
Variable compare : X -> X -> Z.
Variable key : X -> nat.
Hypothesis compare_key :
  forall a b, (compare a b <=? 0)%Z = (key a <=? key b)%nat.

Lemma sortInsert_perm (x : X) (l : list X) :
  Permutation (x :: l) (sortInsert compare x l).
Proof.
  induction l as [|y l IH]; simpl; auto.
  destruct (compare x y <=? 0)%Z; auto.
  eapply perm_trans; [apply perm_swap|]. now apply perm_skip.
Qed.

Lemma jsSort_perm (l : list X) : Permutation l (jsSort compare l).
Proof.
  induction l as [|x l IH]; simpl; auto.
  eapply perm_trans; [|apply sortInsert_perm]. now apply perm_skip.
Qed.

Definition keyLe (a b : X) : Prop := (key a <= key b)%nat.

Lemma sortInsert_sorted (x : X) (l : list X) :
  StronglySorted keyLe l -> StronglySorted keyLe (sortInsert compare x l).
Proof.
  induction 1 as [|y l Hl IH Hy]; simpl.
  - constructor; constructor.
  - rewrite compare_key. destruct (key x <=? key y)%nat eqn:E.
    + apply Nat.leb_le in E. constructor.
      * constructor; assumption.
      * constructor; [exact E|].
        eapply Forall_impl; [|exact Hy]. unfold keyLe. intros z Hz. lia.
    + apply Nat.leb_gt in E. constructor; auto.
      apply Forall_forall. intros z Hz.
      apply (Permutation_in _ (Permutation_sym (sortInsert_perm x l))) in Hz.
      destruct Hz as [->|Hz].
      * unfold keyLe. lia.
      * rewrite Forall_forall in Hy. now apply Hy.
Qed.

Lemma jsSort_sorted (l : list X) : StronglySorted keyLe (jsSort compare l).
Proof.
  induction l as [|x l IH]; simpl.
  - constructor.
  - now apply sortInsert_sorted.
Qed.

Lemma sortInsert_stable (k : nat) (x : X) (l : list X) :
  filter (fun e => (key e =? k)%nat) (sortInsert compare x l)
  = filter (fun e => (key e =? k)%nat) (x :: l).
Proof.
  induction l as [|y l IH]; simpl; auto.
  rewrite compare_key. destruct (key x <=? key y)%nat eqn:E; auto.
  apply Nat.leb_gt in E. simpl in *. rewrite IH.
  destruct (key x =? k)%nat eqn:Ex; auto.
  destruct (key y =? k)%nat eqn:Ey; auto.
  apply Nat.eqb_eq in Ex, Ey. lia.
Qed.

Lemma jsSort_stable (k : nat) (l : list X) :
  filter (fun e => (key e =? k)%nat) (jsSort compare l)
  = filter (fun e => (key e =? k)%nat) l.
Proof.
  induction l as [|x l IH]; simpl; auto.
  rewrite sortInsert_stable. simpl. now rewrite IH.
Qed.
End StableSort.

Lemma compareServerEntries_key (a b : MatterServerRecordWithExpire) :
  (compareServerEntries a b <=? 0)%Z = (addressPriority a <=? addressPriority b)%nat.
Proof.
  rewrite compareServerEntries_priority.
  destruct (Nat.compare_spec (addressPriority a) (addressPriority b)) as [H|H|H];
    symmetry; simpl.
  - apply Nat.leb_le. lia.
  - apply Nat.leb_le. lia.
  - apply Nat.leb_gt. lia.
Qed.

(** ** close *)

Lemma finishWaiter_removes (s : MdnsScanner) (queryId : string) (resolve : bool) :
  JsMap.get queryId (recordWaiters (finishWaiter s queryId resolve false)) = None.
Proof.
  unfold finishWaiter.
  destruct (JsMap.get queryId (recordWaiters s)) as [w|] eqn:E; auto.
  simpl. destruct resolve; simpl; apply JsMap_get_delete_same.
Qed.

Lemma finishWaiter_other (s : MdnsScanner) (k q : string) (resolve : bool) :
  k <> q ->
  JsMap.get q (recordWaiters (finishWaiter s k resolve false))
  = JsMap.get q (recordWaiters s).
Proof.
  intros Hne. unfold finishWaiter.
  destruct (JsMap.get k (recordWaiters s)) as [w|] eqn:E; auto.
  simpl. destruct resolve; simpl; now apply JsMap_get_delete_other.
Qed.

Lemma finishWaiter_events (s : MdnsScanner) (k : string) :
  events (finishWaiter s k (hasTimer s k) false)
  = events s ++ (if hasTimer s k then [Resolved k] else []).
Proof.
  unfold finishWaiter, hasTimer.
  destruct (JsMap.get k (recordWaiters s)) as [w|] eqn:E; simpl.
  - destruct (timer w); simpl; auto. now rewrite app_nil_r.
  - now rewrite app_nil_r.
Qed.

Definition closeLoop (ks : list string) (s : MdnsScanner) : MdnsScanner :=
  fold_left (fun acc queryId => finishWaiter acc queryId (hasTimer acc queryId) false) ks s.

Lemma closeLoop_closing (ks : list string) :
  forall s, closing (closeLoop ks s) = closing s.
Proof.
  induction ks as [|k ks IH]; intros s; simpl; auto.
  unfold closeLoop in *. simpl. rewrite IH.
  now destruct (finishWaiter_frame s k (hasTimer s k) false) as (_ & _ & _ & H & _).
Qed.

Lemma closeLoop_waiters (ks : list string) :
  forall s,
    (forall q, JsMap.get q (recordWaiters s) <> None -> In q ks) ->
    forall q, JsMap.get q (recordWaiters (closeLoop ks s)) = None.
Proof.
  induction ks as [|k ks IH]; intros s Hkeys q.
  - simpl. destruct (JsMap.get q (recordWaiters s)) eqn:E; auto.
    exfalso. apply (Hkeys q). congruence.
  - unfold closeLoop in *. simpl. apply IH. intros q' Hq'.
    destruct (string_dec k q') as [->|Hne].
    + rewrite finishWaiter_removes in Hq'. congruence.
    + rewrite finishWaiter_other in Hq' by assumption.
      destruct (Hkeys q' Hq'); [contradiction|assumption].
Qed.

Lemma hasTimer_finishWaiter (s : MdnsScanner) (k q : string) (resolve : bool) :
  hasTimer (finishWaiter s k resolve false) q
  = if String.eqb k q then false else hasTimer s q.
Proof.
  unfold hasTimer. destruct (String.eqb_spec k q) as [->|Hne].
  - now rewrite finishWaiter_removes.
  - now rewrite finishWaiter_other.
Qed.

Lemma closeLoop_events (ks : list string) (q : string) :
  forall s,
    In (Resolved q) (events (closeLoop ks s))
    <-> In (Resolved q) (events s) \/ (In q ks /\ hasTimer s q = true).
Proof.
  induction ks as [|k ks IH]; intros s.
  - simpl. tauto.
  - unfold closeLoop in *. simpl. rewrite IH, finishWaiter_events, in_app_iff.
    rewrite hasTimer_finishWaiter.
    destruct (String.eqb_spec k q) as [->|Hne].
    + destruct (hasTimer s q); simpl; intuition congruence.
    + destruct (hasTimer s k); simpl; intuition congruence.
Qed.

Lemma JsMap_get_keys (X : Type) (q : string) (m : JsMap.t X) :
  JsMap.get q m <> None -> In q (JsMap.keys m).
Proof.
  induction m as [|[k v] m IH]; simpl; [congruence|].
  destruct (String.eqb_spec k q); auto.
Qed.

Lemma close_closing (s : MdnsScanner) : closing (close s) = true.
Proof. unfold close. fold (closeLoop (JsMap.keys (recordWaiters (stopAll s))) (stopAll s)).
  now rewrite closeLoop_closing. Qed.

Lemma close_waiters (s : MdnsScanner) (q : string) :
  JsMap.get q (recordWaiters (close s)) = None.
Proof.
  unfold close. fold (closeLoop (JsMap.keys (recordWaiters (stopAll s))) (stopAll s)).
  apply closeLoop_waiters. intros q'. apply JsMap_get_keys.
Qed.

Lemma close_resolves (s : MdnsScanner) (q : string) :
  In (Resolved q) (events (close s))
  <-> In (Resolved q) (events s) \/ hasTimer s q = true.
Proof.
  unfold close. fold (closeLoop (JsMap.keys (recordWaiters (stopAll s))) (stopAll s)).
  rewrite closeLoop_events. change (hasTimer (stopAll s) q) with (hasTimer s q).
  change (events (stopAll s)) with (events s).
  change (recordWaiters (stopAll s)) with (recordWaiters s).
  split; [tauto|]. intros [H|H]; auto. right. split; auto.
  apply JsMap_get_keys. unfold hasTimer in H.
  destruct (JsMap.get q (recordWaiters s)); congruence.
Qed.

(* ================================================================== *)
(** * The claims *)

(** Claim C2, as the code has it.  In a burst of [sendQueries] every
    datagram but the last is a TruncatedQuery and the last is a Query; in
    a burst of the responder's [sendRecords] every datagram has the
    message type it was called with.  A datagram with two answers or more
    (or, for the responder, with additional records) is at most 1500
    bytes, and so is every datagram when the message without answers and
    each answer alone fit together.  No answer is dropped: one that does
    not fit is sent all the same, and [sendQueries] logs a warning exactly
    when that is the first answer. *)
Theorem send_loops_budget (qs : list DnsQuery) (ans additional : list DnsRecord)
    (ty : DnsMessageType) (tid : Z) :
  (let burst := sentMessages (sendQueriesBurst qs ans) in
   let emptyLength := encodedLength (emptyQuery qs) in
   (exists init last,
       burst = init ++ [last]
       /\ Forall (fun d => messageType d = TruncatedQuery) init
       /\ messageType last = Query)
   /\ (forall d, In d burst -> (2 <= length (answers d))%nat ->
         (encodedLength d <= MAX_MDNS_MESSAGE_SIZE)%nat)
   /\ ((emptyLength <= MAX_MDNS_MESSAGE_SIZE)%nat ->
       Forall (fitsAlone emptyLength) ans ->
       forall d, In d burst -> (encodedLength d <= MAX_MDNS_MESSAGE_SIZE)%nat)
   /\ flat_map answers burst = map encodeRecord ans
   /\ (In Warned (sendQueriesBurst qs ans)
       <-> exists a rest, ans = a :: rest /\ ~ fitsAlone emptyLength a))
  /\
  (let out := sendRecords ty tid qs ans additional in
   let emptyLength := (12 + list_sum (map encodedQueryLength qs))%nat in
   Forall (fun d => messageType d = ty) out
   /\ (forall d, In d out ->
         (2 <= length (answers d))%nat \/ additionalRecords d <> [] ->
         (encodedLength d <= MAX_MDNS_MESSAGE_SIZE)%nat)
   /\ ((emptyLength <= MAX_MDNS_MESSAGE_SIZE)%nat ->
       Forall (fitsAlone emptyLength) ans ->
       forall d, In d out -> (encodedLength d <= MAX_MDNS_MESSAGE_SIZE)%nat)
   /\ flat_map answers out = map encodeRecord ans
   /\ (exists rest,
          map encodeRecord additional = flat_map additionalRecords out ++ rest)).
Proof.
  split.
  - apply sendQueriesBurst_spec.
  - apply sendRecords_spec.
Qed.



(** Claim C5.  A commissionable TXT record (with [ttl <> 0]) in which no
    item has the key D, or none has the key CM, leaves the cache as it
    is; a record that is stored has SD equal to [(D >> 8) & 0x0f], bits 8
    to 11 of D (the TXT items never set SD). *)
Theorem commissionable_txt_requirements (now : Z) (s : MdnsScanner)
    (missing : list string) (record : DnsRecord) (items : list string) :
  value record = TxtValue items ->
  ttl record <> 0%Z ->
  (keyAbsent "D" items \/ keyAbsent "CM" items ->
   commissionableTxtStep now (s, missing) record = (s, missing))
  /\ (forall d,
        D (parseTxtRecord record) = Some d ->
        CM (parseTxtRecord record) <> None ->
        exists stored,
          JsMap.get (name record)
            (commissionableDeviceRecords
               (fst (commissionableTxtStep now (s, missing) record))) = Some stored
          /\ D (data stored) = Some d
          /\ SD stored = Some (js_and (js_shr d 8) 15)
          /\ js_and (js_shr d 8) 15 = ((d / 256) mod 16)%Z).
Proof.
  intros Hv Httl. split.
  - intros Habs. apply commissionableTxtStep_dropped; auto.
    destruct Habs as [H|H].
    + left. eapply parseTxtRecord_D_absent; eauto.
    + right. eapply parseTxtRecord_CM_absent; eauto.
  - intros d HD HCM.
    destruct (CM (parseTxtRecord record)) as [cm|] eqn:ECM; [|congruence].
    destruct (commissionableTxtStep_stored now s missing record Httl Hv HD ECM)
      as (stored & Hget & HSD & Hdata & _).
    exists stored. repeat split; auto.
    + now rewrite Hdata.
    + apply shortDiscriminator_bits.
Qed.

(** Claim C6, at the failing input.  After [close] the scanner is
    closing, no waiter is left, and exactly the waiters that had a timer
    were resolved; [findOperationalDevice] then throws an
    ImplementationError, but [findCommissionableDevices] and
    [findCommissionableDevicesContinuously] do not throw: they return or
    suspend as on an open scanner. *)
Theorem discovery_after_close (s : MdnsScanner) (deviceMatterQname : string)
    (timeoutSeconds : option Q) (ignoreExistingRecords : bool)
    (identifier : CommissionableDeviceIdentifiers) (timeout : Q) (remainingTime : Z) :
  closing (close s) = true
  /\ (forall q, JsMap.get q (recordWaiters (close s)) = None)
  /\ (forall q, In (Resolved q) (events (close s))
                <-> In (Resolved q) (events s) \/ hasTimer s q = true)
  /\ findOperationalDevice (close s) deviceMatterQname timeoutSeconds ignoreExistingRecords
     = Threw (close s)
         (ImplementationError
            "Cannot discover operational device because scanner is closing.")
  /\ (exists s' r,
         findCommissionableDevices (close s) identifier timeout ignoreExistingRecords
         = Done s' r)
  /\ (exists s' r,
         findCommissionableDevicesContinuously (close s) identifier remainingTime
         = Done s' r).
Proof.
  repeat split.
  - apply close_closing.
  - apply close_waiters.
  - apply close_resolves.
  - apply close_resolves.
  - unfold findOperationalDevice. now rewrite close_closing.
  - unfold findCommissionableDevices.
    destruct (if ignoreExistingRecords then [] else _); eauto.
  - unfold findCommissionableDevicesContinuously.
    destruct (remainingTime <=? 0)%Z; eauto.
Qed.

(** Claim C7.  Every datagram the responder sends for a query carries,
    as answers and as additional records, only encodings of records it
    owns that equal none of the query's known answers; and a record set
    whose candidate answers all equal a known answer sends nothing and
    leaves the responder as it is. *)
Theorem known_answer_suppression (now : string -> Z) (srv : MdnsServer)
    (records : JsMap.t (list DnsRecord)) (message : DnsMessage)
    (remoteIp netInterface : string) :
  (exists new,
      server_events (serverHandleDnsMessage now srv records (Some message)
                       remoteIp netInterface)
      = server_events srv ++ new
      /\ Forall (fun e => exists portRecords,
                     In portRecords (JsMap.values records)
                     /\ suppressed (dm_answers message) portRecords e) new)
  /\ (forall key portRecords,
        (forall x, In x (candidateAnswers (dm_queries message) portRecords) ->
           exists k, In k (dm_answers message) /\ isDeepEqual x k = true) ->
        serverHandlePortRecords (now key) message remoteIp netInterface srv portRecords
        = srv).
Proof.
  split.
  - apply serverHandleDnsMessage_spec.
  - intros key portRecords H. now apply serverHandlePortRecords_all_known.
Qed.

(** Claim C9.  The comparator of [sortServerEntries] compares the
    priorities (IPv6 "fd", IPv6 link-local, other IPv6, IPv4); the sorted
    list is a permutation of the entries, in the order of the priorities,
    and the entries of one priority keep their order.  The addresses
    returned to a caller are the sorted values of the entry's address
    map. *)
Theorem returned_addresses_sorted (entries : list MatterServerRecordWithExpire) :
  Permutation entries (sortServerEntries entries)
  /\ StronglySorted (fun a b => (addressPriority a <= addressPriority b)%nat)
       (sortServerEntries entries)
  /\ (forall p,
        filter (fun e => (addressPriority e =? p)%nat) (sortServerEntries entries)
        = filter (fun e => (addressPriority e =? p)%nat) entries)
  /\ (forall s deviceMatterQname,
        match getOperationalDeviceRecords s deviceMatterQname with
        | Some d =>
            exists device,
              JsMap.get deviceMatterQname (operationalDeviceRecords s) = Some device
              /\ od_addresses d
                 = map toServerAddressIp
                     (sortServerEntries (JsMap.values (op_addresses device)))
        | None => True
        end)
  /\ (forall s identifier d,
        In d (getCommissionableDeviceRecords s identifier) ->
        cd_addresses d
        = map toServerAddressIp
            (sortServerEntries (JsMap.values (addresses (cd_record d))))).
Proof.
  repeat split.
  - apply jsSort_perm.
  - apply (jsSort_sorted compareServerEntries addressPriority compareServerEntries_key).
  - intros p. apply (jsSort_stable compareServerEntries addressPriority
                       compareServerEntries_key).
  - intros s q. unfold getOperationalDeviceRecords.
    destruct (JsMap.get q (operationalDeviceRecords s)) as [device|]; auto.
    destruct (JsMap.size (op_addresses device)); auto.
    exists device. split; reflexivity.
  - intros s identifier d Hd. unfold getCommissionableDeviceRecords in Hd.
    apply in_map_iff in Hd. destruct Hd as (r & Hr & _). now subst d.
Qed.

(** Claim C10.  A TXT record with [ttl <> 0] for a device that is in the
    cache leaves the entry's address map as it is: on the operational
    path the entry keeps its identifier and addresses and gets the new
    expiry and the TXT data spread over the old; on the commissionable
    path the stored record is replaced by the parsed one with the old
    address map (or kept, when the TXT record is dropped).  The other
    entries are not touched. *)
Theorem txt_refresh_keeps_addresses (now : Z) (s : MdnsScanner) (record : DnsRecord) :
  ttl record <> 0%Z ->
  (forall device,
      JsMap.get (name record) (operationalDeviceRecords s) = Some device ->
      exists device',
        JsMap.get (name record)
          (operationalDeviceRecords (handleOperationalTxtRecord now s record))
        = Some device'
        /\ op_addresses device' = op_addresses device
        /\ op_deviceIdentifier device' = op_deviceIdentifier device
        /\ match value record with
           | TxtValue _ =>
               op_expires device' = (now + ttl record * 1000)%Z
               /\ op_data device' = spreadData (op_data device) (parseTxtRecord record)
           | _ => device' = device
           end)
  /\ (forall k, k <> name record ->
        JsMap.get k (operationalDeviceRecords (handleOperationalTxtRecord now s record))
        = JsMap.get k (operationalDeviceRecords s))
  /\ (forall missing stored,
        JsMap.get (name record) (commissionableDeviceRecords s) = Some stored ->
        exists stored',
          JsMap.get (name record)
            (commissionableDeviceRecords
               (fst (commissionableTxtStep now (s, missing) record))) = Some stored'
          /\ addresses stored' = addresses stored)
  /\ (forall missing k, k <> name record ->
        JsMap.get k (commissionableDeviceRecords
                       (fst (commissionableTxtStep now (s, missing) record)))
        = JsMap.get k (commissionableDeviceRecords s)).
Proof.
  intros Httl. repeat split.
  - intros device Hget. now apply handleOperationalTxtRecord_refresh.
  - intros k Hne. now apply handleOperationalTxtRecord_others.
  - intros missing stored Hget. unfold commissionableTxtStep.
    destruct (ttl record =? 0)%Z eqn:E; [apply Z.eqb_eq in E; contradiction|].
    destruct (parseCommissionableTxtRecord now record) as [parsed|].
    + rewrite Hget.
      destruct (VP (data parsed)); cbn [fst with_commissionable commissionableDeviceRecords];
        rewrite JsMap_get_set_same; eexists; split; reflexivity.
    + exists stored. auto.
  - intros missing k Hne.
    now rewrite commissionableTxtStep_others.
Qed.

(* ================================================================== *)
(** * Further properties of the scanner *)

(** A lemma of this part is stated over the functions it names and no
    others: its proof first drops the variables of the section that the
    statement does not mention. *)
Ltac statement_only :=
  try clear encodeRecord; try clear encodedQueryLength; try clear isIPv6;
  try clear getDeviceInstanceQname; try clear getLongDiscriminatorQname;
  try clear getShortDiscriminatorQname; try clear getVendorQname;
  try clear getDeviceTypeQname; try clear getCommissioningModeQname;
  try clear productQueryId; try clear VendorId; try clear parseInt;
  try clear isDeepEqual; try clear buildDnsRecordKey.

(** ** Maps as association lists

    A JavaScript [Map] holds a key once.  The lists that stand for the
    maps of a scanner keep this through [JsMap.set] and [JsMap.delete]. *)

Lemma JsMap_keys_set (X : Type) (k : string) (v : X) (m : JsMap.t X) :
  JsMap.keys (JsMap.set k v m)
  = if JsMap.has k m then JsMap.keys m else JsMap.keys m ++ [k].
Proof using Type.
  unfold JsMap.has. induction m as [|[k' v'] m IH]; simpl; auto.
  destruct (String.eqb_spec k' k) as [->|Hne]; simpl; auto.
  rewrite IH. now destruct (JsMap.get k m).
Qed.

Lemma JsMap_get_notin (X : Type) (k : string) (m : JsMap.t X) :
  ~ In k (JsMap.keys m) -> JsMap.get k m = None.
Proof using Type.
  intros H. destruct (JsMap.get k m) eqn:E; auto.
  exfalso. apply H. apply JsMap_get_keys. congruence.
Qed.

Lemma JsMap_keys_get (X : Type) (k : string) (m : JsMap.t X) :
  In k (JsMap.keys m) -> JsMap.get k m <> None.
Proof using Type. statement_only.
  induction m as [|[k' v'] m IH]; simpl; [tauto|].
  destruct (String.eqb_spec k' k); [discriminate|]. intros [H|H]; [contradiction|auto].
Qed.

Lemma JsMap_set_NoDup (X : Type) (k : string) (v : X) (m : JsMap.t X) :
  NoDup (JsMap.keys m) -> NoDup (JsMap.keys (JsMap.set k v m)).
Proof using Type.
  intros H. rewrite JsMap_keys_set. unfold JsMap.has.
  destruct (JsMap.get k m) eqn:E; auto.
  apply NoDup_app; auto.
  - constructor; [intros []|constructor].
  - intros x Hx [<-|[]]. apply JsMap_keys_get in Hx. contradiction.
Qed.

Lemma JsMap_delete_In (X : Type) (k : string) (m : JsMap.t X) (x : string * X) :
  In x (JsMap.delete k m) <-> In x m /\ fst x <> k.
Proof using Type. statement_only.
  unfold JsMap.delete. rewrite filter_In.
  destruct (String.eqb_spec (fst x) k); simpl; intuition congruence.
Qed.

Lemma JsMap_delete_NoDup (X : Type) (k : string) (m : JsMap.t X) :
  NoDup (JsMap.keys m) -> NoDup (JsMap.keys (JsMap.delete k m)).
Proof using Type. statement_only.
  unfold JsMap.keys, JsMap.delete. induction m as [|[k' v'] m IH]; simpl; auto.
  intros H. inversion H as [|? ? Hnotin Hrest]; subst.
  destruct (String.eqb_spec k' k); simpl; auto.
  constructor; auto. intros Hin. apply Hnotin.
  apply in_map_iff in Hin. destruct Hin as (x & Hx & Hin).
  apply filter_In in Hin. apply in_map_iff. exists x. tauto.
Qed.

Lemma JsMap_delete_notin (X : Type) (k : string) (m : JsMap.t X) :
  ~ In k (JsMap.keys m) -> JsMap.delete k m = m.
Proof using Type.
  unfold JsMap.delete, JsMap.keys. induction m as [|[k' v'] m IH]; simpl; auto.
  intros H. destruct (String.eqb_spec k' k) as [->|Hne]; simpl.
  - exfalso. auto.
  - f_equal. auto.
Qed.

Lemma JsMap_delete_middle (X : Type) (k : string) (v : X) (m1 m2 : JsMap.t X) :
  ~ In k (JsMap.keys m1) -> ~ In k (JsMap.keys m2) ->
  JsMap.delete k (m1 ++ (k, v) :: m2) = m1 ++ m2.
Proof using Type.
  intros H1 H2. unfold JsMap.delete. rewrite filter_app. simpl.
  rewrite String.eqb_refl. simpl.
  fold (JsMap.delete k m1). fold (JsMap.delete k m2).
  now rewrite !JsMap_delete_notin.
Qed.

Lemma JsMap_set_middle (X : Type) (k : string) (v v' : X) (m1 m2 : JsMap.t X) :
  ~ In k (JsMap.keys m1) ->
  JsMap.set k v (m1 ++ (k, v') :: m2) = m1 ++ (k, v) :: m2.
Proof using Type.
  unfold JsMap.keys. induction m1 as [|[k1 v1] m1 IH]; simpl; intros H.
  - now rewrite String.eqb_refl.
  - destruct (String.eqb_spec k1 k) as [->|Hne]; [exfalso; auto|].
    f_equal. auto.
Qed.

Lemma NoDup_keys_In (X : Type) (m : JsMap.t X) (k : string) (v v' : X) :
  NoDup (JsMap.keys m) -> In (k, v) m -> In (k, v') m -> v = v'.
Proof using Type.
  unfold JsMap.keys. induction m as [|[k1 v1] m IH]; simpl; [intros _ []|].
  intros H. inversion H as [|? ? Hnotin Hrest]; subst.
  intros [H1|H1] [H2|H2]; auto.
  - congruence.
  - exfalso. apply Hnotin. inversion H1; subst.
    apply in_map_iff. exists (k, v'). auto.
  - exfalso. apply Hnotin. inversion H2; subst.
    apply in_map_iff. exists (k, v). auto.
Qed.

Lemma NoDup_keys_get (X : Type) (m : JsMap.t X) (k : string) (v : X) :
  NoDup (JsMap.keys m) -> In (k, v) m -> JsMap.get k m = Some v.
Proof using Type. statement_only.
  unfold JsMap.keys. induction m as [|[k1 v1] m IH]; simpl; [tauto|].
  intros H. inversion H as [|? ? Hnotin Hrest]; subst.
  intros [H1|H1].
  - inversion H1; subst. now rewrite String.eqb_refl.
  - destruct (String.eqb_spec k1 k) as [->|Hne]; auto.
    exfalso. apply Hnotin. apply in_map_iff. exists (k, v). auto.
Qed.

Lemma JsMap_get_In (X : Type) (m : JsMap.t X) (k : string) (v : X) :
  JsMap.get k m = Some v -> In (k, v) m.
Proof using Type.
  induction m as [|[k1 v1] m IH]; simpl; [discriminate|].
  destruct (String.eqb_spec k1 k) as [->|Hne]; auto.
  intros H. inversion H. auto.
Qed.

Lemma filter_filter (X : Type) (p q : X -> bool) (l : list X) :
  filter p (filter q l) = filter (fun x => q x && p x) l.
Proof using Type.
  induction l as [|x l IH]; simpl; auto.
  destruct (q x); simpl; [destruct (p x)|]; now rewrite IH.
Qed.

Lemma filter_all (X : Type) (p : X -> bool) (l : list X) :
  (forall x, In x l -> p x = true) -> filter p l = l.
Proof using Type.
  induction l as [|x l IH]; simpl; auto. intros H.
  rewrite (H x) by auto. f_equal. auto.
Qed.

Lemma NoDup_keys_filter (X : Type) (p : string * X -> bool) (m : JsMap.t X) :
  NoDup (JsMap.keys m) -> NoDup (JsMap.keys (filter p m)).
Proof using Type. statement_only.
  unfold JsMap.keys. induction m as [|x m IH]; simpl; auto.
  intros H. inversion H as [|? ? Hnotin Hrest]; subst.
  destruct (p x); simpl; auto. constructor; auto.
  intros Hin. apply Hnotin. apply in_map_iff in Hin. destruct Hin as (y & Hy & Hin).
  apply filter_In in Hin. apply in_map_iff. exists y. tauto.
Qed.

(** ** expire *)

(** An address that has not expired at [now]. *)
Definition unexpired (now : Z) (kv : string * MatterServerRecordWithExpire) : bool :=
  (now <? addr_expires (snd kv))%Z.

Lemma expireAddresses_fold (now : Z) (l : JsMap.t MatterServerRecordWithExpire) :
  forall acc,
    fold_left (fun acc kv =>
                 if (now <? addr_expires (snd kv))%Z then acc
                 else JsMap.delete (fst kv) acc) l acc
    = filter (fun x : string * MatterServerRecordWithExpire =>
                negb (existsb (fun kv => negb (unexpired now kv)
                                         && String.eqb (fst x) (fst kv)) l)) acc.
Proof using Type.
  induction l as [|kv l IH]; intros acc; simpl.
  - symmetry. now apply filter_all.
  - unfold unexpired at 1. destruct (now <? addr_expires (snd kv))%Z; simpl; rewrite IH.
    + reflexivity.
    + unfold JsMap.delete. rewrite filter_filter. apply filter_ext.
      intros x. now rewrite negb_orb.
Qed.

Lemma expireAddresses_unexpired (now : Z) (a : JsMap.t MatterServerRecordWithExpire)
    (x : string * MatterServerRecordWithExpire) :
  In x (expireAddresses now a) -> In x a /\ unexpired now x = true.
Proof using Type.
  unfold expireAddresses. rewrite expireAddresses_fold, filter_In.
  intros [Hin H]. split; auto.
  destruct (unexpired now x) eqn:E; auto.
  apply negb_true_iff in H. rewrite <- H. apply existsb_exists.
  exists x. now rewrite E, String.eqb_refl.
Qed.

Lemma expireAddresses_filter (now : Z) (a : JsMap.t MatterServerRecordWithExpire) :
  NoDup (JsMap.keys a) ->
  expireAddresses now a = filter (unexpired now) a.
Proof using Type.
  intros Hnodup. unfold expireAddresses. rewrite expireAddresses_fold.
  apply filter_ext_in. intros x Hx.
  destruct (unexpired now x) eqn:E.
  - apply negb_true_iff. apply not_true_is_false. intros H.
    apply existsb_exists in H. destruct H as (kv & Hkv & H).
    apply andb_true_iff in H. destruct H as [Hdead Heq].
    apply String.eqb_eq in Heq. destruct x as [k v], kv as [k' v']. simpl in Heq. subst k'.
    rewrite (@NoDup_keys_In _ a k v v' Hnodup Hx Hkv) in E. rewrite E in Hdead. discriminate.
  - apply negb_false_iff. apply existsb_exists. exists x.
    now rewrite E, String.eqb_refl.
Qed.

Section ExpireLoopFacts.
Variable X : Type.
Variable addressesOf : X -> JsMap.t MatterServerRecordWithExpire.
Variable expiresOf : X -> Z.
Variable withAddresses : X -> JsMap.t MatterServerRecordWithExpire -> X.
Hypothesis addressesOf_with : forall x a, addressesOf (withAddresses x a) = a.
Hypothesis expiresOf_with : forall x a, expiresOf (withAddresses x a) = expiresOf x.
Hypothesis with_with : forall x a b, withAddresses (withAddresses x a) b = withAddresses x b.

(** A record [expire] keeps: it has not expired and neither have all of
    its addresses; it is kept with the addresses that have not. *)
Definition stillValid (now : Z) (kv : string * X) : bool :=
  (now <? expiresOf (snd kv))%Z && existsb (unexpired now) (addressesOf (snd kv)).

Definition pruned (now : Z) (kv : string * X) : string * X :=
  (fst kv, withAddresses (snd kv) (filter (unexpired now) (addressesOf (snd kv)))).

Definition addressesWellFormed (records : JsMap.t X) : Prop :=
  Forall (fun kv => NoDup (JsMap.keys (addressesOf (snd kv)))) records.

Lemma size_filter_zero (Y : Type) (p : Y -> bool) (l : list Y) :
  (length (filter p l) =? 0)%nat = negb (existsb p l).
Proof using Type.
  induction l as [|y l IH]; simpl; auto. destruct (p y); simpl; auto.
Qed.

Lemma expireStep_spec (now : Z) (records : JsMap.t X) (kv : string * X) :
  NoDup (JsMap.keys (addressesOf (snd kv))) ->
  expireStep addressesOf expiresOf withAddresses now records kv
  = if stillValid now kv
    then JsMap.set (fst kv) (snd (pruned now kv)) records
    else JsMap.delete (fst kv) records.
Proof using Type.
  intros Hnodup. destruct kv as [k x]. unfold expireStep, stillValid, pruned. simpl in *.
  destruct (now <? expiresOf x)%Z eqn:E.
  - assert ((expiresOf x <=? now)%Z = false) as -> by (apply Z.leb_gt; now apply Z.ltb_lt).
    rewrite expireAddresses_filter by assumption. unfold JsMap.size.
    rewrite size_filter_zero. simpl. now destruct (existsb _ _).
  - assert ((expiresOf x <=? now)%Z = true) as -> by (apply Z.leb_le; now apply Z.ltb_ge).
    reflexivity.
Qed.

Lemma expireLoop_fold (now : Z) (l : JsMap.t X) :
  forall pre,
    NoDup (JsMap.keys (pre ++ l)) ->
    addressesWellFormed l ->
    fold_left (expireStep addressesOf expiresOf withAddresses now) l (pre ++ l)
    = pre ++ map (pruned now) (filter (stillValid now) l).
Proof using Type. statement_only.
  induction l as [|[k x] l IH]; intros pre Hnodup Hwf; cbn [fold_left filter];
    [reflexivity|].
  inversion Hwf as [|? ? Hx Hl]; subst.
  unfold JsMap.keys in Hnodup. rewrite map_app in Hnodup. simpl in Hnodup.
  pose proof (NoDup_remove_2 _ _ _ Hnodup) as Hnotin.
  pose proof (NoDup_remove_1 _ _ _ Hnodup) as Hrest.
  rewrite in_app_iff in Hnotin.
  rewrite expireStep_spec by assumption.
  destruct (stillValid now (k, x)) eqn:E; cbn [map fst snd].
  - rewrite JsMap_set_middle by tauto.
    change (pre ++ (k, snd (pruned now (k, x))) :: l)
      with (pre ++ [pruned now (k, x)] ++ l).
    rewrite app_assoc, IH; auto.
    + now rewrite <- app_assoc.
    + unfold JsMap.keys. rewrite !map_app. simpl. rewrite <- app_assoc. exact Hnodup.
  - rewrite JsMap_delete_middle by tauto.
    apply IH; auto. unfold JsMap.keys. now rewrite map_app.
Qed.

(** On a map, the loop keeps the records that are still valid, in their
    order, each with its unexpired addresses. *)
Lemma expireLoop_spec (now : Z) (records : JsMap.t X) :
  NoDup (JsMap.keys records) ->
  addressesWellFormed records ->
  expireLoop addressesOf expiresOf withAddresses now records
  = map (pruned now) (filter (stillValid now) records).
Proof using Type.
  intros Hnodup Hwf. unfold expireLoop.
  exact (@expireLoop_fold now records [] Hnodup Hwf).
Qed.

Lemma unexpired_mono (t1 t2 : Z) (kv : string * MatterServerRecordWithExpire) :
  (t1 <= t2)%Z -> unexpired t2 kv = true -> unexpired t1 kv = true.
Proof using Type. unfold unexpired. intros H H2. apply Z.ltb_lt in H2. apply Z.ltb_lt. lia. Qed.

Lemma existsb_filter_mono (t1 t2 : Z) (a : JsMap.t MatterServerRecordWithExpire) :
  (t1 <= t2)%Z ->
  existsb (unexpired t2) (filter (unexpired t1) a) = existsb (unexpired t2) a.
Proof using Type.
  intros H. induction a as [|kv a IH]; simpl; auto.
  destruct (unexpired t1 kv) eqn:E1; simpl; rewrite IH; auto.
  destruct (unexpired t2 kv) eqn:E2; auto.
  rewrite (@unexpired_mono t1 t2 kv H E2) in E1. discriminate.
Qed.

Lemma filter_filter_mono (t1 t2 : Z) (a : JsMap.t MatterServerRecordWithExpire) :
  (t1 <= t2)%Z ->
  filter (unexpired t2) (filter (unexpired t1) a) = filter (unexpired t2) a.
Proof using Type.
  intros H. rewrite filter_filter. apply filter_ext. intros kv.
  destruct (unexpired t2 kv) eqn:E2.
  - now rewrite (@unexpired_mono t1 t2 kv H E2).
  - now rewrite andb_false_r.
Qed.

Lemma stillValid_mono (t1 t2 : Z) (kv : string * X) :
  (t1 <= t2)%Z -> stillValid t2 kv = true -> stillValid t1 kv = true.
Proof using Type.
  unfold stillValid. intros H H2. apply andb_true_iff in H2. destruct H2 as [He Ha].
  apply andb_true_iff. split.
  - apply Z.ltb_lt in He. apply Z.ltb_lt. lia.
  - apply existsb_exists in Ha. destruct Ha as (a & Hin & Ha).
    apply existsb_exists. exists a. split; auto. eapply unexpired_mono; eauto.
Qed.

Lemma stillValid_pruned (t1 t2 : Z) (kv : string * X) :
  (t1 <= t2)%Z -> stillValid t2 (pruned t1 kv) = stillValid t2 kv.
Proof using Type expiresOf_with addressesOf_with.
  intros H. unfold stillValid, pruned. simpl.
  now rewrite expiresOf_with, addressesOf_with, existsb_filter_mono.
Qed.

Lemma pruned_pruned (t1 t2 : Z) (kv : string * X) :
  (t1 <= t2)%Z -> pruned t2 (pruned t1 kv) = pruned t2 kv.
Proof using Type with_with addressesOf_with.
  intros H. unfold pruned. simpl.
  now rewrite addressesOf_with, with_with, filter_filter_mono.
Qed.

Lemma expire_spec_twice (t1 t2 : Z) (records : JsMap.t X) :
  (t1 <= t2)%Z ->
  map (pruned t2) (filter (stillValid t2) (map (pruned t1) (filter (stillValid t1) records)))
  = map (pruned t2) (filter (stillValid t2) records).
Proof using Type with_with expiresOf_with addressesOf_with.
  intros H. induction records as [|kv records IH]; simpl; auto.
  destruct (stillValid t1 kv) eqn:E1; simpl.
  - rewrite stillValid_pruned by assumption.
    destruct (stillValid t2 kv); simpl; rewrite IH; auto.
    now rewrite pruned_pruned.
  - destruct (stillValid t2 kv) eqn:E2; auto.
    rewrite (@stillValid_mono t1 t2 kv H E2) in E1. discriminate.
Qed.

Lemma spec_wellFormed (now : Z) (records : JsMap.t X) :
  NoDup (JsMap.keys records) ->
  addressesWellFormed records ->
  NoDup (JsMap.keys (map (pruned now) (filter (stillValid now) records)))
  /\ addressesWellFormed (map (pruned now) (filter (stillValid now) records)).
Proof using Type addressesOf_with. statement_only.
  intros Hnodup Hwf. split.
  - unfold JsMap.keys. rewrite map_map. simpl.
    now apply (NoDup_keys_filter (stillValid now)) in Hnodup.
  - unfold addressesWellFormed in *. rewrite Forall_forall in *.
    intros y Hy. apply in_map_iff in Hy. destruct Hy as (kv & <- & Hkv).
    apply filter_In in Hkv. simpl. rewrite addressesOf_with.
    apply NoDup_keys_filter. apply (Hwf kv). tauto.
Qed.

End ExpireLoopFacts.

(** The two caches as maps: no key twice, in the caches and in the
    address map of every record. *)
Definition cacheWellFormed (s : MdnsScanner) : Prop :=
  NoDup (JsMap.keys (operationalDeviceRecords s))
  /\ addressesWellFormed op_addresses (operationalDeviceRecords s)
  /\ NoDup (JsMap.keys (commissionableDeviceRecords s))
  /\ addressesWellFormed addresses (commissionableDeviceRecords s).

Lemma expire_operational (now : Z) (s : MdnsScanner) :
  cacheWellFormed s ->
  operationalDeviceRecords (expire now s)
  = map (pruned op_addresses op_withAddresses now)
      (filter (stillValid op_addresses op_expires now) (operationalDeviceRecords s)).
Proof using Type.
  intros (H1 & H2 & _). unfold expire. cbn [with_commissionable operationalDeviceRecords
    with_operational]. now apply expireLoop_spec.
Qed.

Lemma expire_commissionable (now : Z) (s : MdnsScanner) :
  cacheWellFormed s ->
  commissionableDeviceRecords (expire now s)
  = map (pruned addresses cr_withAddresses now)
      (filter (stillValid addresses expires now) (commissionableDeviceRecords s)).
Proof using Type.
  intros (_ & _ & H3 & H4). unfold expire. cbn [with_commissionable
    commissionableDeviceRecords with_operational]. now apply expireLoop_spec.
Qed.

Lemma expire_cacheWellFormed (now : Z) (s : MdnsScanner) :
  cacheWellFormed s -> cacheWellFormed (expire now s).
Proof using Type.
  intros H. pose proof H as (H1 & H2 & H3 & H4). unfold cacheWellFormed.
  rewrite expire_operational, expire_commissionable by assumption.
  destruct (@spec_wellFormed _ op_addresses op_expires op_withAddresses
              (fun _ _ => eq_refl) now _ H1 H2).
  destruct (@spec_wellFormed _ addresses expires cr_withAddresses
              (fun _ _ => eq_refl) now _ H3 H4).
  auto.
Qed.

Lemma expire_frame (now : Z) (s : MdnsScanner) :
  activeAnnounceQueries (expire now s) = activeAnnounceQueries s
  /\ queryTimer (expire now s) = queryTimer s
  /\ nextAnnounceIntervalSeconds (expire now s) = nextAnnounceIntervalSeconds s
  /\ recordWaiters (expire now s) = recordWaiters s
  /\ periodicTimer (expire now s) = periodicTimer s
  /\ transportOpen (expire now s) = transportOpen s
  /\ closing (expire now s) = closing s
  /\ enableIpv4 (expire now s) = enableIpv4 s
  /\ events (expire now s) = events s.
Proof using Type. repeat split. Qed.

Lemma scanner_eq (a b : MdnsScanner) :
  activeAnnounceQueries a = activeAnnounceQueries b ->
  queryTimer a = queryTimer b ->
  nextAnnounceIntervalSeconds a = nextAnnounceIntervalSeconds b ->
  operationalDeviceRecords a = operationalDeviceRecords b ->
  commissionableDeviceRecords a = commissionableDeviceRecords b ->
  recordWaiters a = recordWaiters b ->
  periodicTimer a = periodicTimer b ->
  transportOpen a = transportOpen b ->
  closing a = closing b ->
  enableIpv4 a = enableIpv4 b ->
  events a = events b ->
  a = b.
Proof using Type. destruct a, b. simpl. intros. now subst. Qed.

(** [expire] on a scanner whose caches are maps: a record stays exactly
    when it has not expired and one of its addresses has not; the records
    that stay keep their order and all of their fields but the address
    map, which loses the addresses that have expired.  Queries, waiters,
    timers and what has been sent are left alone. *)
Theorem expire_keeps_valid_records (now : Z) (s : MdnsScanner) :
  cacheWellFormed s ->
  operationalDeviceRecords (expire now s)
  = map (fun kv => (fst kv,
                    op_withAddresses (snd kv)
                      (filter (fun a => (now <? addr_expires (snd a))%Z)
                         (op_addresses (snd kv)))))
      (filter (fun kv => (now <? op_expires (snd kv))%Z
                         && existsb (fun a => (now <? addr_expires (snd a))%Z)
                              (op_addresses (snd kv)))
         (operationalDeviceRecords s))
  /\ commissionableDeviceRecords (expire now s)
     = map (fun kv => (fst kv,
                       cr_withAddresses (snd kv)
                         (filter (fun a => (now <? addr_expires (snd a))%Z)
                            (addresses (snd kv)))))
         (filter (fun kv => (now <? expires (snd kv))%Z
                            && existsb (fun a => (now <? addr_expires (snd a))%Z)
                                 (addresses (snd kv)))
            (commissionableDeviceRecords s))
  /\ activeAnnounceQueries (expire now s) = activeAnnounceQueries s
  /\ queryTimer (expire now s) = queryTimer s
  /\ nextAnnounceIntervalSeconds (expire now s) = nextAnnounceIntervalSeconds s
  /\ recordWaiters (expire now s) = recordWaiters s
  /\ events (expire now s) = events s.
Proof using Type.
  intros H. split; [|split].
  - now rewrite expire_operational.
  - now rewrite expire_commissionable.
  - repeat split.
Qed.

(** After [expire] nothing stale is left: every record in either cache
    expires after [now], has an address, and all of its addresses expire
    after [now]. *)
Theorem expire_leaves_nothing_stale (now : Z) (s : MdnsScanner) :
  cacheWellFormed s ->
  (forall k device,
      In (k, device) (operationalDeviceRecords (expire now s)) ->
      (now < op_expires device)%Z
      /\ op_addresses device <> []
      /\ Forall (fun a => (now < addr_expires (snd a))%Z) (op_addresses device))
  /\ (forall k record,
        In (k, record) (commissionableDeviceRecords (expire now s)) ->
        (now < expires record)%Z
        /\ addresses record <> []
        /\ Forall (fun a => (now < addr_expires (snd a))%Z) (addresses record)).
Proof using Type.
  intros H. split; intros k x Hin.
  - rewrite expire_operational in Hin by assumption.
    apply in_map_iff in Hin. destruct Hin as ([k' x'] & Heq & Hin).
    apply filter_In in Hin. destruct Hin as [_ Hvalid].
    unfold pruned in Heq. simpl in Heq. inversion Heq; subst. clear Heq.
    unfold stillValid in Hvalid. simpl in Hvalid.
    apply andb_true_iff in Hvalid. destruct Hvalid as [He Ha].
    apply Z.ltb_lt in He. simpl. repeat split; auto.
    + apply existsb_exists in Ha. destruct Ha as (a & Hin & Ha).
      intros Hnil. assert (In a (filter (unexpired now) (op_addresses x'))) as Hf
        by (apply filter_In; auto).
      rewrite Hnil in Hf. destruct Hf.
    + apply Forall_forall. intros a Hf. apply filter_In in Hf.
      destruct Hf as [_ Hf]. now apply Z.ltb_lt in Hf.
  - rewrite expire_commissionable in Hin by assumption.
    apply in_map_iff in Hin. destruct Hin as ([k' x'] & Heq & Hin).
    apply filter_In in Hin. destruct Hin as [_ Hvalid].
    unfold pruned in Heq. simpl in Heq. inversion Heq; subst. clear Heq.
    unfold stillValid in Hvalid. simpl in Hvalid.
    apply andb_true_iff in Hvalid. destruct Hvalid as [He Ha].
    apply Z.ltb_lt in He. simpl. repeat split; auto.
    + apply existsb_exists in Ha. destruct Ha as (a & Hin & Ha).
      intros Hnil. assert (In a (filter (unexpired now) (addresses x'))) as Hf
        by (apply filter_In; auto).
      rewrite Hnil in Hf. destruct Hf.
    + apply Forall_forall. intros a Hf. apply filter_In in Hf.
      destruct Hf as [_ Hf]. now apply Z.ltb_lt in Hf.
Qed.

(** Running [expire] again later gives what running it once at the
    later time gives; in particular running it twice at the same time
    changes nothing more. *)
Theorem expire_later_absorbs (t1 t2 : Z) (s : MdnsScanner) :
  cacheWellFormed s ->
  (t1 <= t2)%Z ->
  expire t2 (expire t1 s) = expire t2 s.
Proof using Type.
  intros H Hle. pose proof (expire_cacheWellFormed t1 H) as H'.
  apply scanner_eq; try reflexivity.
  - rewrite (expire_operational t2 H'), (expire_operational t1 H),
      (expire_operational t2 H).
    apply expire_spec_twice; auto.
  - rewrite (expire_commissionable t2 H'), (expire_commissionable t1 H),
      (expire_commissionable t2 H).
    apply expire_spec_twice; auto.
Qed.

(** ** Queries and waiters *)

Lemma removeQuery_queries (s : MdnsScanner) (queryId : string) :
  activeAnnounceQueries (removeQuery s queryId)
  = JsMap.delete queryId (activeAnnounceQueries s).
Proof using Type.
  unfold removeQuery. now destruct (JsMap.size _).
Qed.

Lemma removeQuery_frame (s : MdnsScanner) (queryId : string) :
  operationalDeviceRecords (removeQuery s queryId) = operationalDeviceRecords s
  /\ commissionableDeviceRecords (removeQuery s queryId) = commissionableDeviceRecords s
  /\ recordWaiters (removeQuery s queryId) = recordWaiters s
  /\ closing (removeQuery s queryId) = closing s
  /\ events (removeQuery s queryId) = events s.
Proof using Type.
  unfold removeQuery. destruct (JsMap.size _); repeat split.
Qed.

Lemma setQueryRecords_has (s : MdnsScanner) (queryId : string)
    (qs : list DnsQuery) (ans : list DnsRecord) :
  JsMap.has queryId (activeAnnounceQueries (setQueryRecords s queryId qs ans)) = true.
Proof using Type.
  unfold setQueryRecords, JsMap.has.
  destruct (JsMap.get queryId (activeAnnounceQueries s)) as [existing|] eqn:E.
  - destruct (filter _ qs).
    + now rewrite E.
    + cbn [with_queries activeAnnounceQueries]. now rewrite JsMap_get_set_same.
  - cbn [with_queries activeAnnounceQueries]. now rewrite JsMap_get_set_same.
Qed.

Lemma setQueryRecords_others (s : MdnsScanner) (queryId k : string)
    (qs : list DnsQuery) (ans : list DnsRecord) :
  k <> queryId ->
  JsMap.get k (activeAnnounceQueries (setQueryRecords s queryId qs ans))
  = JsMap.get k (activeAnnounceQueries s).
Proof using Type.
  intros Hne. destruct (setQueryRecords_cases s queryId qs ans) as [H|[ans' H]];
    rewrite H; auto.
  cbn [with_queries activeAnnounceQueries]. apply JsMap_get_set_other. congruence.
Qed.

Lemma JsMap_delete_only (X : Type) (k : string) (m : JsMap.t X) :
  (forall k', k' <> k -> JsMap.get k' m = None) -> JsMap.delete k m = [].
Proof using Type.
  intros H. unfold JsMap.delete.
  assert (forall x, In x m -> negb (String.eqb (fst x) k) = false) as Hall.
  { intros [k' v] Hin. simpl. destruct (String.eqb_spec k' k) as [->|Hne]; auto.
    exfalso. apply (@JsMap_keys_get _ k' m).
    - apply in_map_iff. exists (k', v). auto.
    - auto. }
  clear H. induction m as [|x m IH]; simpl; auto.
  rewrite (Hall x) by now left. apply IH. intros y Hy. apply Hall. now right.
Qed.

Lemma JsMap_delete_nonempty (X : Type) (k k' : string) (m : JsMap.t X) :
  k' <> k -> JsMap.get k' m <> None -> JsMap.size (JsMap.delete k m) <> 0%nat.
Proof using Type.
  intros Hne Hget Hsize.
  destruct (JsMap.delete k m) as [|x l] eqn:E; [|discriminate].
  assert (JsMap.get k' (JsMap.delete k m) = JsMap.get k' m) as H
    by (apply JsMap_get_delete_other; congruence).
  rewrite E in H. simpl in H. congruence.
Qed.

(** [removeQuery] after [setQueryRecords] on the same id: the query was
    active and is gone, the other queries are as they were before the
    two calls.  When it was the only one, no query is left, the query
    timer is stopped and the interval is back at its start; when another
    query is active, the timer and the interval that [setQueryRecords]
    left are kept. *)
Theorem removeQuery_after_setQueryRecords (s : MdnsScanner) (queryId : string)
    (qs : list DnsQuery) (ans : list DnsRecord) :
  let s1 := setQueryRecords s queryId qs ans in
  let s2 := removeQuery s1 queryId in
  JsMap.has queryId (activeAnnounceQueries s1) = true
  /\ JsMap.get queryId (activeAnnounceQueries s2) = None
  /\ (forall k, k <> queryId ->
        JsMap.get k (activeAnnounceQueries s2) = JsMap.get k (activeAnnounceQueries s))
  /\ ((forall k, k <> queryId -> JsMap.get k (activeAnnounceQueries s) = None) ->
      activeAnnounceQueries s2 = []
      /\ queryTimer s2 = None
      /\ nextAnnounceIntervalSeconds s2 = START_ANNOUNCE_INTERVAL_SECONDS)
  /\ (forall k, k <> queryId -> JsMap.get k (activeAnnounceQueries s) <> None ->
      queryTimer s2 = queryTimer s1
      /\ nextAnnounceIntervalSeconds s2 = nextAnnounceIntervalSeconds s1).
Proof using Type.
  cbv zeta. split; [apply setQueryRecords_has|].
  split; [rewrite removeQuery_queries; apply JsMap_get_delete_same|].
  split.
  { intros k Hne. rewrite removeQuery_queries, JsMap_get_delete_other by congruence.
    now apply setQueryRecords_others. }
  split.
  - intros Honly.
    assert (JsMap.delete queryId
              (activeAnnounceQueries (setQueryRecords s queryId qs ans)) = []) as Hnil.
    { apply JsMap_delete_only. intros k Hne.
      rewrite setQueryRecords_others by assumption. auto. }
    unfold removeQuery. rewrite Hnil. simpl. auto.
  - intros k Hne Hget.
    assert (JsMap.size (JsMap.delete queryId
              (activeAnnounceQueries (setQueryRecords s queryId qs ans))) <> 0%nat) as Hsize.
    { apply JsMap_delete_nonempty with (k' := k); auto.
      now rewrite setQueryRecords_others. }
    unfold removeQuery. destruct (JsMap.size _); [congruence|]. simpl. auto.
Qed.

Lemma registerWaiterPromise_get (s : MdnsScanner) (queryId : string)
    (timeoutSeconds : option Q) (resolveOnUpdated : bool) :
  JsMap.get queryId
    (recordWaiters (registerWaiterPromise s queryId timeoutSeconds resolveOnUpdated))
  = Some {| timer := option_map (fun t => (t * 1000)%Q) timeoutSeconds;
            resolveOnUpdatedRecords := resolveOnUpdated |}.
Proof using Type. unfold registerWaiterPromise. simpl. apply JsMap_get_set_same. Qed.

Lemma finishWaiter_resolved (s : MdnsScanner) (queryId : string) (w : Waiter)
    (resolve updated : bool) :
  JsMap.get queryId (recordWaiters s) = Some w ->
  updated && negb (resolveOnUpdatedRecords w) = false ->
  events (finishWaiter s queryId resolve updated)
  = events s ++ (if resolve then [Resolved queryId] else [])
  /\ hasWaiter (finishWaiter s queryId resolve updated) queryId = false
  /\ (forall k, k <> queryId ->
        JsMap.get k (recordWaiters (finishWaiter s queryId resolve updated))
        = JsMap.get k (recordWaiters s)).
Proof using Type.
  intros Hget Hupd. unfold finishWaiter, hasWaiter, JsMap.has. rewrite Hget, Hupd.
  destruct resolve; simpl; rewrite JsMap_get_delete_same; repeat split;
    try (now rewrite app_nil_r);
    intros k Hne; apply JsMap_get_delete_other; congruence.
Qed.

(** A waiter that [registerWaiterPromise] registers is there until
    [finishWaiter] takes it away, resolving its promise when asked to;
    the other waiters are not touched.  A waiter registered not to
    resolve on updated records is left alone by a [finishWaiter] for an
    updated record, and [finishWaiter] on an id without waiter does
    nothing. *)
Theorem waiter_round_trip (s : MdnsScanner) (queryId : string)
    (timeoutSeconds : option Q) (resolveOnUpdated : bool) :
  let s1 := registerWaiterPromise s queryId timeoutSeconds resolveOnUpdated in
  hasWaiter s1 queryId = true
  /\ (forall k, k <> queryId ->
        JsMap.get k (recordWaiters s1) = JsMap.get k (recordWaiters s))
  /\ (forall resolve,
        let s2 := finishWaiter s1 queryId resolve false in
        hasWaiter s2 queryId = false
        /\ events s2 = events s ++ (if resolve then [Resolved queryId] else [])
        /\ forall k, k <> queryId ->
             JsMap.get k (recordWaiters s2) = JsMap.get k (recordWaiters s))
  /\ (forall resolve,
        let s2 := finishWaiter s1 queryId resolve true in
        if resolveOnUpdated
        then hasWaiter s2 queryId = false
             /\ events s2 = events s ++ (if resolve then [Resolved queryId] else [])
        else s2 = s1)
  /\ (forall resolve updated,
        hasWaiter s queryId = false -> finishWaiter s queryId resolve updated = s).
Proof using Type.
  cbv zeta.
  pose proof (registerWaiterPromise_get s queryId timeoutSeconds resolveOnUpdated) as Hget.
  split; [unfold hasWaiter, JsMap.has; now rewrite Hget|].
  split.
  { intros k Hne. unfold registerWaiterPromise. simpl.
    apply JsMap_get_set_other. congruence. }
  split.
  { intros resolve.
    destruct (@finishWaiter_resolved _ queryId _ resolve false Hget eq_refl)
      as (He & Hw & Ho).
    split; [exact Hw|]. split; [exact He|].
    intros k Hne. rewrite Ho by assumption.
    unfold registerWaiterPromise. simpl. apply JsMap_get_set_other. congruence. }
  split.
  { intros resolve. destruct resolveOnUpdated.
    - destruct (@finishWaiter_resolved _ queryId _ resolve true Hget eq_refl)
        as (He & Hw & _). auto.
    - unfold finishWaiter. now rewrite Hget. }
  intros resolve updated H. unfold finishWaiter.
  unfold hasWaiter in H. now rewrite (JsMap_has_get _ _ H).
Qed.

(** ** A discovery from start to end *)

Lemma getOperationalDeviceRecords_cache (s s' : MdnsScanner) (q : string) :
  operationalDeviceRecords s' = operationalDeviceRecords s ->
  getOperationalDeviceRecords s' q = getOperationalDeviceRecords s q.
Proof using Type. intros H. unfold getOperationalDeviceRecords. now rewrite H. Qed.

Lemma getCommissionableDeviceRecords_cache (s s' : MdnsScanner)
    (identifier : CommissionableDeviceIdentifiers) :
  commissionableDeviceRecords s' = commissionableDeviceRecords s ->
  getCommissionableDeviceRecords s' identifier = getCommissionableDeviceRecords s identifier.
Proof using Type. intros H. unfold getCommissionableDeviceRecords. now rewrite H. Qed.

(** An operational discovery that is cancelled.  On an open scanner
    without a usable record of the device, [findOperationalDevice]
    registers a waiter and the SRV query and suspends;
    [cancelOperationalDeviceDiscovery] resolves the promise and removes
    the waiter; the resumed method finds no device, returns undefined and
    removes the query. *)
Theorem cancelled_operational_discovery (s : MdnsScanner) (deviceMatterQname : string)
    (timeoutSeconds : option Q) (ignoreExistingRecords : bool) :
  closing s = false ->
  getOperationalDeviceRecords s deviceMatterQname = None ->
  exists s1,
    findOperationalDevice s deviceMatterQname timeoutSeconds ignoreExistingRecords
    = Done s1 (Suspended deviceMatterQname)
    /\ hasWaiter s1 deviceMatterQname = true
    /\ JsMap.has deviceMatterQname (activeAnnounceQueries s1) = true
    /\ let s2 := cancelOperationalDeviceDiscovery s1 deviceMatterQname in
       events s2 = events s ++ [Resolved deviceMatterQname]
       /\ hasWaiter s2 deviceMatterQname = false
       /\ let (s3, storedDevice) := findOperationalDevice_resume s2 deviceMatterQname in
          storedDevice = None
          /\ JsMap.get deviceMatterQname (activeAnnounceQueries s3) = None
          /\ hasWaiter s3 deviceMatterQname = false
          /\ events s3 = events s ++ [Resolved deviceMatterQname].
Proof using Type.
  intros Hopen Hnone. unfold findOperationalDevice. rewrite Hopen.
  assert ((if ignoreExistingRecords then None
           else getOperationalDeviceRecords s deviceMatterQname) = None) as ->
    by (destruct ignoreExistingRecords; auto).
  eexists. split; [reflexivity|].
  set (s0 := registerWaiterPromise s deviceMatterQname timeoutSeconds true).
  set (s1 := setQueryRecords s0 deviceMatterQname _ []).
  pose proof (setQueryRecords_frame s0 deviceMatterQname
                [{| q_name := deviceMatterQname; q_recordType := SRV;
                    q_recordClass := IN; uniCastResponse := false |}] [])
    as (Hops & _ & Hw & _ & _ & Hev).
  fold s1 in Hops, Hw, Hev.
  pose proof (registerWaiterPromise_get s deviceMatterQname timeoutSeconds true) as Hget.
  fold s0 in Hget. rewrite <- Hw in Hget.
  split; [unfold hasWaiter, JsMap.has; now rewrite Hget|].
  split; [apply setQueryRecords_has|].
  unfold cancelOperationalDeviceDiscovery.
  destruct (@finishWaiter_resolved s1 deviceMatterQname _ true false Hget eq_refl)
    as (He & Hgone & _).
  cbv zeta. split; [rewrite He, Hev; reflexivity|]. split; [exact Hgone|].
  unfold findOperationalDevice_resume.
  set (s2 := finishWaiter s1 deviceMatterQname true false) in *.
  pose proof (finishWaiter_frame s1 deviceMatterQname true false) as (Hops2 & _).
  fold s2 in Hops2.
  pose proof (removeQuery_frame s2 deviceMatterQname) as (_ & _ & Hw3 & _ & Hev3).
  split.
  { rewrite (@getOperationalDeviceRecords_cache s s2 deviceMatterQname); auto.
    now rewrite Hops2, Hops. }
  split; [rewrite removeQuery_queries; apply JsMap_get_delete_same|].
  split; [unfold hasWaiter in *; now rewrite Hw3|].
  rewrite Hev3, He, Hev. reflexivity.
Qed.

Lemma filter_nil_Forall (X : Type) (p : X -> bool) (l : list X) :
  filter p l = [] -> Forall (fun x => p x = false) l.
Proof using Type.
  induction l as [|x l IH]; simpl; [constructor|].
  destruct (p x) eqn:E; [discriminate|]. intros H. constructor; auto.
Qed.

(** A commissionable discovery that is cancelled.  When no cached record
    that matches has an address, [findCommissionableDevices] registers a
    waiter with a timeout and the PTR queries and suspends;
    [cancelCommissionableDeviceDiscovery] resolves the promise and
    removes the waiter; the resumed method removes the query and returns
    the cached records that match, none of which has an address. *)
Theorem cancelled_commissionable_discovery (s : MdnsScanner)
    (identifier : CommissionableDeviceIdentifiers) (timeoutSeconds : Q) :
  filter (fun d => match cd_addresses d with [] => false | _ :: _ => true end)
    (getCommissionableDeviceRecords s identifier) = [] ->
  let queryId := buildCommissionableQueryIdentifier identifier in
  exists s1,
    findCommissionableDevices s identifier timeoutSeconds false
    = Done s1 (Suspended queryId)
    /\ JsMap.get queryId (recordWaiters s1)
       = Some {| timer := Some (timeoutSeconds * 1000)%Q;
                 resolveOnUpdatedRecords := true |}
    /\ JsMap.has queryId (activeAnnounceQueries s1) = true
    /\ let s2 := cancelCommissionableDeviceDiscovery s1 identifier in
       events s2 = events s ++ [Resolved queryId]
       /\ hasWaiter s2 queryId = false
       /\ let (s3, storedRecords) := findCommissionableDevices_resume s2 identifier in
          storedRecords = getCommissionableDeviceRecords s identifier
          /\ Forall (fun d => cd_addresses d = []) storedRecords
          /\ JsMap.get queryId (activeAnnounceQueries s3) = None
          /\ hasWaiter s3 queryId = false.
Proof using Type.
  intros Hnone. cbv zeta. unfold findCommissionableDevices. rewrite Hnone.
  eexists. split; [reflexivity|].
  set (queryId := buildCommissionableQueryIdentifier identifier).
  set (s0 := registerWaiterPromise s queryId (Some timeoutSeconds) true).
  set (s1 := setQueryRecords s0 queryId _ []).
  pose proof (setQueryRecords_frame s0 queryId
                (getCommissionableQueryRecords identifier) [])
    as (_ & Hcomm & Hw & _ & _ & Hev).
  fold s1 in Hcomm, Hw, Hev.
  pose proof (registerWaiterPromise_get s queryId (Some timeoutSeconds) true) as Hget.
  fold s0 in Hget. rewrite <- Hw in Hget. simpl in Hget.
  split; [exact Hget|].
  split; [apply setQueryRecords_has|].
  unfold cancelCommissionableDeviceDiscovery. fold queryId.
  destruct (@finishWaiter_resolved s1 queryId _ true false Hget eq_refl)
    as (He & Hgone & _).
  split; [rewrite He, Hev; reflexivity|]. split; [exact Hgone|].
  unfold findCommissionableDevices_resume. fold queryId.
  set (s2 := finishWaiter s1 queryId true false) in *.
  pose proof (finishWaiter_frame s1 queryId true false) as (_ & Hcomm2 & _).
  fold s2 in Hcomm2.
  pose proof (removeQuery_frame s2 queryId) as (_ & _ & Hw3 & _ & _).
  assert (getCommissionableDeviceRecords s2 identifier
          = getCommissionableDeviceRecords s identifier) as Hsame.
  { apply getCommissionableDeviceRecords_cache. now rewrite Hcomm2, Hcomm. }
  split; [exact Hsame|].
  split.
  { rewrite Hsame. apply filter_nil_Forall in Hnone.
    eapply Forall_impl; [|exact Hnone]. intros d Hd. simpl in Hd.
    now destruct (cd_addresses d). }
  split; [rewrite removeQuery_queries; apply JsMap_get_delete_same|].
  unfold hasWaiter in *. now rewrite Hw3.
Qed.

Lemma JsMap_set_nonempty (X : Type) (k : string) (v : X) (m : JsMap.t X) :
  JsMap.set k v m <> [].
Proof using Type.
  destruct m as [|[k' v'] m]; simpl; [discriminate|].
  destruct (String.eqb k' k); discriminate.
Qed.

Lemma updateAddress_fold_nonempty (now port' : Z)
    (keyOf : string -> MatterServerRecordWithExpire -> string) (ips : list IpRecord) :
  ips <> [] ->
  Forall (fun r => ip_ttl r <> 0%Z) ips ->
  forall addrs, fold_left (updateAddress now port' keyOf) ips addrs <> [].
Proof using Type.
  induction ips as [|r ips IH]; intros Hne Hall addrs; [congruence|].
  inversion Hall as [|? ? Hr Hrest]; subst. cbn [fold_left].
  destruct ips as [|r' ips'].
  - cbn [fold_left]. unfold updateAddress.
    destruct (ip_ttl r =? 0)%Z eqn:E; [apply Z.eqb_eq in E; contradiction|].
    apply JsMap_set_nonempty.
  - apply IH; [discriminate | assumption].
Qed.

(** An SRV record (with [ttl <> 0]) that comes with address records for
    its target, none of them a goodbye, completes an operational
    discovery: the device is in the cache with an address, so
    [getOperationalDeviceRecords] returns it; no query is added; a waiter
    for the device is resolved and removed when the device is new or the
    waiter resolves on updated records, and kept otherwise.  The record's
    expiry is set from the SRV record only when the device is new. *)
Theorem operational_srv_completes_discovery (now : Z) (s : MdnsScanner)
    (record : DnsRecord) (answers formerAnswers : list DnsRecord)
    (netInterface : string) (priority weight port' : Z) (target : string) :
  ttl record <> 0%Z ->
  value record = SrvValue priority weight port' target ->
  handleIpRecords s (answers ++ formerAnswers) target netInterface <> [] ->
  Forall (fun r => ip_ttl r <> 0%Z)
    (handleIpRecords s (answers ++ formerAnswers) target netInterface) ->
  let s' := handleOperationalSrvRecord now s record answers formerAnswers netInterface in
  (exists device,
      JsMap.get (name record) (operationalDeviceRecords s') = Some device
      /\ op_addresses device <> []
      /\ match JsMap.get (name record) (operationalDeviceRecords s) with
         | Some old => op_expires device = op_expires old /\ op_data device = op_data old
         | None => op_expires device = (now + ttl record * 1000)%Z
         end)
  /\ getOperationalDeviceRecords s' (name record) <> None
  /\ activeAnnounceQueries s' = activeAnnounceQueries s
  /\ match JsMap.get (name record) (recordWaiters s) with
     | Some w =>
         if JsMap.has (name record) (operationalDeviceRecords s)
            && negb (resolveOnUpdatedRecords w)
         then recordWaiters s' = recordWaiters s /\ events s' = events s
         else hasWaiter s' (name record) = false
              /\ events s' = events s ++ [Resolved (name record)]
     | None => recordWaiters s' = recordWaiters s /\ events s' = events s
     end.
Proof using Type.
  intros Httl Hv Hips Hall. cbv zeta. unfold handleOperationalSrvRecord.
  destruct (ttl record =? 0)%Z eqn:E; [apply Z.eqb_eq in E; contradiction|].
  rewrite Hv.
  set (ips := handleIpRecords s (answers ++ formerAnswers) target netInterface) in *.
  set (device0 := match JsMap.get (name record) (operationalDeviceRecords s) with
                  | Some device => device
                  | None => _
                  end).
  set (addrs := fold_left (updateAddress now port' (fun _ e => ip e)) ips
                  (op_addresses device0)).
  assert (addrs <> []) as Haddrs by (now apply updateAddress_fold_nonempty).
  destruct ips as [|r ips'] eqn:Eips; [congruence|].
  set (device' := {| op_deviceIdentifier := op_deviceIdentifier device0;
                     op_addresses := addrs;
                     op_expires := op_expires device0;
                     op_data := op_data device0 |}).
  set (s1 := with_operational s
               (JsMap.set (name record) device' (operationalDeviceRecords s))).
  destruct addrs as [|a addrs'] eqn:Ea; [congruence|]. cbn [JsMap.size length].
  pose proof (finishWaiter_frame s1 (name record) true
                (JsMap.has (name record) (operationalDeviceRecords s)))
    as (Hops & _ & Hq & _).
  cbv zeta in Hops, Hq.
  assert (JsMap.get (name record) (operationalDeviceRecords s1) = Some device') as Hget
    by (unfold s1; simpl; apply JsMap_get_set_same).
  split.
  { exists device'. rewrite Hops. split; [exact Hget|]. split; [discriminate|].
    unfold device', device0. simpl.
    destruct (JsMap.get (name record) (operationalDeviceRecords s)); simpl; auto. }
  split.
  { rewrite (@getOperationalDeviceRecords_cache s1 _ (name record) Hops).
    unfold getOperationalDeviceRecords. rewrite Hget. simpl. discriminate. }
  split; [rewrite Hq; reflexivity|].
  change (recordWaiters s) with (recordWaiters s1).
  change (events s) with (events s1).
  destruct (JsMap.get (name record) (recordWaiters s1)) as [w|] eqn:Ew.
  - destruct (JsMap.has (name record) (operationalDeviceRecords s)
              && negb (resolveOnUpdatedRecords w)) eqn:Eupd.
    + unfold finishWaiter. rewrite Ew, Eupd. auto.
    + destruct (@finishWaiter_resolved s1 (name record) w true _ Ew Eupd)
        as (He & Hgone & _). auto.
  - unfold finishWaiter. rewrite Ew. auto.
Qed.

(** ** The questions of a burst *)

(** At every turn of the loop of [sendQueries]: the questions are in the
    first datagram sent, or still in the message under construction when
    none has been sent; once a datagram is out, [queries.length = 0] has
    emptied them for good. *)
Definition questionsInvariant (qs : list DnsQuery) (l : SendLoop) : Prop :=
  match sentMessages (emitted l) with
  | [] => queries (dnsMessageDataToSend l) = qs
  | first :: rest =>
      queries first = qs
      /\ Forall (fun d => queries d = []) rest
      /\ queries (dnsMessageDataToSend l) = []
  end.

Lemma sendQueriesStep_questions (qs : list DnsQuery) (emptyLength : nat)
    (l : SendLoop) (a : DnsRecord) :
  questionsInvariant qs l -> questionsInvariant qs (sendQueriesStep emptyLength l a).
Proof using Type.
  unfold questionsInvariant, sendQueriesStep.
  destruct (MAX_MDNS_MESSAGE_SIZE <? _)%nat; cbn [emitted dnsMessageDataToSend]; auto.
  rewrite !sentMessages_app.
  assert (sentMessages (match answers (dnsMessageDataToSend l) with
                        | [] => [Warned]
                        | _ :: _ => []
                        end) = []) as ->
    by (destruct (answers (dnsMessageDataToSend l)); reflexivity).
  cbn [sentMessages flat_map app].
  destruct (sentMessages (emitted l)) as [|first rest]; cbn [app].
  - intros H. repeat split; auto.
  - intros (H1 & H2 & H3). repeat split; auto.
    apply Forall_app. split; auto.
Qed.

(** The questions of a burst of [sendQueries] are in its first datagram
    and in no other: the datagrams that carry the known answers that did
    not fit have an empty question section. *)
Theorem sendQueries_questions_once (qs : list DnsQuery) (ans : list DnsRecord) :
  exists first rest,
    sentMessages (sendQueriesBurst qs ans) = first :: rest
    /\ queries first = qs
    /\ Forall (fun d => queries d = []) rest.
Proof using Type.
  unfold sendQueriesBurst, sendQueriesLoop.
  set (m0 := {| messageType := TruncatedQuery; transactionId := 0%Z; queries := qs;
                answers := []; additionalRecords := [] |}).
  set (l0 := {| dnsMessageDataToSend := m0; dnsMessageSize := encodedLength m0;
                emitted := [] |}).
  assert (questionsInvariant qs l0) as H0 by reflexivity.
  pose proof (fold_left_invariant (sendQueriesStep (encodedLength m0))
                (questionsInvariant qs)
                (fun l a => @sendQueriesStep_questions qs (encodedLength m0) l a)
                ans l0 H0) as H.
  set (l := fold_left (sendQueriesStep (encodedLength m0)) ans l0) in *.
  unfold questionsInvariant in H. rewrite sentMessages_app.
  cbn [sentMessages flat_map app].
  destruct (sentMessages (emitted l)) as [|first rest].
  - exists (set_messageType (dnsMessageDataToSend l) Query), []. auto.
  - destruct H as (H1 & H2 & H3).
    exists first, (rest ++ [set_messageType (dnsMessageDataToSend l) Query]).
    repeat split; auto. apply Forall_app. split; auto.
Qed.

(** ** The query a commissionable record belongs to *)

(** [findCommissionableQueryIdentifier] throws on a closing scanner and
    changes nothing.  An identifier it returns is that of an active
    query; the query for the instance id goes before all others; and
    without an active query the result is undefined (unless [VendorId]
    throws on the record's vendor id). *)
Theorem findCommissionableQueryIdentifier_active (s : MdnsScanner)
    (instanceName : string) (record : CommissionableDeviceRecordWithExpire) :
  (closing s = true ->
   findCommissionableQueryIdentifier s instanceName record
   = Threw s (ImplementationError
                "Cannot discover commissionable device because scanner is closing."))
  /\ (forall s' queryId,
        findCommissionableQueryIdentifier s instanceName record = Done s' (Some queryId) ->
        s' = s /\ closing s = false
        /\ JsMap.has queryId (activeAnnounceQueries s) = true)
  /\ (closing s = false ->
      JsMap.has (getDeviceInstanceQname (extractInstanceId instanceName))
        (activeAnnounceQueries s) = true ->
      findCommissionableQueryIdentifier s instanceName record
      = Done s (Some (getDeviceInstanceQname (extractInstanceId instanceName))))
  /\ (closing s = false ->
      activeAnnounceQueries s = [] ->
      (forall v, V record = Some v -> exists vendorId, VendorId v = inr vendorId) ->
      findCommissionableQueryIdentifier s instanceName record = Done s None).
Proof using Type.
  unfold findCommissionableQueryIdentifier. split; [intros ->; reflexivity|].
  split.
  { intros s' queryId. destruct (closing s); [discriminate|].
    repeat match goal with
           | |- (if ?b then _ else _) = _ -> _ =>
               let E := fresh "E" in
               destruct b eqn:E; [intros H; inversion H; subst; auto|]
           | |- match ?o with Some _ => _ | None => _ end = _ -> _ => destruct o
           | |- match ?o with inl _ => _ | inr _ => _ end = _ -> _ =>
               destruct o; [discriminate|]
           end; discriminate. }
  split.
  { intros -> ->. reflexivity. }
  intros -> Hnil Hvendor. rewrite Hnil. cbn [JsMap.has JsMap.get].
  destruct (V record) as [v|].
  - destruct (Hvendor v eq_refl) as [vendorId ->].
    destruct (DT (data record)), (P record); reflexivity.
  - destruct (DT (data record)), (P record); reflexivity.
Qed.

(** ** Messages the scanner has no use for *)

Lemma find_none_Forall (X : Type) (p : X -> bool) (l : list X) :
  Forall (fun x => p x = false) l -> List.find p l = None.
Proof using Type.
  induction 1 as [|x l Hx Hl IH]; simpl; auto. now rewrite Hx.
Qed.

Lemma filter_none_Forall (X : Type) (p : X -> bool) (l : list X) :
  Forall (fun x => p x = false) l -> filter p l = [].
Proof using Type.
  induction 1 as [|x l Hx Hl IH]; simpl; auto. now rewrite Hx.
Qed.

(** [handleDnsMessage] leaves the scanner as it is, and does not throw,
    on a closing scanner, on bytes that cannot be parsed, on a query, and
    on a response in which no record, and no known answer of an active
    query, has a name under [_matter._tcp.local] or
    [_matterc._udp.local]. *)
Theorem handleDnsMessage_ignores (now : Z) (s : MdnsScanner) (netInterface : string) :
  (forall message, closing s = true ->
     handleDnsMessage now s message netInterface = Done s tt)
  /\ handleDnsMessage now s None netInterface = Done s tt
  /\ (forall message,
        dm_messageType message = Query \/ dm_messageType message = TruncatedQuery ->
        handleDnsMessage now s (Some message) netInterface = Done s tt)
  /\ (forall message,
        Forall (fun r => endsWith (name r) MATTER_SERVICE_QNAME = false
                         /\ endsWith (name r) MATTER_COMMISSION_SERVICE_QNAME = false)
          (dm_answers message ++ dm_additionalRecords message
           ++ getActiveQueryEarlierAnswers s) ->
        handleDnsMessage now s (Some message) netInterface = Done s tt).
Proof using Type.
  unfold handleDnsMessage. split; [intros message ->; reflexivity|].
  split; [now destruct (closing s)|].
  split; [intros message [-> | ->]; now destruct (closing s)|].
  intros message Hall. destruct (closing s); [reflexivity|].
  destruct (dm_messageType message); try reflexivity.
  all: rewrite app_assoc in Hall; apply Forall_app in Hall; destruct Hall as [Hans Hformer].
  all: assert (forall ty l,
                 Forall (fun r => endsWith (name r) MATTER_SERVICE_QNAME = false
                                  /\ endsWith (name r) MATTER_COMMISSION_SERVICE_QNAME = false)
                   l ->
                 List.find (isOperational ty) l = None) as Hfind
         by (intros ty l Hl; apply find_none_Forall;
             eapply Forall_impl; [|exact Hl];
             intros r [Hr _]; unfold isOperational; rewrite Hr; apply andb_false_r).
  all: assert (forall l,
                 Forall (fun r => endsWith (name r) MATTER_SERVICE_QNAME = false
                                  /\ endsWith (name r) MATTER_COMMISSION_SERVICE_QNAME = false)
                   l ->
                 filter isCommissionable l = []) as Hfilter
         by (intros l Hl; apply filter_none_Forall;
             eapply Forall_impl; [|exact Hl]; intros r [_ Hr]; exact Hr).
  all: unfold handleOperationalRecords;
    rewrite !(Hfind _ _ Hans), (Hfind _ _ Hformer);
    unfold handleCommissionableRecords, commissionableRecordsOf;
    now rewrite (Hfilter _ Hans), (Hfilter _ Hformer).
Qed.

(** ** TXT items *)

Local Open Scope string_scope.

Lemma includes_In (l : list string) (x : string) :
  includes l x = true -> In x l.
Proof using Type.
  unfold includes. intros H. apply existsb_exists in H.
  destruct H as (y & Hy & H). apply String.eqb_eq in H. now subst.
Qed.

Lemma spreadData_empty (r : DiscoveryData) : spreadData r emptyDiscoveryData = r.
Proof using Type. now destruct r. Qed.

Lemma spreadData_assoc (a b c : DiscoveryData) :
  spreadData (spreadData a b) c = spreadData a (spreadData b c).
Proof using Type.
  destruct a, b, c. unfold spreadData. simpl. f_equal;
    repeat match goal with
           | |- context [match ?x with Some _ => _ | None => _ end] => destruct x
           end; reflexivity.
Qed.

(** One item read into a result is the result with the item's own
    reading spread over it. *)
Lemma parseTxtItem_spread (r : DiscoveryData) (item : string) :
  parseTxtItem r item = spreadData r (parseTxtItem emptyDiscoveryData item).
Proof using Type.
  unfold parseTxtItem.
  destruct (nth_error (split "=" item) 0) as [key|];
    [|now rewrite spreadData_empty].
  destruct (nth_error (split "=" item) 1) as [val|];
    [|now rewrite spreadData_empty].
  destruct (includes ["SII"; "SAI"; "SAT"; "T"; "D"; "CM"; "DT"; "PH"; "ICD"] key) eqn:E1.
  - destruct (parseInt val) as [intValue|]; [|now rewrite spreadData_empty].
    apply includes_In in E1. simpl in E1.
    repeat (destruct E1 as [<-|E1]; [now destruct r|]). destruct E1.
  - destruct (includes ["VP"; "DN"; "RI"; "PI"] key) eqn:E2;
      [|now rewrite spreadData_empty].
    apply includes_In in E2. simpl in E2.
    repeat (destruct E2 as [<-|E2]; [now destruct r|]). destruct E2.
Qed.

Lemma parseTxtItems_spread (items : list string) :
  forall r,
    fold_left parseTxtItem items r
    = spreadData r (fold_left parseTxtItem items emptyDiscoveryData).
Proof using Type.
  induction items as [|item items IH]; intros r; cbn [fold_left].
  - now rewrite spreadData_empty.
  - rewrite IH, (IH (parseTxtItem emptyDiscoveryData item)), <- spreadData_assoc.
    now rewrite <- parseTxtItem_spread.
Qed.

(** The reading of a TXT record is the reading of its first items with
    the reading of the items that follow spread over it: a key that
    occurs again takes the later value, and the keys the later items do
    not set keep the earlier one. *)
Theorem parseTxtRecord_append (n : string) (ty : DnsRecordType) (cls ttl' : Z)
    (items1 items2 : list string) :
  let txtRecord items :=
    {| name := n; recordType := ty; recordClass := cls; ttl := ttl';
       value := TxtValue items |} in
  parseTxtRecord (txtRecord (items1 ++ items2)%list)
  = spreadData (parseTxtRecord (txtRecord items1)) (parseTxtRecord (txtRecord items2)).
Proof using Type.
  cbv zeta. unfold parseTxtRecord. cbn [value].
  now rewrite fold_left_app, parseTxtItems_spread.
Qed.

Local Close Scope string_scope.

(** ** Splitting strings *)

Lemma split_no_separator (c : ascii) (s : string) :
  indexOf c s = None -> split c s = [s].
Proof using Type.
  induction s as [|a s IH]; simpl; auto.
  destruct (Ascii.eqb a c); [discriminate|].
  destruct (indexOf c s); [discriminate|]. intros _. now rewrite IH.
Qed.

Lemma split_at_separator (c : ascii) (k rest : string) :
  indexOf c k = None ->
  split c (k ++ String c rest) = k :: split c rest.
Proof using Type.
  induction k as [|a k IH]; simpl.
  - intros _. now rewrite Ascii.eqb_refl.
  - destruct (Ascii.eqb a c); [discriminate|].
    destruct (indexOf c k); [discriminate|]. intros _. now rewrite IH.
Qed.

Lemma indexOf_at_separator (c : ascii) (k rest : string) :
  indexOf c k = None ->
  indexOf c (k ++ String c rest) = Some (String.length k).
Proof using Type.
  induction k as [|a k IH]; simpl.
  - intros _. now rewrite Ascii.eqb_refl.
  - destruct (Ascii.eqb a c); [discriminate|].
    destruct (indexOf c k); [discriminate|]. intros _. now rewrite IH.
Qed.

Lemma substring_prefix_app (k rest : string) :
  String.substring 0 (String.length k) (k ++ rest) = k.
Proof using Type.
  induction k as [|a k IH]; simpl.
  - now destruct rest.
  - now rewrite IH.
Qed.

Lemma indexOf_substring (c : ascii) (s : string) :
  forall n, indexOf c s = Some n ->
    indexOf c (String.substring 0 n s) = None
    /\ String.prefix (String.substring 0 n s) s = true.
Proof using Type.
  induction s as [|a s IH]; simpl; [discriminate|].
  intros n. destruct (Ascii.eqb a c) eqn:E.
  - intros H. inversion H. simpl. auto.
  - destruct (indexOf c s) as [m|]; [|discriminate]. simpl.
    intros H. inversion H. simpl. rewrite E.
    destruct (IH m eq_refl) as [-> ->]. split; auto.
    now destruct (ascii_dec a a).
Qed.

Lemma prefix_refl (s : string) : String.prefix s s = true.
Proof using Type.
  induction s as [|a s IH]; simpl; auto. now destruct (ascii_dec a a).
Qed.

Local Open Scope string_scope.

(** [extractInstanceId] gives the first label of a name: what stands
    before the first dot, or the whole name when it has no dot.  The
    result has no dot, begins the name, and is not changed by a second
    extraction. *)
Theorem extractInstanceId_first_label :
  (forall label rest,
      indexOf "." label = None ->
      extractInstanceId (label ++ "." ++ rest) = label)
  /\ (forall instanceName,
        indexOf "." instanceName = None -> extractInstanceId instanceName = instanceName)
  /\ (forall instanceName, indexOf "." (extractInstanceId instanceName) = None)
  /\ (forall instanceName,
        startsWith instanceName (extractInstanceId instanceName) = true)
  /\ (forall instanceName,
        extractInstanceId (extractInstanceId instanceName)
        = extractInstanceId instanceName).
Proof using Type.
  assert (forall instanceName, indexOf "." (extractInstanceId instanceName) = None) as Hdot.
  { intros n. unfold extractInstanceId.
    destruct (indexOf "." n) as [i|] eqn:E; auto.
    now destruct (indexOf_substring "." n E). }
  assert (forall instanceName,
             indexOf "." instanceName = None -> extractInstanceId instanceName = instanceName)
    as Hnone.
  { intros n H. unfold extractInstanceId. now rewrite H. }
  split.
  { intros label rest H. unfold extractInstanceId.
    change ("." ++ rest) with (String "." rest).
    rewrite (@indexOf_at_separator "." label rest H). apply substring_prefix_app. }
  split; [exact Hnone|]. split; [exact Hdot|]. split.
  - intros n. unfold startsWith, extractInstanceId.
    destruct (indexOf "." n) as [i|] eqn:E.
    + now destruct (indexOf_substring "." n E).
    + apply prefix_refl.
  - intros n. apply Hnone. apply Hdot.
Qed.

(** How [parseTxtRecord] reads one item: an item without "=" is skipped;
    so is an item whose key is none of the thirteen keys, and an item of
    a numeric key whose value [parseInt] cannot read; and a value ends at
    the next "=", what follows is dropped. *)
Theorem parseTxtItem_shapes (result : DiscoveryData) :
  (forall item, indexOf "=" item = None -> parseTxtItem result item = result)
  /\ (forall key rest,
        indexOf "=" key = None ->
        includes ["SII"; "SAI"; "SAT"; "T"; "D"; "CM"; "DT"; "PH"; "ICD"] key = false ->
        includes ["VP"; "DN"; "RI"; "PI"] key = false ->
        parseTxtItem result (key ++ "=" ++ rest) = result)
  /\ (forall key val,
        indexOf "=" key = None ->
        indexOf "=" val = None ->
        includes ["SII"; "SAI"; "SAT"; "T"; "D"; "CM"; "DT"; "PH"; "ICD"] key = true ->
        parseInt val = None ->
        parseTxtItem result (key ++ "=" ++ val) = result)
  /\ (forall key val rest,
        indexOf "=" key = None ->
        indexOf "=" val = None ->
        parseTxtItem result (key ++ "=" ++ val ++ "=" ++ rest)
        = parseTxtItem result (key ++ "=" ++ val)).
Proof using Type.
  split.
  { intros item H. unfold parseTxtItem. now rewrite (@split_no_separator "=" item H). }
  split.
  { intros key rest H H1 H2. unfold parseTxtItem.
    change ("=" ++ rest) with (String "=" rest).
    rewrite (@split_at_separator "=" key rest H). cbn [nth_error].
    destruct (split "=" rest); cbn [nth_error]; auto. now rewrite H1, H2. }
  split.
  { intros key val H Hval H1 Hnan. unfold parseTxtItem.
    change ("=" ++ val) with (String "=" val).
    rewrite (@split_at_separator "=" key val H), (@split_no_separator "=" val Hval).
    cbn [nth_error]. now rewrite H1, Hnan. }
  intros key val rest H Hval. unfold parseTxtItem.
  change ("=" ++ val ++ "=" ++ rest) with (String "=" (val ++ String "=" rest)).
  change ("=" ++ val) with (String "=" val).
  rewrite (@split_at_separator "=" key _ H), (@split_at_separator "=" key val H),
    (@split_at_separator "=" val rest Hval), (@split_no_separator "=" val Hval).
  reflexivity.
Qed.

Local Close Scope string_scope.

(** ** Looking up what a TXT record stored *)

Lemma JsMap_set_In (X : Type) (k : string) (v : X) (m : JsMap.t X) :
  In (k, v) (JsMap.set k v m).
Proof using Type.
  induction m as [|[k' v'] m IH]; simpl; auto.
  destruct (String.eqb_spec k' k) as [->|Hne]; simpl; auto.
Qed.

Lemma getCommissionableDeviceRecords_In (s : MdnsScanner)
    (identifier : CommissionableDeviceIdentifiers) (k : string)
    (record : CommissionableDeviceRecordWithExpire) :
  In (k, record) (commissionableDeviceRecords s) ->
  matchesIdentifier identifier record = true ->
  exists device,
    In device (getCommissionableDeviceRecords s identifier) /\ cd_record device = record.
Proof using Type.
  intros Hin Hmatch. unfold getCommissionableDeviceRecords.
  exists {| cd_record := record;
            cd_addresses :=
              map toServerAddressIp
                (sortServerEntries (JsMap.values (addresses record))) |}.
  split; [|reflexivity].
  apply in_map_iff. exists record. split; [reflexivity|].
  apply filter_In. split; auto.
  unfold JsMap.values. apply in_map_iff. exists (k, record). auto.
Qed.

(** The record a commissionable TXT record leaves in the cache. *)
Lemma commissionableTxtStep_record (now : Z) (s : MdnsScanner) (missing : list string)
    (record : DnsRecord) (items : list string) (d cm : Z) :
  ttl record <> 0%Z ->
  value record = TxtValue items ->
  D (parseTxtRecord record) = Some d ->
  CM (parseTxtRecord record) = Some cm ->
  In (name record,
      {| instanceId := extractInstanceId (name record);
         deviceIdentifier := extractInstanceId (name record);
         addresses := match JsMap.get (name record) (commissionableDeviceRecords s) with
                      | Some old => addresses old
                      | None => JsMap.empty
                      end;
         expires := (now + ttl record * 1000)%Z;
         SD := Some (js_and (js_shr d 8) 15);
         V := match VP (parseTxtRecord record) with
              | Some vp => option_map parseInt (nth_error (split "+" vp) 0)
              | None => None
              end;
         P := match VP (parseTxtRecord record) with
              | Some vp => option_map parseInt (nth_error (split "+" vp) 1)
              | None => None
              end;
         data := parseTxtRecord record |})
     (commissionableDeviceRecords (fst (commissionableTxtStep now (s, missing) record))).
Proof using Type.
  intros Httl Hv HD HCM. unfold commissionableTxtStep.
  destruct (ttl record =? 0)%Z eqn:E; [apply Z.eqb_eq in E; contradiction|].
  unfold parseCommissionableTxtRecord. rewrite Hv, HD, HCM.
  cbn [data SD V P addresses expires]. rewrite HD.
  destruct (VP (parseTxtRecord record));
    cbn [fst with_commissionable commissionableDeviceRecords];
    destruct (JsMap.get (name record) (commissionableDeviceRecords s));
    apply JsMap_set_In.
Qed.

(** A commissionable TXT record with D and CM (and [ttl <> 0]) makes the
    device one that [getCommissionableDeviceRecords] returns: for its
    instance id, for its long discriminator D, for the short
    discriminator in bits 8 to 11 of D, for its device type when the
    record has DT, for the vendor and the product id that [parseInt]
    reads from the two parts of VP, and, when CM is 1 or 2, for the empty
    identifier. *)
Theorem commissionable_txt_is_found (now : Z) (s : MdnsScanner) (missing : list string)
    (record : DnsRecord) (items : list string) (d cm : Z) :
  ttl record <> 0%Z ->
  value record = TxtValue items ->
  D (parseTxtRecord record) = Some d ->
  CM (parseTxtRecord record) = Some cm ->
  let s' := fst (commissionableTxtStep now (s, missing) record) in
  let found identifier :=
    exists device,
      In device (getCommissionableDeviceRecords s' identifier)
      /\ instanceId (cd_record device) = extractInstanceId (name record)
      /\ data (cd_record device) = parseTxtRecord record in
  found (ByInstanceId (extractInstanceId (name record)))
  /\ found (ByLongDiscriminator d)
  /\ found (ByShortDiscriminator ((d / 256) mod 16))
  /\ (forall dt, DT (parseTxtRecord record) = Some dt -> found (ByDeviceType dt))
  /\ (forall vp part v,
        VP (parseTxtRecord record) = Some vp ->
        nth_error (split "+" vp) 0 = Some part ->
        parseInt part = Some v ->
        found (ByVendorId v))
  /\ (forall vp part p,
        VP (parseTxtRecord record) = Some vp ->
        nth_error (split "+" vp) 1 = Some part ->
        parseInt part = Some p ->
        found (ByProductId p))
  /\ (cm = 1%Z \/ cm = 2%Z -> found ByNothing).
Proof using Type.
  intros Httl Hv HD HCM. cbv zeta.
  pose proof (commissionableTxtStep_record now s missing record Httl Hv HD HCM) as Hin.
  assert (forall identifier,
             matchesIdentifier identifier
               {| instanceId := extractInstanceId (name record);
                  deviceIdentifier := extractInstanceId (name record);
                  addresses := match JsMap.get (name record) (commissionableDeviceRecords s) with
                               | Some old => addresses old
                               | None => JsMap.empty
                               end;
                  expires := (now + ttl record * 1000)%Z;
                  SD := Some (js_and (js_shr d 8) 15);
                  V := match VP (parseTxtRecord record) with
                       | Some vp => option_map parseInt (nth_error (split "+" vp) 0)
                       | None => None
                       end;
                  P := match VP (parseTxtRecord record) with
                       | Some vp => option_map parseInt (nth_error (split "+" vp) 1)
                       | None => None
                       end;
                  data := parseTxtRecord record |} = true ->
             exists device,
               In device
                 (getCommissionableDeviceRecords
                    (fst (commissionableTxtStep now (s, missing) record)) identifier)
               /\ instanceId (cd_record device) = extractInstanceId (name record)
               /\ data (cd_record device) = parseTxtRecord record) as Hfound.
  { intros identifier Hmatch.
    destruct (getCommissionableDeviceRecords_In _ identifier _ _ Hin Hmatch)
      as (device & Hdev & Hrec).
    exists device. rewrite Hrec. auto. }
  repeat split.
  - apply Hfound. simpl. apply String.eqb_refl.
  - apply Hfound. simpl. rewrite HD. simpl. apply Z.eqb_refl.
  - apply Hfound. simpl. rewrite shortDiscriminator_bits. apply Z.eqb_refl.
  - intros dt Hdt. apply Hfound. simpl. rewrite Hdt. simpl. apply Z.eqb_refl.
  - intros vp part v Hvp Hpart Hv'. apply Hfound. unfold matchesIdentifier. cbn [V].
    rewrite Hvp, Hpart. cbn [option_map]. rewrite Hv'. apply Z.eqb_refl.
  - intros vp part p Hvp Hpart Hp. apply Hfound. unfold matchesIdentifier. cbn [P].
    rewrite Hvp, Hpart. cbn [option_map]. rewrite Hp. apply Z.eqb_refl.
  - intros Hcm. apply Hfound. simpl. rewrite HCM. simpl.
    destruct Hcm as [-> | ->]; reflexivity.
Qed.

(** An SRV record (with [ttl <> 0]) that comes without an address
    record for its target, for a device without cached address: the
    caches, the waiters and the resolved promises stay as they are.
    Without a waiter for the device nothing happens at all; with one,
    the query under the device's name is set to the address queries for
    the target (AAAA, and A when IPv4 is enabled) with the records of the
    message as known answers, so that the SRV query that
    [findOperationalDevice] registered is replaced, and a send is
    scheduled at once. *)
Theorem operational_srv_without_addresses (now : Z) (s : MdnsScanner)
    (record : DnsRecord) (answers formerAnswers : list DnsRecord)
    (netInterface : string) (priority weight port' : Z) (target : string) :
  ttl record <> 0%Z ->
  value record = SrvValue priority weight port' target ->
  handleIpRecords s (answers ++ formerAnswers) target netInterface = [] ->
  (forall device,
      JsMap.get (name record) (operationalDeviceRecords s) = Some device ->
      op_addresses device = []) ->
  let s' := handleOperationalSrvRecord now s record answers formerAnswers netInterface in
  operationalDeviceRecords s' = operationalDeviceRecords s
  /\ recordWaiters s' = recordWaiters s
  /\ events s' = events s
  /\ (hasWaiter s (name record) = false -> s' = s)
  /\ (hasWaiter s (name record) = true ->
      s' = setQueryRecords s (name record) (ipQueries s target) answers)
  /\ (hasWaiter s (name record) = true ->
      JsMap.get (name record) (activeAnnounceQueries s)
      = Some {| aq_queries := [{| q_name := name record; q_recordType := SRV;
                                  q_recordClass := IN; uniCastResponse := false |}];
                aq_answers := [] |} ->
      JsMap.get (name record) (activeAnnounceQueries s')
      = Some {| aq_queries := ipQueries s target; aq_answers := answers |}
      /\ queryTimer s' = Some 0%Q
      /\ nextAnnounceIntervalSeconds s' = START_ANNOUNCE_INTERVAL_SECONDS).
Proof using Type.
  intros Httl Hv Hips Hempty. cbv zeta.
  assert (handleOperationalSrvRecord now s record answers formerAnswers netInterface
          = if hasWaiter s (name record)
            then setQueryRecords s (name record) (ipQueries s target) answers
            else s) as ->.
  { unfold handleOperationalSrvRecord.
    destruct (ttl record =? 0)%Z eqn:E; [apply Z.eqb_eq in E; contradiction|].
    rewrite Hv, Hips. cbn [fold_left].
    destruct (JsMap.get (name record) (operationalDeviceRecords s)) as [device|] eqn:Eget.
    - now rewrite (Hempty device eq_refl).
    - reflexivity. }
  destruct (hasWaiter s (name record)) eqn:Ew.
  - pose proof (setQueryRecords_frame s (name record) (ipQueries s target) answers)
      as (Hops & _ & Hw & _ & _ & Hev).
    cbv zeta in Hops, Hw, Hev.
    split; [exact Hops|]. split; [exact Hw|]. split; [exact Hev|].
    split; [discriminate|]. split; [reflexivity|].
    intros _ Hquery.
    assert (exists x l,
               filter (fun query =>
                         negb (existsb (fun existingQuery => sameQuery existingQuery query)
                                 [{| q_name := name record; q_recordType := SRV;
                                     q_recordClass := IN; uniCastResponse := false |}]))
                 (ipQueries s target) = x :: l) as (x & l & Hnew).
    { unfold ipQueries. cbn [filter existsb]. unfold sameQuery at 1.
      cbn [q_recordType DnsRecordType_eqb q_name q_recordClass].
      rewrite andb_false_r. cbn [andb orb negb]. eauto. }
    unfold setQueryRecords. rewrite Hquery. cbn [aq_queries aq_answers].
    rewrite Hnew. cbn [with_queries activeAnnounceQueries queryTimer
      nextAnnounceIntervalSeconds app].
    split; [apply JsMap_get_set_same | split; reflexivity].
  - split; [reflexivity|]. split; [reflexivity|]. split; [reflexivity|].
    split; [reflexivity|]. split; discriminate.
Qed.

(** ** The callback of a continuous discovery *)

Lemma reportOnce_spec (l : list CommissionableDevice) :
  forall seen,
    let reported := map (fun d => deviceIdentifier (cd_record d)) (reportOnce seen l) in
    NoDup reported
    /\ (forall i, In i reported -> ~ In i seen)
    /\ (forall d, In d (reportOnce seen l) -> In d l)
    /\ (forall d, In d l ->
          In (deviceIdentifier (cd_record d)) seen
          \/ In (deviceIdentifier (cd_record d)) reported).
Proof using Type. statement_only.
  induction l as [|d l IH]; intros seen; cbv zeta.
  - simpl. repeat split; try tauto. constructor.
  - cbn [reportOnce].
    destruct (existsb (String.eqb (deviceIdentifier (cd_record d))) seen) eqn:E.
    + destruct (IH seen) as (H1 & H2 & H3 & H4).
      split; [exact H1|]. split; [exact H2|]. split.
      * intros d' Hd'. right. auto.
      * intros d' [<-|Hd']; auto.
        left. apply existsb_exists in E. destruct E as (x & Hx & E).
        apply String.eqb_eq in E. now subst.
    + destruct (IH (deviceIdentifier (cd_record d) :: seen)) as (H1 & H2 & H3 & H4).
      cbn [map]. split.
      { constructor; auto. intros Hin. apply (H2 _ Hin). now left. }
      split.
      { intros i [<-|Hi].
        - intros Hin. assert (existsb (String.eqb (deviceIdentifier (cd_record d))) seen
                              = true) as E'
            by (apply existsb_exists; exists (deviceIdentifier (cd_record d));
                split; [exact Hin | apply String.eqb_refl]).
          congruence.
        - intros Hin. apply (H2 _ Hi). now right. }
      split.
      { intros d' [<-|Hd']; [now left | right; auto]. }
      intros d' [<-|Hd']; [right; now left|].
      destruct (H4 d' Hd') as [[Heq|Hs]|Hr]; auto.
      * right. left. exact Heq.
      * right. right. exact Hr.
Qed.

(** The callback of [findCommissionableDevicesContinuously] sees cached
    records that match the identifier, one for every device identifier
    among them and none twice. *)
Theorem continuous_discovery_reports_once (s : MdnsScanner)
    (identifier : CommissionableDeviceIdentifiers) (remainingTime : Z) :
  exists s' reported next,
    findCommissionableDevicesContinuously s identifier remainingTime
    = Done s' (reported, next)
    /\ NoDup (map (fun d => deviceIdentifier (cd_record d)) reported)
    /\ (forall d, In d reported -> In d (getCommissionableDeviceRecords s identifier))
    /\ (forall d, In d (getCommissionableDeviceRecords s identifier) ->
          exists d', In d' reported
                     /\ deviceIdentifier (cd_record d') = deviceIdentifier (cd_record d)).
Proof using Type.
  unfold findCommissionableDevicesContinuously.
  set (queryId := buildCommissionableQueryIdentifier identifier).
  set (s1 := setQueryRecords s queryId (getCommissionableQueryRecords identifier) []).
  assert (getCommissionableDeviceRecords s1 identifier
          = getCommissionableDeviceRecords s identifier) as Hsame.
  { apply getCommissionableDeviceRecords_cache.
    now destruct (setQueryRecords_frame s queryId
                    (getCommissionableQueryRecords identifier) []) as (_ & H & _). }
  destruct (reportOnce_spec (getCommissionableDeviceRecords s1 identifier) [])
    as (H1 & _ & H3 & H4).
  rewrite Hsame in *.
  assert (forall d, In d (getCommissionableDeviceRecords s identifier) ->
            exists d', In d' (reportOnce [] (getCommissionableDeviceRecords s identifier))
                       /\ deviceIdentifier (cd_record d') = deviceIdentifier (cd_record d))
    as Hall.
  { intros d Hd. destruct (H4 d Hd) as [[]|Hin].
    apply in_map_iff in Hin. destruct Hin as (d' & Heq & Hd'). eauto. }
  destruct (remainingTime <=? 0)%Z; do 3 eexists; (split; [reflexivity|]); auto.
Qed.

(** ** An SRV record for a commissionable device *)

(** [findCommissionableQueryIdentifier] reads the flag [closing], the
    active queries and the fields D, SD, V, DT and P of the record. *)
Lemma findCommissionableQueryIdentifier_congr (s s1 : MdnsScanner) (instanceName : string)
    (r r1 : CommissionableDeviceRecordWithExpire) :
  closing s1 = closing s ->
  activeAnnounceQueries s1 = activeAnnounceQueries s ->
  data r1 = data r -> SD r1 = SD r -> V r1 = V r -> P r1 = P r ->
  findCommissionableQueryIdentifier s1 instanceName r1
  = match findCommissionableQueryIdentifier s instanceName r with
    | Done _ q => Done s1 q
    | Threw _ e => Threw s1 e
    end.
Proof using Type.
  intros Hc Ha Hd Hsd Hv Hp. unfold findCommissionableQueryIdentifier.
  rewrite Hc, Ha, Hd, Hsd, Hv, Hp. destruct (closing s); [reflexivity|].
  repeat match goal with
         | |- (if ?b then _ else _) = _ => destruct b; [reflexivity|]
         | |- match ?o with Some _ => _ | None => _ end = _ => destruct o
         | |- match ?o with inl _ => _ | inr _ => _ end = _ =>
             destruct o; [reflexivity|]
         end; try reflexivity;
  repeat match goal with
         | |- (if ?b then _ else _) = _ => destruct b; [reflexivity|]
         | |- match ?o with Some _ => _ | None => _ end = _ => destruct o
         | |- match ?o with inl _ => _ | inr _ => _ end = _ =>
             destruct o; [reflexivity|]
         end; reflexivity.
Qed.

(** An SRV record (with [ttl <> 0]) for a cached commissionable device
    that comes with address records for its target, none of them a
    goodbye, when the record belongs to an active query: the cached
    record gets the addresses and keeps its other fields; the instance
    is no longer one to ask more data for; no query is added; and the
    waiter of the query is resolved and removed when the record had no
    address before or the waiter resolves on updated records, and kept
    otherwise. *)
Theorem commissionable_srv_completes_discovery (now : Z) (s : MdnsScanner)
    (queryMissingDataForInstances : list string)
    (record : DnsRecord) (answers formerAnswers : list DnsRecord)
    (netInterface : string) (priority weight port' : Z) (target queryId : string)
    (stored : CommissionableDeviceRecordWithExpire) :
  JsMap.get (name record) (commissionableDeviceRecords s) = Some stored ->
  ttl record <> 0%Z ->
  value record = SrvValue priority weight port' target ->
  handleIpRecords s (answers ++ formerAnswers) target netInterface <> [] ->
  Forall (fun r => ip_ttl r <> 0%Z)
    (handleIpRecords s (answers ++ formerAnswers) target netInterface) ->
  findCommissionableQueryIdentifier s (name record) stored = Done s (Some queryId) ->
  exists s',
    commissionableSrvStep now answers formerAnswers netInterface s
      queryMissingDataForInstances record
    = Done s' (setDelete (name record) queryMissingDataForInstances)
    /\ (exists stored',
           JsMap.get (name record) (commissionableDeviceRecords s') = Some stored'
           /\ addresses stored' <> []
           /\ cr_withAddresses stored' (addresses stored) = stored)
    /\ activeAnnounceQueries s' = activeAnnounceQueries s
    /\ match JsMap.get queryId (recordWaiters s) with
       | Some w =>
           if negb (JsMap.size (addresses stored) =? 0)%nat
              && negb (resolveOnUpdatedRecords w)
           then recordWaiters s' = recordWaiters s /\ events s' = events s
           else hasWaiter s' queryId = false
                /\ events s' = events s ++ [Resolved queryId]
       | None => recordWaiters s' = recordWaiters s /\ events s' = events s
       end.
Proof using Type.
  intros Hget Httl Hv Hips Hall Hfind. unfold commissionableSrvStep.
  rewrite Hget.
  destruct (ttl record =? 0)%Z eqn:E; [apply Z.eqb_eq in E; contradiction|].
  rewrite Hv.
  set (ips := handleIpRecords s (answers ++ formerAnswers) target netInterface) in *.
  set (addrs := fold_left (updateAddress now port' (fun k _ => k)) ips (addresses stored)).
  assert (addrs <> []) as Haddrs by (now apply updateAddress_fold_nonempty).
  set (stored' := {| instanceId := instanceId stored;
                     deviceIdentifier := deviceIdentifier stored;
                     addresses := addrs; expires := expires stored;
                     SD := SD stored; V := V stored; P := P stored;
                     data := data stored |}).
  set (s1 := with_commissionable s
               (JsMap.set (name record) stored' (commissionableDeviceRecords s))).
  destruct addrs as [|a addrs'] eqn:Ea; [congruence|]. cbn [JsMap.size length].
  rewrite (@findCommissionableQueryIdentifier_congr s s1 (name record) stored stored')
    by reflexivity.
  rewrite Hfind. cbn [bind].
  set (recordExisting := match JsMap.size (addresses stored) with
                         | O => false
                         | S _ => true
                         end).
  assert (recordExisting = negb (JsMap.size (addresses stored) =? 0)%nat) as Hex
    by (unfold recordExisting; now destruct (JsMap.size (addresses stored))).
  exists (finishWaiter s1 queryId true recordExisting). split; [reflexivity|].
  pose proof (finishWaiter_frame s1 queryId true recordExisting)
    as (_ & Hcomm & Hq & _).
  cbv zeta in Hcomm, Hq.
  split.
  { exists stored'. rewrite Hcomm. split; [|split].
    - unfold s1. simpl. apply JsMap_get_set_same.
    - discriminate.
    - unfold cr_withAddresses, stored'. simpl. now destruct stored. }
  split; [rewrite Hq; reflexivity|].
  change (recordWaiters s) with (recordWaiters s1).
  change (events s) with (events s1). rewrite <- Hex.
  destruct (JsMap.get queryId (recordWaiters s1)) as [w|] eqn:Ew.
  - destruct (recordExisting && negb (resolveOnUpdatedRecords w)) eqn:Eupd.
    + unfold finishWaiter. rewrite Ew, Eupd. auto.
    + destruct (@finishWaiter_resolved s1 queryId w true _ Ew Eupd)
        as (He & Hgone & _). auto.
  - unfold finishWaiter. rewrite Ew. auto.
Qed.

(* ================================================================== *)
(** * Further properties of the responder *)

(** ** What a response holds *)

(** When [netInterface] last saw the record multicast, 0 if never. *)
Definition lastMulticast (srv : MdnsServer) (netInterface : string) (answer : DnsRecord)
    : Z :=
  match JsMap.get (buildDnsRecordKey answer netInterface)
          (recordLastSentAsMulticastAnswer srv) with
  | Some t => t
  | None => 0%Z
  end.

(** The additional records a record set offers for the questions. *)
Definition candidateAdditionalRecords (qs : list DnsQuery) (portRecords : list DnsRecord)
    : list DnsRecord :=
  if existsb (fun query =>
                negb (DnsRecordType_eqb (q_recordType query) A)
                && negb (DnsRecordType_eqb (q_recordType query) AAAA)) qs
  then filter (fun record =>
                 negb (existsb (DnsRecord_eqb record) (candidateAnswers qs portRecords))
                 && negb (DnsRecordType_eqb (recordType record) PTR)) portRecords
  else [].

Definition stampMulticast (now : Z) (netInterface : string) (sent : list DnsRecord)
    (m : JsMap.t Z) : JsMap.t Z :=
  fold_left (fun m answer => JsMap.set (buildDnsRecordKey answer netInterface) now m)
            sent m.

Lemma buildResponse_inv (now : Z) (srv srv' : MdnsServer) (netInterface : string)
    (qs : list DnsQuery) (knownAnswers portRecords : list DnsRecord) (r : ResponseData) :
  buildResponse now srv netInterface qs knownAnswers portRecords = Some (r, srv') ->
  let answers1 := suppressKnownAnswers (candidateAnswers qs portRecords) knownAnswers in
  let stale answer :=
    (ttl answer * 250 <? now - lastMulticast srv netInterface answer)%Z in
  rd_additionalRecords r
  = suppressAdditionalRecords (candidateAdditionalRecords qs portRecords) knownAnswers
  /\ rd_answers r <> []
  /\ ((rd_uniCastResponse r = true
       /\ rd_answers r = answers1
       /\ srv' = srv
       /\ forallb uniCastResponse qs = true
       /\ existsb stale answers1 = false)
      \/ (rd_uniCastResponse r = false
          /\ rd_answers r
             = filter (fun answer =>
                         (1000 <? now - lastMulticast srv netInterface answer)%Z) answers1
          /\ srv' = {| recordLastSentAsMulticastAnswer :=
                         stampMulticast now netInterface (rd_answers r)
                           (recordLastSentAsMulticastAnswer srv);
                       server_events := server_events srv |}
          /\ (forallb uniCastResponse qs = false \/ existsb stale answers1 = true))).
Proof using Type.
  unfold buildResponse, candidateAdditionalRecords, stampMulticast.
  fold (candidateAnswers qs portRecords).
  destruct (candidateAnswers qs portRecords) as [|c cs] eqn:Ec; [discriminate|].
  rewrite <- Ec. cbv zeta.
  destruct (suppressKnownAnswers (candidateAnswers qs portRecords) knownAnswers)
    as [|a1 as1] eqn:E1; [discriminate|].
  rewrite <- E1.
  change (fun answer : DnsRecord =>
            (ttl answer * 250 <?
             now - match JsMap.get (buildDnsRecordKey answer netInterface)
                           (recordLastSentAsMulticastAnswer srv) with
                   | Some t => t
                   | None => 0
                   end)%Z)
    with (fun answer : DnsRecord =>
            (ttl answer * 250 <? now - lastMulticast srv netInterface answer)%Z).
  destruct (forallb uniCastResponse qs) eqn:Eu; cbn [andb].
  - destruct (existsb _ (suppressKnownAnswers _ _)) eqn:Es.
    + match goal with
      | |- match ?f with [] => _ | _ :: _ => _ end = _ -> _ =>
          destruct f as [|b bs] eqn:E2
      end; [discriminate|].
      intros H. inversion H; subst; clear H.
      cbn [rd_answers rd_additionalRecords rd_uniCastResponse].
      split; [reflexivity|]. split; [discriminate|]. right.
      rewrite <- E2. repeat split; auto. now rewrite E2.
    + intros H. inversion H; subst; clear H.
      cbn [rd_answers rd_additionalRecords rd_uniCastResponse].
      split; [reflexivity|]. split; [rewrite E1; discriminate|]. left. repeat split; auto.
  - match goal with
    | |- match ?f with [] => _ | _ :: _ => _ end = _ -> _ =>
        destruct f as [|b bs] eqn:E2
    end; [discriminate|].
    intros H. inversion H; subst; clear H.
    cbn [rd_answers rd_additionalRecords rd_uniCastResponse].
    split; [reflexivity|]. split; [discriminate|]. right.
    rewrite <- E2. repeat split; auto. now rewrite E2.
Qed.

Lemma queryRecords_In (q : DnsQuery) (records : list DnsRecord) (x : DnsRecord) :
  In x (queryRecords q records) ->
  In x records /\ name x = q_name q
  /\ (q_recordType q = ANY \/ recordType x = q_recordType q).
Proof using Type.
  unfold queryRecords.
  destruct (q_recordType q) eqn:E; intros H; apply filter_In in H; destruct H as [Hin H];
    try (apply andb_true_iff in H; destruct H as [Hn Ht]);
    try (apply String.eqb_eq in Hn); try (apply String.eqb_eq in H);
    repeat split; auto; right;
    destruct (recordType x); simpl in Ht; congruence.
Qed.

(** The answers of a response answer the questions: each is a record of
    the set with the name of a question and its type, or any type for a
    question of type ANY.  The additional records are records of the set
    that are no PTR record and equal no candidate answer, and there is
    none when every question asks for an A or AAAA record. *)
Theorem response_answers_the_questions (now : Z) (srv srv' : MdnsServer)
    (netInterface : string) (qs : list DnsQuery)
    (knownAnswers portRecords : list DnsRecord) (r : ResponseData) :
  buildResponse now srv netInterface qs knownAnswers portRecords = Some (r, srv') ->
  rd_answers r <> []
  /\ Forall (fun answer =>
               In answer portRecords
               /\ exists query,
                    In query qs /\ name answer = q_name query
                    /\ (q_recordType query = ANY
                        \/ recordType answer = q_recordType query))
       (rd_answers r)
  /\ Forall (fun record =>
               In record portRecords
               /\ recordType record <> PTR
               /\ Forall (fun answer => DnsRecord_eqb record answer = false)
                    (candidateAnswers qs portRecords))
       (rd_additionalRecords r)
  /\ (Forall (fun query => q_recordType query = A \/ q_recordType query = AAAA) qs ->
      rd_additionalRecords r = []).
Proof using Type. statement_only.
  intros H. apply buildResponse_inv in H. cbv zeta in H.
  destruct H as (Hadd & Hne & Hcases).
  assert (forall x, In x (suppressKnownAnswers (candidateAnswers qs portRecords)
                            knownAnswers) ->
            In x portRecords
            /\ exists query,
                 In query qs /\ name x = q_name query
                 /\ (q_recordType query = ANY \/ recordType x = q_recordType query))
    as Hans.
  { intros x Hx. apply suppressKnownAnswers_spec in Hx. destruct Hx as [Hx _].
    unfold candidateAnswers in Hx. apply in_flat_map in Hx.
    destruct Hx as (q & Hq & Hx). apply queryRecords_In in Hx.
    destruct Hx as (Hin & Hn & Ht). eauto. }
  split; [exact Hne|]. split.
  { apply Forall_forall. intros x Hx. apply Hans.
    destruct Hcases as [(_ & Heq & _)|(_ & Heq & _)]; rewrite Heq in Hx; auto.
    apply filter_In in Hx. tauto. }
  split.
  { apply Forall_forall. intros x Hx. rewrite Hadd in Hx.
    apply suppressAdditionalRecords_spec in Hx. destruct Hx as [Hx _].
    unfold candidateAdditionalRecords in Hx.
    destruct (existsb _ qs); [|destruct Hx].
    apply filter_In in Hx. destruct Hx as [Hin Hx].
    apply andb_true_iff in Hx. destruct Hx as [Hnot Hptr].
    split; auto. split.
    - intros Heq. rewrite Heq in Hptr. discriminate.
    - apply Forall_forall. intros a Ha.
      apply negb_true_iff in Hnot.
      destruct (DnsRecord_eqb x a) eqn:E; auto.
      rewrite <- Hnot. symmetry. apply existsb_exists. eauto. }
  intros Hall. rewrite Hadd. unfold candidateAdditionalRecords.
  assert (existsb (fun query =>
                     negb (DnsRecordType_eqb (q_recordType query) A)
                     && negb (DnsRecordType_eqb (q_recordType query) AAAA)) qs = false)
    as ->.
  { apply not_true_is_false. intros Hex. apply existsb_exists in Hex.
    destruct Hex as (q & Hq & Hex). rewrite Forall_forall in Hall.
    destruct (Hall q Hq) as [Ht|Ht]; rewrite Ht in Hex; discriminate. }
  unfold suppressAdditionalRecords. clear. induction knownAnswers; simpl; auto.
Qed.

(** ** Multicast and unicast *)

Lemma stampMulticast_get (now : Z) (netInterface : string) (sent : list DnsRecord)
    (k : string) :
  forall m,
    JsMap.get k (stampMulticast now netInterface sent m)
    = if existsb (fun answer => String.eqb (buildDnsRecordKey answer netInterface) k) sent
      then Some now else JsMap.get k m.
Proof using Type.
  unfold stampMulticast. induction sent as [|a sent IH]; intros m; cbn [fold_left existsb].
  - reflexivity.
  - rewrite IH. destruct (existsb _ sent); [now rewrite orb_true_r|].
    rewrite orb_false_r.
    destruct (String.eqb_spec (buildDnsRecordKey a netInterface) k) as [->|Hne].
    + apply JsMap_get_set_same.
    + now apply JsMap_get_set_other.
Qed.

(** A record is multicast at most once a second.  The answers of a
    multicast response were last multicast on the interface more than
    1000 ms before, and the response stamps them with [now]; the stamps
    of the other records stay.  So a later multicast response on the
    interface, built no more than 1000 ms after, holds none of them. *)
Theorem multicast_rate_limit (now : Z) (srv srv' : MdnsServer)
    (netInterface : string) (qs : list DnsQuery)
    (knownAnswers portRecords : list DnsRecord) (r : ResponseData) :
  buildResponse now srv netInterface qs knownAnswers portRecords = Some (r, srv') ->
  rd_uniCastResponse r = false ->
  Forall (fun answer =>
            (1000 < now - lastMulticast srv netInterface answer)%Z
            /\ lastMulticast srv' netInterface answer = now)
    (rd_answers r)
  /\ (forall k,
        (forall answer, In answer (rd_answers r) ->
                        buildDnsRecordKey answer netInterface <> k) ->
        JsMap.get k (recordLastSentAsMulticastAnswer srv')
        = JsMap.get k (recordLastSentAsMulticastAnswer srv))
  /\ (forall now' qs' knownAnswers' portRecords' r' srv'',
        (now' - now <= 1000)%Z ->
        buildResponse now' srv' netInterface qs' knownAnswers' portRecords'
        = Some (r', srv'') ->
        rd_uniCastResponse r' = false ->
        forall answer, In answer (rd_answers r) -> ~ In answer (rd_answers r')).
Proof using Type.
  intros H Hmulti. apply buildResponse_inv in H. cbv zeta in H.
  destruct H as (_ & _ & [(Hu & _)|(_ & Hans & Hsrv & _)]); [congruence|].
  assert (Forall (fun answer =>
                    (1000 < now - lastMulticast srv netInterface answer)%Z
                    /\ lastMulticast srv' netInterface answer = now) (rd_answers r))
    as Hall.
  { apply Forall_forall. intros a Ha. split.
    - rewrite Hans in Ha. apply filter_In in Ha. destruct Ha as [_ Ha].
      now apply Z.ltb_lt in Ha.
    - unfold lastMulticast. rewrite Hsrv. cbn [recordLastSentAsMulticastAnswer].
      rewrite stampMulticast_get.
      assert (existsb (fun answer =>
                         String.eqb (buildDnsRecordKey answer netInterface)
                           (buildDnsRecordKey a netInterface)) (rd_answers r) = true) as ->
        by (apply existsb_exists; exists a; split; [exact Ha | apply String.eqb_refl]).
      reflexivity. }
  split; [exact Hall|]. split.
  { intros k Hk. rewrite Hsrv. cbn [recordLastSentAsMulticastAnswer].
    rewrite stampMulticast_get.
    assert (existsb (fun answer => String.eqb (buildDnsRecordKey answer netInterface) k)
              (rd_answers r) = false) as ->; [|reflexivity].
    apply not_true_is_false. intros Hex. apply existsb_exists in Hex.
    destruct Hex as (a & Ha & Heq). apply String.eqb_eq in Heq. exact (Hk a Ha Heq). }
  intros now' qs' knownAnswers' portRecords' r' srv'' Hsoon H' Hmulti' a Ha Ha'.
  apply buildResponse_inv in H'. cbv zeta in H'.
  destruct H' as (_ & _ & [(Hu & _)|(_ & Hans' & _)]); [congruence|].
  rewrite Hans' in Ha'. apply filter_In in Ha'. destruct Ha' as [_ Ha'].
  apply Z.ltb_lt in Ha'. rewrite Forall_forall in Hall.
  destruct (Hall a Ha) as [_ Hstamp]. rewrite Hstamp in Ha'. lia.
Qed.

(** A response goes to the sender alone exactly when every question
    asks for a unicast response and every answer left after the
    suppression of the known answers was multicast on the interface
    within a quarter of its ttl.  Such a response holds all of these
    answers and leaves the stamps as they are; its datagrams go to the
    sender's address, those of a multicast response to no address. *)
Theorem unicast_response_when_fresh (now : Z) (srv srv' : MdnsServer)
    (netInterface remoteIp : string) (transactionId' : Z) (qs : list DnsQuery)
    (knownAnswers portRecords : list DnsRecord) (r : ResponseData) :
  buildResponse now srv netInterface qs knownAnswers portRecords = Some (r, srv') ->
  let answers1 := suppressKnownAnswers (candidateAnswers qs portRecords) knownAnswers in
  (rd_uniCastResponse r = true
   <-> Forall (fun query => uniCastResponse query = true) qs
       /\ Forall (fun answer =>
                    (now - lastMulticast srv netInterface answer <= ttl answer * 250)%Z)
            answers1)
  /\ (rd_uniCastResponse r = true -> rd_answers r = answers1 /\ srv' = srv)
  /\ (exists new,
         server_events (respond srv' netInterface remoteIp transactionId' r)
         = server_events srv ++ new
         /\ new <> []
         /\ Forall (fun e => match e with
                             | ServerSent _ netInterface' unicastTarget =>
                                 netInterface' = netInterface
                                 /\ unicastTarget
                                    = if rd_uniCastResponse r then Some remoteIp else None
                             end) new).
Proof using Type. statement_only.
  intros H. cbv zeta.
  assert (server_events srv' = server_events srv) as Hev.
  { pose proof H as H0. apply buildResponse_inv in H0. cbv zeta in H0.
    destruct H0 as (_ & _ & [(_ & _ & -> & _)|(_ & _ & -> & _)]); reflexivity. }
  apply buildResponse_inv in H. cbv zeta in H.
  destruct H as (_ & _ & Hcases).
  assert (forall l,
             existsb (fun answer =>
                        (ttl answer * 250 <? now - lastMulticast srv netInterface answer)%Z) l
             = false
             <-> Forall (fun answer =>
                           (now - lastMulticast srv netInterface answer
                            <= ttl answer * 250)%Z) l) as Hfresh.
  { intros l. induction l as [|a l IH]; simpl.
    - split; auto.
    - rewrite orb_false_iff, IH, Z.ltb_ge. split.
      + intros [H1 H2]. constructor; auto.
      + intros H'. inversion H'; subst. auto. }
  split; [|split].
  - destruct Hcases as [(Hu & _ & _ & Hq & Hs)|(Hu & _ & _ & Hwhy)].
    + split; auto. intros _. split.
      * apply Forall_forall. intros q Hq'. rewrite forallb_forall in Hq. auto.
      * now apply Hfresh.
    + split; [congruence|]. intros [Hq Hf]. exfalso.
      destruct Hwhy as [Hw|Hw].
      * assert (forallb uniCastResponse qs = true) as Hq'
          by (apply forallb_forall; rewrite Forall_forall in Hq; auto).
        congruence.
      * apply Hfresh in Hf. congruence.
  - intros Hu. destruct Hcases as [(_ & Ha & Hs & _)|(Hu' & _)]; [auto | congruence].
  - unfold respond. cbn [server_events]. rewrite Hev.
    eexists. split; [reflexivity|]. split.
    + unfold sendRecords. destruct (flat_map _ _); discriminate.
    + apply Forall_forall. intros e He. apply in_map_iff in He.
      destruct He as (d & <- & _). auto.
Qed.

(** ** Messages the responder has no use for *)

Lemma buildResponse_no_candidate (now : Z) (srv : MdnsServer) (netInterface : string)
    (qs : list DnsQuery) (knownAnswers portRecords : list DnsRecord) :
  candidateAnswers qs portRecords = [] ->
  buildResponse now srv netInterface qs knownAnswers portRecords = None.
Proof using Type.
  intros H. unfold buildResponse. fold (candidateAnswers qs portRecords). now rewrite H.
Qed.

Lemma serverHandlePortRecords_fold_none (now : string -> Z) (message : DnsMessage)
    (remoteIp netInterface : string) (records : JsMap.t (list DnsRecord)) :
  (forall portRecords, In portRecords (JsMap.values records) ->
     candidateAnswers (dm_queries message) portRecords = []) ->
  forall srv,
    fold_left
      (fun acc kv =>
         serverHandlePortRecords (now (fst kv)) message remoteIp netInterface acc (snd kv))
      records srv = srv.
Proof using Type.
  induction records as [|[k portRecords] records IH]; intros Hnone srv;
    cbn [fold_left]; auto.
  unfold serverHandlePortRecords at 2. cbn [fst snd].
  rewrite buildResponse_no_candidate
    by (apply Hnone; unfold JsMap.values; cbn [map snd]; now left).
  apply IH. intros pr Hpr. apply Hnone. unfold JsMap.values. cbn [map]. now right.
Qed.

(** The responder sends nothing and keeps its stamps when it serves no
    record on the interface, when the bytes cannot be parsed, when the
    message is a response, when it has no question, and when no record
    it serves has the name and type of a question. *)
Theorem responder_ignores (now : string -> Z) (srv : MdnsServer)
    (records : JsMap.t (list DnsRecord)) (remoteIp netInterface : string) :
  (forall message,
      serverHandleDnsMessage now srv [] message remoteIp netInterface = srv)
  /\ serverHandleDnsMessage now srv records None remoteIp netInterface = srv
  /\ (forall message,
        dm_messageType message = Response \/ dm_messageType message = TruncatedResponse ->
        serverHandleDnsMessage now srv records (Some message) remoteIp netInterface = srv)
  /\ (forall message,
        dm_queries message = [] ->
        serverHandleDnsMessage now srv records (Some message) remoteIp netInterface = srv)
  /\ (forall message,
        (forall portRecords, In portRecords (JsMap.values records) ->
           candidateAnswers (dm_queries message) portRecords = []) ->
        serverHandleDnsMessage now srv records (Some message) remoteIp netInterface = srv).
Proof using Type.
  unfold serverHandleDnsMessage. split; [reflexivity|].
  split; [now destruct (JsMap.size records)|].
  split.
  { intros message [-> | ->]; now destruct (JsMap.size records). }
  split.
  { intros message ->. destruct (JsMap.size records); auto.
    now destruct (dm_messageType message). }
  intros message Hnone. destruct (JsMap.size records); auto.
  pose proof (serverHandlePortRecords_fold_none now message remoteIp netInterface
                records Hnone srv) as Hfold.
  destruct (dm_messageType message); auto; destruct (dm_queries message); auto.
Qed.

(** ** Announcements *)




(** ** The keys of the record sets *)

Local Open Scope string_scope.

Lemma digits_no_dash (d : Decimal.uint) :
  indexOf "-" (NilEmpty.string_of_uint d) = None.
Proof using Type. induction d; simpl; auto; now rewrite IHd. Qed.

Lemma decimal_no_dash (z : Z) : (0 <= z)%Z -> indexOf "-" (decimal z) = None.
Proof using Type.
  intros H. unfold decimal. destruct z as [|p|p]; [reflexivity| |lia].
  simpl. unfold NilZero.string_of_uint.
  pose proof (digits_no_dash (Pos.to_uint p)) as Hd.
  now destruct (Pos.to_uint p).
Qed.

Lemma decimal_inj (z z' : Z) : decimal z = decimal z' -> z = z'.
Proof using Type.
  unfold decimal. intros H. apply DecimalZ.to_int_inj.
  assert (forall n, Z.to_int n <> Decimal.Pos Decimal.Nil
                    /\ Z.to_int n <> Decimal.Neg Decimal.Nil) as Hnn.
  { intros [|q|q]; simpl; split; try discriminate; intros Heq; inversion Heq as [Hq];
      exact (DecimalPos.Unsigned.to_uint_nonnil q Hq). }
  apply (f_equal NilZero.int_of_string) in H.
  rewrite !NilZero.isi in H by apply Hnn. now inversion H.
Qed.

Lemma prefix_app (s t : string) : String.prefix s (s ++ t) = true.
Proof using Type.
  induction s as [|a s IH]; simpl; [now destruct t|].
  now destruct (ascii_dec a a).
Qed.

Lemma append_assoc' (a b c : string) : (a ++ b) ++ c = a ++ b ++ c.
Proof using Type. induction a as [|x a IH]; simpl; auto. now rewrite IH. Qed.

Lemma append_inj_l (a b c : string) : a ++ b = a ++ c -> b = c.
Proof using Type. induction a as [|x a IH]; simpl; auto. intros H. inversion H. auto. Qed.

Lemma prefix_cons (c c' : ascii) (s1 s2 : string) :
  String.prefix (String c s1) (String c' s2) = true ->
  c = c' /\ String.prefix s1 s2 = true.
Proof using Type.
  cbn [String.prefix]. destruct (ascii_dec c c'); [auto | discriminate].
Qed.

Lemma indexOf_cons_none (c a : ascii) (s : string) :
  indexOf c (String a s) = None -> a <> c /\ indexOf c s = None.
Proof using Type.
  cbn [indexOf]. destruct (Ascii.eqb_spec a c); [discriminate|].
  destruct (indexOf c s); [discriminate | auto].
Qed.

Lemma prefix_up_to_dash (b : string) :
  forall a x,
    indexOf "-" a = None -> indexOf "-" b = None ->
    String.prefix (b ++ "-") (a ++ "-" ++ x) = true -> a = b.
Proof using Type.
  induction b as [|c b IH]; intros a x Ha Hb H.
  - destruct a as [|c' a]; auto.
    apply indexOf_cons_none in Ha. destruct Ha as [Hc _].
    change (("" ++ "-")%string) with (String "-" "") in H.
    change ((String c' a ++ "-" ++ x)%string) with (String c' (a ++ "-" ++ x)) in H.
    apply prefix_cons in H. destruct H as [Heq _]. congruence.
  - apply indexOf_cons_none in Hb. destruct Hb as [Hc Hb].
    change ((String c b ++ "-")%string) with (String c (b ++ "-")) in H.
    destruct a as [|c' a].
    + change (("" ++ "-" ++ x)%string) with (String "-" x) in H.
      apply prefix_cons in H. destruct H as [Heq _]. congruence.
    + apply indexOf_cons_none in Ha. destruct Ha as [Hc' Ha].
      change ((String c' a ++ "-" ++ x)%string) with (String c' (a ++ "-" ++ x)) in H.
      apply prefix_cons in H. destruct H as [-> H].
      f_equal. apply (IH a x); auto.
Qed.

(** [isKeyForPort] knows the keys that [buildTypePortKey] builds for a
    port from those of every other port, and two keys are equal only for
    the same type and port. *)
Theorem port_keys_are_told_apart (type : AnnouncementType) (port : Z) :
  isKeyForPort (buildTypePortKey type port) port = true
  /\ (forall port',
        (0 <= port)%Z -> (0 <= port')%Z ->
        isKeyForPort (buildTypePortKey type port) port' = true -> port' = port)
  /\ (forall type' port',
        (0 <= port)%Z -> (0 <= port')%Z ->
        buildTypePortKey type' port' = buildTypePortKey type port ->
        type' = type /\ port' = port).
Proof using Type.
  assert (forall t p p',
             (0 <= p)%Z -> (0 <= p')%Z ->
             isKeyForPort (buildTypePortKey t p) p' = true -> p' = p) as Hport.
  { intros t p p' Hp Hp' H. unfold isKeyForPort, buildTypePortKey, startsWith in H.
    apply decimal_inj. symmetry.
    apply (@prefix_up_to_dash (decimal p') (decimal p)
             (decimal (announcementTypeNumber t))); auto using decimal_no_dash. }
  assert (forall t p, isKeyForPort (buildTypePortKey t p) p = true) as Hself.
  { intros t p. unfold isKeyForPort, buildTypePortKey, startsWith.
    rewrite <- append_assoc'. apply prefix_app. }
  split; [apply Hself|]. split; [intros port'; apply Hport|].
  intros type' port' Hp Hp' Heq.
  assert (port' = port) as ->.
  { symmetry. apply (Hport type' port' port); auto. rewrite Heq. apply Hself. }
  split; auto. unfold buildTypePortKey in Heq.
  apply append_inj_l in Heq. apply (@append_inj_l "-") in Heq.
  destruct type', type; auto; discriminate.
Qed.

Local Close Scope string_scope.

(* ================================================================== *)
(** * Timers *)

(** ** A TimerNode and the platform *)

(** What holds between a timer and the pending handles of the platform:
    no handle is pending twice, none is beyond the next one to hand out,
    and the timer's handle is pending exactly when the timer runs. *)
Definition timerConsistent (n : NodeTimers) (t : TimerNode) : Prop :=
  NoDup (pending n)
  /\ (forall h, In h (pending n) -> (h < nextHandle n)%nat)
  /\ (if isRunning t
      then exists h, timerId t = Some h /\ In h (pending n)
      else forall h, timerId t = Some h -> ~ In h (pending n)).

Lemma remove_NoDup (h : nat) (l : list nat) :
  NoDup l -> NoDup (List.remove Nat.eq_dec h l).
Proof using Type.
  induction 1 as [|x l Hx Hl IH]; simpl; [constructor|].
  destruct (Nat.eq_dec h x); auto. constructor; auto.
  intros Hin. apply in_remove in Hin. destruct Hin as [Hin _]. contradiction.
Qed.

Lemma remove_length (h : nat) (l : list nat) :
  NoDup l -> In h l -> S (length (List.remove Nat.eq_dec h l)) = length l.
Proof using Type.
  induction 1 as [|x l Hx Hl IH]; simpl; [intros []|].
  destruct (Nat.eq_dec h x) as [->|Hne].
  - intros _. now rewrite notin_remove.
  - intros [Heq|Hin]; [congruence|]. simpl. now rewrite IH.
Qed.

Lemma TimerNode_stop_consistent (n : NodeTimers) (t : TimerNode) :
  timerConsistent n t ->
  timerConsistent (fst (TimerNode_stop n t)) (snd (TimerNode_stop n t)).
Proof using Type. statement_only.
  intros (Hnodup & Hbound & Hrun). unfold TimerNode_stop, clearTimer, timerConsistent.
  cbn [fst snd isRunning timerId].
  destruct (timerId t) as [h|] eqn:Eid; cbn [pending nextHandle].
  - split; [now apply remove_NoDup|]. split.
    + intros h' Hin. apply in_remove in Hin. apply Hbound. tauto.
    + intros h' Heq. inversion Heq; subst. apply remove_In.
  - split; [exact Hnodup|]. split; [exact Hbound|]. discriminate.
Qed.

(** A timer has one pending handle while it runs and none otherwise.
    [start] leaves the timer running with a new handle, and the number of
    pending handles grows by one only when the timer was not running: a
    timer that is started again does not leave its old handle behind.
    [stop] leaves the timer stopped and takes away its handle and no
    other.  When the platform runs a timer's function, a periodic timer
    stays as it is, and another timer is stopped, its handle no longer
    pending. *)
Theorem timer_has_one_pending_handle (n : NodeTimers) (t : TimerNode) :
  timerConsistent n t ->
  (let '(n', t') := TimerNode_start n t in
   timerConsistent n' t'
   /\ isRunning t' = true
   /\ length (pending n')
      = if isRunning t then length (pending n) else S (length (pending n)))
  /\ (let '(n', t') := TimerNode_stop n t in
      timerConsistent n' t'
      /\ isRunning t' = false
      /\ forall h, In h (pending n') <-> In h (pending n) /\ timerId t <> Some h)
  /\ (forall h,
        timerId t = Some h -> isRunning t = true ->
        let '(n', t') := TimerNode_fire n t h in
        timerConsistent n' t'
        /\ isRunning t' = periodic t
        /\ (In h (pending n') <-> periodic t = true)).
Proof using Type. statement_only.
  intros H. pose proof H as (Hnodup & Hbound & Hrun). split; [|split].
  - unfold TimerNode_start.
    pose proof (@TimerNode_stop_consistent n t H) as Hstop.
    assert (forall n1 t1,
               timerConsistent n1 t1 ->
               timerConsistent
                 {| pending := pending n1 ++ [nextHandle n1];
                    nextHandle := S (nextHandle n1) |}
                 {| timerId := Some (nextHandle n1); isRunning := true;
                    intervalMs := intervalMs t1; periodic := periodic t1 |}) as Hnew.
    { intros n1 t1 (Hn1 & Hb1 & _). unfold timerConsistent.
      cbn [pending nextHandle isRunning timerId]. split; [|split].
      - apply NoDup_app; auto.
        + constructor; [intros []|constructor].
        + intros h Hh [<-|[]]. apply Hb1 in Hh. lia.
      - intros h Hh. apply in_app_iff in Hh. destruct Hh as [Hh|[<-|[]]]; [|lia].
        apply Hb1 in Hh. lia.
      - exists (nextHandle n1). split; auto. apply in_app_iff. right. now left. }
    destruct (isRunning t) eqn:Er.
    + unfold TimerNode_stop in *. cbn [fst snd] in Hstop.
      split; [exact (Hnew _ _ Hstop)|]. split; [reflexivity|].
      cbn [pending]. rewrite length_app. cbn [length].
      destruct Hrun as (h & Heq & Hin). rewrite Heq. cbn [clearTimer pending].
      rewrite <- (@remove_length h (pending n) Hnodup Hin). lia.
    + split; [exact (Hnew _ _ H)|]. split; [reflexivity|].
      cbn [pending]. rewrite length_app. cbn [length]. lia.
  - pose proof (@TimerNode_stop_consistent n t H) as Hstop.
    unfold TimerNode_stop in *. cbn [fst snd] in Hstop.
    split; [exact Hstop|]. split; [reflexivity|].
    intros h. unfold clearTimer. destruct (timerId t) as [h0|]; cbn [pending].
    + split.
      * intros Hin. apply in_remove in Hin. split; [tauto|]. intros Heq.
        inversion Heq. subst. tauto.
      * intros [Hin Hne]. apply in_in_remove; auto; congruence.
    + split; [intros Hin; split; [exact Hin | discriminate] | tauto].
  - intros h Hid Her. unfold TimerNode_fire. destruct (periodic t) eqn:Ep.
    + split; [exact H|]. split; [exact Her|].
      rewrite Her in Hrun. destruct Hrun as (h' & Heq & Hin).
      rewrite Hid in Heq. inversion Heq; subst. tauto.
    + split; [|split].
      * unfold timerConsistent. cbn [pending nextHandle isRunning timerId].
        split; [now apply remove_NoDup|]. split.
        -- intros h' Hin. apply in_remove in Hin. apply Hbound. tauto.
        -- intros h' Heq. rewrite Hid in Heq. inversion Heq; subst. apply remove_In.
      * reflexivity.
      * cbn [pending]. split; [|discriminate]. intros Hin.
        exfalso. exact (remove_In _ _ _ Hin).
Qed.

(** ** The delays of the query timer *)

Definition intervalInRange (s : MdnsScanner) : Prop :=
  3 # 2 <= nextAnnounceIntervalSeconds s /\ nextAnnounceIntervalSeconds s <= 3600.

Lemma TimerNode_new_valid (numberToString : Q -> string) (intervalMs' : Q)
    (periodic' : bool) :
  0 <= intervalMs' -> intervalMs' <= 2147483647 ->
  TimerNode_new numberToString intervalMs' periodic'
  = inr {| timerId := None; isRunning := false;
           intervalMs := intervalMs'; periodic := periodic' |}.
Proof using Type.
  intros H0 Hmax. unfold TimerNode_new.
  apply Qle_bool_iff in H0. apply Qle_bool_iff in Hmax. now rewrite H0, Hmax.
Qed.

(** The announce interval stays between 1.5 and 3600 seconds through
    [sendQueries], [setQueryRecords] and [removeQuery], from the scanner's
    first state on; so the delay that [sendQueries] hands to
    [Time.getTimer], at most 3600000 ms, and the delay 0 of
    [setQueryRecords] are delays that the constructor of a [TimerNode]
    accepts, while it refuses a delay below 0 or above 2147483647. *)
Theorem query_timer_delay_is_accepted (numberToString : Q -> string) (s : MdnsScanner) :
  intervalInRange s ->
  intervalInRange (sendQueries s)
  /\ (forall queryId qs ans, intervalInRange (setQueryRecords s queryId qs ans))
  /\ (forall queryId, intervalInRange (removeQuery s queryId))
  /\ (exists timer,
         queryTimer (sendQueries s) = Some (intervalMs timer)
         /\ TimerNode_new numberToString (intervalMs timer) false = inr timer)
  /\ (forall queryId qs ans delay,
        queryTimer (setQueryRecords s queryId qs ans) = Some delay ->
        queryTimer s = Some delay
        \/ TimerNode_new numberToString delay false
           = inr {| timerId := None; isRunning := false;
                    intervalMs := delay; periodic := false |})
  /\ (forall ipv4, intervalInRange (initialScanner ipv4))
  /\ (forall delay periodic',
        delay < 0 \/ 2147483647 < delay ->
        exists message,
          TimerNode_new numberToString delay periodic' = inl (ImplementationError message)).
Proof using Type.
  intros [Hlo Hhi].
  assert (intervalInRange (sendQueries s)) as Hsend.
  { unfold intervalInRange. rewrite sendQueries_interval.
    destruct (Qmin_cases (nextAnnounceIntervalSeconds s * 2) (60 * 60)) as [[H1 H2]|[H1 H2]];
      rewrite H2; split; lra. }
  assert (intervalInRange
            (with_queries s (activeAnnounceQueries s) None START_ANNOUNCE_INTERVAL_SECONDS))
    as Hstart by (unfold intervalInRange, START_ANNOUNCE_INTERVAL_SECONDS; simpl; split; lra).
  split; [exact Hsend|]. split.
  { intros queryId qs ans.
    destruct (setQueryRecords_cases s queryId qs ans) as [->|[ans' ->]].
    - split; assumption.
    - exact Hstart. }
  split.
  { intros queryId. unfold removeQuery. destruct (JsMap.size _).
    - exact Hstart.
    - split; assumption. }
  split.
  { exists {| timerId := None; isRunning := false;
              intervalMs := nextAnnounceIntervalSeconds s * 1000; periodic := false |}.
    split; [reflexivity|]. cbn [intervalMs]. apply TimerNode_new_valid; lra. }
  split.
  { intros queryId qs ans delay.
    destruct (setQueryRecords_cases s queryId qs ans) as [->|[ans' ->]]; auto.
    cbn [with_queries queryTimer]. intros Hd. inversion Hd; subst. right.
    apply TimerNode_new_valid; lra. }
  split.
  { intros ipv4. unfold intervalInRange, initialScanner, START_ANNOUNCE_INTERVAL_SECONDS.
    simpl. split; lra. }
  intros delay periodic' Hbad. unfold TimerNode_new.
  destruct (Qle_bool 0 delay) eqn:E0; [|eexists; reflexivity].
  destruct (Qle_bool delay 2147483647) eqn:Emax; [|eexists; reflexivity].
  apply Qle_bool_iff in E0. apply Qle_bool_iff in Emax. lra.
Qed.

End Mdns.

Arguments Done {R}.
Arguments Threw {R}.
Arguments Returned {R}.
Arguments Suspended {R}.

(* ================================================================== *)
(** * TLV object schema *)

(** Modelled from the spec: [TlvType] of the TLV codec, which is not part
    of the sources at hand; the element types the design lists. *)
Inductive TlvType :=
| TlvSignedInt | TlvUnsignedInt | TlvBoolean | TlvFloat | TlvUtf8String
| TlvByteString | TlvNull | TlvStructure | TlvArray | TlvList | TlvEndOfContainer.

Definition TlvType_eqb (x y : TlvType) : bool :=
  match x, y with
  | TlvSignedInt, TlvSignedInt | TlvUnsignedInt, TlvUnsignedInt
  | TlvBoolean, TlvBoolean | TlvFloat, TlvFloat | TlvUtf8String, TlvUtf8String
  | TlvByteString, TlvByteString | TlvNull, TlvNull | TlvStructure, TlvStructure
  | TlvArray, TlvArray | TlvList, TlvList | TlvEndOfContainer, TlvEndOfContainer => true
  | _, _ => false
  end.

Record TlvTag := { profile : option Z; tag_id : option Z }.

Record TlvTypeLength := { tl_type : TlvType; tl_length : option Z }.

(** The values a schema decodes to.  An object is the map of its own
    properties; a property that is [undefined] is one that is absent. *)
Inductive JsValue :=
| JsNumber (z : Z)
| JsString (s : string)
| JsBoolean (b : bool)
| JsNull
| JsBytes (b : ByteArray)
| JsArray (elements : list JsValue)
| JsObject (properties : list (string * JsValue)).

Section Tlv.

(** [TlvReader] and [TlvWriter] of [TlvSchema.js], which is not part of
    the sources at hand: a reader hands out the tag and type of the next
    element, a writer records a tag. *)
Variable TlvReader : Type.
Variable TlvWriter : Type.
Variable readTagType :
  TlvReader -> Error + (option TlvTag * TlvTypeLength * TlvReader).
Variable writeTag : TlvWriter -> TlvTypeLength -> option TlvTag -> TlvWriter.

(** The interface [TlvSchema] as [ObjectSchema] uses it on its fields. *)
Record TlvSchema := {
  decodeTlvInternalValue :
    TlvReader -> TlvTypeLength -> Error + (JsValue * TlvReader);
  encodeTlvInternal :
    TlvWriter -> JsValue -> option TlvTag -> bool -> Error + TlvWriter;
  validate : JsValue -> option Error
}.

(** [TlvAny] and [Globals.FabricIndex.id], not part of the sources at
    hand. *)
Variable TlvAny : TlvSchema.
Variable FabricIndexId : Z.

Record FieldType := {
  id : Z;
  schema : TlvSchema;
  optional : bool;
  repeated : bool;
  fallback : option JsValue;
  minLength : option nat;
  maxLength : option nat
}.

(** [fieldDefinitions] in the order of [for (const name in ...)]. *)
Record ObjectSchema := {
  fieldDefinitions : JsMap.t FieldType;
  type : TlvType
}.

(** The constructor's check. *)
Definition ObjectSchema_new (fields : JsMap.t FieldType) (ty : TlvType)
    : Error + ObjectSchema :=
  if existsb (fun nf => repeated (snd nf) && negb (TlvType_eqb ty TlvList)) fields
  then inl (JsError "Repeated fields are only allowed in TLV List.")
  else inr {| fieldDefinitions := fields; type := ty |}.

(** [this.fieldById[id]]: the array the constructor fills, where a later
    field with the same id replaces an earlier one. *)
Definition fieldById (o : ObjectSchema) (i : Z) : option (string * FieldType) :=
  fold_left (fun acc nf => if (id (snd nf) =? i)%Z then Some nf else acc)
            (fieldDefinitions o) None.

Local Open Scope string_scope.

(** The [while (true)] loop of [decodeTlvInternalValue]; [None] when the
    fuel runs out. *)
Fixpoint decodeFields (fuel : nat) (o : ObjectSchema) (reader : TlvReader)
    (result : JsMap.t JsValue) : option (Error + (JsMap.t JsValue * TlvReader)) :=
  match fuel with
  | O => None
  | S fuel' =>
      match readTagType reader with
      | inl e => Some (inl e)
      | inr (tag, elementTypeLength, reader1) =>
          if TlvType_eqb (tl_type elementTypeLength) TlvEndOfContainer
          then Some (inr (result, reader1))
          else
            match match tag with Some t => profile t | None => None end with
            | Some _ =>
                Some (inl (UnexpectedDataError
                             "Structure element tags should be context-specific."))
            | None =>
                match match tag with Some t => tag_id t | None => None end with
                | None =>
                    Some (inl (UnexpectedDataError
                                 "Structure element tags should have an id."))
                | Some i =>
                    match fieldById o i with
                    | None =>
                        match decodeTlvInternalValue TlvAny reader1 elementTypeLength with
                        | inl e => Some (inl e)
                        | inr (_, reader2) => decodeFields fuel' o reader2 result
                        end
                    | Some (name', field) =>
                        match decodeTlvInternalValue (schema field) reader1
                                elementTypeLength with
                        | inl e => Some (inl e)
                        | inr (decoded, reader2) =>
                            if repeated field then
                              match JsMap.get name' result with
                              | None =>
                                  decodeFields fuel' o reader2
                                    (JsMap.set name' (JsArray [decoded]) result)
                              | Some (JsArray l) =>
                                  decodeFields fuel' o reader2
                                    (JsMap.set name' (JsArray (l ++ [decoded])) result)
                              | Some _ =>
                                  Some (inl (JsError "result[name].push is not a function"))
                              end
                            else
                              decodeFields fuel' o reader2
                                (JsMap.set name' decoded result)
                        end
                    end
                end
            end
      end
  end.

(** The loop over the mandatory fields that follows. *)
Definition applyFallback (result : JsMap.t JsValue) (nf : string * FieldType)
    : JsMap.t JsValue :=
  let '(name', field) := nf in
  if optional field then result
  else
    match JsMap.get name' result with
    | Some _ => result
    | None =>
        match fallback field with
        | Some fb =>
            JsMap.set name' (if repeated field then JsArray [fb] else fb) result
        | None => result
        end
    end.

Definition applyFallbacks (o : ObjectSchema) (result : JsMap.t JsValue)
    : JsMap.t JsValue :=
  fold_left applyFallback (fieldDefinitions o) result.

Definition ObjectSchema_decodeTlvInternalValue (fuel : nat) (o : ObjectSchema)
    (reader : TlvReader) (typeLength : TlvTypeLength)
    : option (Error + (JsMap.t JsValue * TlvReader)) :=
  if negb (TlvType_eqb (tl_type typeLength) (type o))
  then Some (inl (UnexpectedDataError "Unexpected type."))
  else
    match decodeFields fuel o reader [] with
    | None => None
    | Some (inl e) => Some (inl e)
    | Some (inr (result, reader')) => Some (inr (applyFallbacks o result, reader'))
    end.

(** [tryCatch(() => schema.validate(x), ValidationError, ...)]: a
    ValidationError gets the field's name in front. *)
Definition relabel (name' : string) (e : Error) : Error :=
  match e with
  | ValidationError message fieldName =>
      ValidationError message
        (Some (name' ++ match fieldName with Some f => "." ++ f | None => "" end))
  | _ => e
  end.

Fixpoint validateElements (sc : TlvSchema) (name' : string) (l : list JsValue)
    : option Error :=
  match l with
  | [] => None
  | element :: rest =>
      match validate sc element with
      | Some e => Some (relabel name' e)
      | None => validateElements sc name' rest
      end
  end.

Definition missingMandatory (name' : string) : Error :=
  ValidationError ("Missing mandatory field " ++ name') (Some name').

Definition validateField (value : JsMap.t JsValue) (nf : string * FieldType)
    : option Error :=
  let '(name', field) := nf in
  match JsMap.get name' value with
  | None => if optional field then None else Some (missingMandatory name')
  | Some data =>
      if repeated field then
        let minLength' := match minLength field with Some n => n | None => 2%nat end in
        let maxLength' := match maxLength field with Some n => n | None => 65535%nat end in
        match data with
        | JsArray l =>
            if (maxLength' <? length l)%nat then
              Some (ValidationError
                      ("Repeated field list for " ++ name' ++ " is too long: "
                       ++ decimal (Z.of_nat (length l)) ++ ", max "
                       ++ decimal (Z.of_nat maxLength') ++ ".") (Some name'))
            else if (length l <? minLength')%nat then
              Some (ValidationError
                      ("Repeated field list for " ++ name' ++ " is too short: "
                       ++ decimal (Z.of_nat (length l)) ++ ", min "
                       ++ decimal (Z.of_nat minLength') ++ ".") (Some name'))
            else validateElements (schema field) name' l
        | _ =>
            Some (ValidationError ("Repeated field " ++ name' ++ " should be an array.")
                    (Some name'))
        end
      else option_map (relabel name') (validate (schema field) data)
  end.

Fixpoint validateFields (fields : JsMap.t FieldType) (value : JsMap.t JsValue)
    : option Error :=
  match fields with
  | [] => None
  | nf :: rest =>
      match validateField value nf with
      | Some e => Some e
      | None => validateFields rest value
      end
  end.

(** [validate]: the error it throws, if any. *)
Definition ObjectSchema_validate (o : ObjectSchema) (value : JsMap.t JsValue)
    : option Error :=
  validateFields (fieldDefinitions o) value.

Fixpoint encodeElements (sc : TlvSchema) (writer : TlvWriter) (l : list JsValue)
    (tag : option TlvTag) (forWriteInteraction : bool) : Error + TlvWriter :=
  match l with
  | [] => inr writer
  | element :: rest =>
      match encodeTlvInternal sc writer element tag forWriteInteraction with
      | inl e => inl e
      | inr writer' => encodeElements sc writer' rest tag forWriteInteraction
      end
  end.

Definition encodeField (value : JsMap.t JsValue) (forWriteInteraction : bool)
    (writer : TlvWriter) (nf : string * FieldType) : Error + TlvWriter :=
  let '(name', field) := nf in
  let tag := Some {| profile := None; tag_id := Some (id field) |} in
  match JsMap.get name' value with
  | None =>
      if negb (optional field) then
        if forWriteInteraction && (id field =? FabricIndexId)%Z then inr writer
        else inl (missingMandatory name')
      else inr writer
  | Some fieldValue =>
      if repeated field then
        match fieldValue with
        | JsArray l => encodeElements (schema field) writer l tag forWriteInteraction
        | _ =>
            inl (ValidationError ("Repeated field " ++ name' ++ " should be an array.")
                   (Some name'))
        end
      else encodeTlvInternal (schema field) writer fieldValue tag forWriteInteraction
  end.

Fixpoint encodeFields (fields : JsMap.t FieldType) (value : JsMap.t JsValue)
    (forWriteInteraction : bool) (writer : TlvWriter) : Error + TlvWriter :=
  match fields with
  | [] => inr writer
  | nf :: rest =>
      match encodeField value forWriteInteraction writer nf with
      | inl e => inl e
      | inr writer' => encodeFields rest value forWriteInteraction writer'
      end
  end.

Definition ObjectSchema_encodeTlvInternal (o : ObjectSchema) (writer : TlvWriter)
    (value : JsMap.t JsValue) (tag : option TlvTag) (forWriteInteraction : bool)
    : Error + TlvWriter :=
  let writer1 := writeTag writer {| tl_type := type o; tl_length := None |} tag in
  match encodeFields (fieldDefinitions o) value forWriteInteraction writer1 with
  | inl e => inl e
  | inr writer2 =>
      inr (writeTag writer2 {| tl_type := TlvEndOfContainer; tl_length := None |} None)
  end.

(** [TlvWrapper]: a schema for [O] over a schema for [T], with the two
    conversions. *)
Definition TlvWrapper (underlyingSchema : TlvSchema) (wrap unwrap : JsValue -> JsValue)
    : TlvSchema :=
  {| decodeTlvInternalValue := fun reader typeLength =>
       match decodeTlvInternalValue underlyingSchema reader typeLength with
       | inl e => inl e
       | inr (value, reader') => inr (unwrap value, reader')
       end;
     encodeTlvInternal := fun writer value tag forWriteInteraction =>
       encodeTlvInternal underlyingSchema writer (wrap value) tag forWriteInteraction;
     validate := fun value => validate underlyingSchema (wrap value) |}.

(** [TlvRepeatedField] and [TlvOptionalRepeatedField]; [length'],
    [minLength'] and [maxLength'] are the length options, when given. *)
Definition TlvRepeatedField (i : Z) (sc : TlvSchema)
    (length' minLength' maxLength' : option nat) : FieldType :=
  {| id := i; schema := sc; optional := false; repeated := true; fallback := None;
     minLength := match length' with Some n => Some n | None => minLength' end;
     maxLength := match length' with Some n => Some n | None => maxLength' end |}.

Definition TlvOptionalRepeatedField (i : Z) (sc : TlvSchema) (maxLength' : option nat)
    : FieldType :=
  {| id := i; schema := sc; optional := true; repeated := true; fallback := None;
     minLength := Some 0%nat; maxLength := maxLength' |}.

(** [TlvObject] and [TlvTaggedList]. *)
Definition TlvObject (fields : JsMap.t FieldType) : Error + ObjectSchema :=
  ObjectSchema_new fields TlvStructure.

Definition TlvTaggedList (fields : JsMap.t FieldType) : Error + ObjectSchema :=
  ObjectSchema_new fields TlvList.

Local Close Scope string_scope.

(* ------------------------------------------------------------------ *)
(** ** Properties of the object schema *)









(** *** Fallbacks *)






(** *** validate and encode on a missing mandatory field *)

















(* ================================================================== *)
(** * Further properties of the object schema *)

(** ** What validate accepts *)






(** ** Decoding what was encoded *)

(** How a writer and a reader meet: [written w] is what [w] has written
    so far and [unread r] what [r] has still to read, as sequences of
    some kind of token. *)
Section RoundTrip.
Variable Token : Type.
Variable written : TlvWriter -> list Token.
Variable unread : TlvReader -> list Token.

Definition fieldTag (i : Z) : option TlvTag :=
  Some {| profile := None; tag_id := Some i |}.

(** What the schema [sc] writes for [v] under the context tag [i] reads
    back as [v]: [readTagType] finds the tag and a type that is not the
    end of a container, and the schema decodes [v] from there, up to the
    end of what was written. *)
Definition roundTrips (sc : TlvSchema) (i : Z) (v : JsValue) : Prop :=
  forall w forWriteInteraction w',
    encodeTlvInternal sc w v (fieldTag i) forWriteInteraction = inr w' ->
    exists block,
      written w' = written w ++ block
      /\ forall r rest,
           unread r = block ++ rest ->
           exists tl r1 r2,
             readTagType r = inr (fieldTag i, tl, r1)
             /\ TlvType_eqb (tl_type tl) TlvEndOfContainer = false
             /\ decodeTlvInternalValue sc r1 tl = inr (v, r2)
             /\ unread r2 = rest.











(** [TlvWrapper] reads back what it wrote when the underlying schema does
    so for the wrapped value and [unwrap] undoes [wrap] on it; and it
    accepts the values whose wrapping the underlying schema accepts. *)
Theorem wrapper_round_trips (underlyingSchema : TlvSchema)
    (wrap unwrap : JsValue -> JsValue) (i : Z) (v : JsValue) :
  roundTrips underlyingSchema i (wrap v) ->
  unwrap (wrap v) = v ->
  roundTrips (TlvWrapper underlyingSchema wrap unwrap) i v
  /\ validate (TlvWrapper underlyingSchema wrap unwrap) v
     = validate underlyingSchema (wrap v).
Proof.
  intros Hrt Hid. split; [|reflexivity].
  intros w fw w' Henc. cbn [TlvWrapper encodeTlvInternal] in Henc.
  destruct (Hrt w fw w' Henc) as (block & Hw & Hblock).
  exists block. split; [exact Hw|].
  intros r rest Hr. destruct (Hblock r rest Hr) as (tl & r1 & r2 & H1 & H2 & H3 & H4).
  exists tl, r1, r2. repeat split; auto.
  cbn [TlvWrapper decodeTlvInternalValue]. now rewrite H3, Hid.
Qed.

End RoundTrip.

End Tlv.

(* ================================================================== *)
(** * Worked examples *)

(** ** Stand-ins for what the scanner and the responder import *)

(** Record and question sizes as RFC 1035 gives them, without name
    compression: the name as labels, then the fixed fields, then the
    payload. *)
Definition sampleValueLength (v : RecordValue) : nat :=
  match v with
  | StrValue s => String.length s
  | SrvValue _ _ _ target => 6 + (String.length target + 2)
  | TxtValue items => list_sum (map (fun i => (1 + String.length i)%nat) items)
  end.

Definition sampleEncodeRecord (r : DnsRecord) : ByteArray :=
  repeat Byte.x00 (String.length (name r) + 2 + 10 + sampleValueLength (value r)).

Definition sampleQueryLength (q : DnsQuery) : nat :=
  String.length (q_name q) + 2 + 4.

(** [ip.includes(":")]. *)
Definition sampleIsIPv6 (a : string) : bool :=
  match indexOf ":" a with Some _ => true | None => false end.

(** [parseInt] on decimal digits: the digits in front, NaN without any. *)
Definition digitOf (c : ascii) : option Z :=
  let n := Z.of_nat (nat_of_ascii c) in
  if (48 <=? n)%Z && (n <=? 57)%Z then Some (n - 48)%Z else None.

Fixpoint parseDigits (acc : option Z) (s : string) : option Z :=
  match s with
  | EmptyString => acc
  | String c rest =>
      match digitOf c with
      | Some d =>
          parseDigits (Some (match acc with Some a => a * 10 + d | None => d end)%Z) rest
      | None => acc
      end
  end.

Definition sampleParseInt (s : string) : option Z := parseDigits None s.

(** A number that may be NaN (or undefined) in a template string. *)
Definition decimalOrNaN (z : option Z) : string :=
  match z with Some z => decimal z | None => "NaN" end.

Local Open Scope string_scope.

Definition sampleInstanceQname (i : string) : string := i ++ "._matterc._udp.local".
Definition sampleLongQname (d : option Z) : string :=
  "_L" ++ decimalOrNaN d ++ "._sub._matterc._udp.local".
Definition sampleShortQname (d : option Z) : string :=
  "_S" ++ decimalOrNaN d ++ "._sub._matterc._udp.local".
Definition sampleVendorQname (v : option Z) : string :=
  "_V" ++ decimalOrNaN v ++ "._sub._matterc._udp.local".
Definition sampleDeviceTypeQname (t : Z) : string :=
  "_T" ++ decimal t ++ "._sub._matterc._udp.local".
Definition sampleCommissioningModeQname : string := "_CM._sub._matterc._udp.local".
Definition sampleProductQueryId (p : option Z) : string := "_P" ++ decimalOrNaN p.
Definition sampleVendorId (v : option Z) : Error + option Z := inr v.

Definition sampleRecordKey (r : DnsRecord) (netInterface : string) : string :=
  name r ++ "-" ++ decimal (recordClass r) ++ "-"
  ++ match recordType r with
     | A => "1" | AAAA => "28" | SRV => "33" | TXT => "16" | PTR => "12" | ANY => "255"
     end
  ++ "-" ++ netInterface.

Local Close Scope string_scope.

Definition scannerHandleDnsMessage : Z -> MdnsScanner -> option DnsMessage -> string
                                     -> Outcome unit :=
  handleDnsMessage sampleInstanceQname sampleLongQname sampleShortQname
    sampleVendorQname sampleDeviceTypeQname sampleCommissioningModeQname
    sampleProductQueryId sampleVendorId sampleParseInt.

Definition response (ans : list DnsRecord) : option DnsMessage :=
  Some {| dm_messageType := Response; dm_transactionId := 0%Z; dm_queries := [];
          dm_answers := ans; dm_additionalRecords := [] |}.

(** ** Queries *)

Definition srvQuery (n : string) : DnsQuery :=
  {| q_name := n; q_recordType := SRV; q_recordClass := IN; uniCastResponse := false |}.

Definition nodeA : string := "A1B2C3D4E5F60718-00000000DEADBEEF._matter._tcp.local".
Definition nodeB : string := "A1B2C3D4E5F60718-00000000CAFEF00D._matter._tcp.local".

Definition aaaa (host addr : string) (ttl' : Z) : DnsRecord :=
  {| name := host; recordType := AAAA; recordClass := IN; ttl := ttl';
     value := StrValue addr |}.

Definition oneQuery : MdnsScanner :=
  setQueryRecords (initialScanner false) "q" [srvQuery nodeA] [aaaa "node.local" "fd00::2" 120].

(** A second call under the same id with another question: the stored
    question is gone, the answers add up. *)
Example setQueryRecords_overwrites :
  JsMap.get "q"
    (activeAnnounceQueries
       (setQueryRecords oneQuery "q" [srvQuery nodeB] [aaaa "node.local" "fd00::3" 120]))
  = Some {| aq_queries := [srvQuery nodeB];
            aq_answers := [aaaa "node.local" "fd00::2" 120;
                           aaaa "node.local" "fd00::3" 120] |}.
Proof. reflexivity. Qed.

(** Claim C1 fails as stated: the stored set is not the union, the
    question stored before is missing from it. *)
Lemma setQueryRecords_is_not_a_union :
  exists stored,
    JsMap.get "q"
      (activeAnnounceQueries
         (setQueryRecords oneQuery "q" [srvQuery nodeB] [aaaa "node.local" "fd00::3" 120]))
    = Some stored
    /\ In (srvQuery nodeA) (aq_queries {| aq_queries := [srvQuery nodeA];
                                          aq_answers := [] |})
    /\ ~ In (srvQuery nodeA) (aq_queries stored).
Proof.
  eexists. split; [reflexivity|]. split; [now left|].
  intros [H|[]]. discriminate H.
Qed.

Lemma setQueryRecords_existing_witness :
  JsMap.get "q" (activeAnnounceQueries oneQuery)
  = Some {| aq_queries := [srvQuery nodeA];
            aq_answers := [aaaa "node.local" "fd00::2" 120] |}
  /\ JsMap.get "q"
       (activeAnnounceQueries
          (setQueryRecords oneQuery "q" [srvQuery nodeB] [aaaa "node.local" "fd00::3" 120]))
     = Some {| aq_queries := [srvQuery nodeB];
               aq_answers := [aaaa "node.local" "fd00::2" 120]
                             ++ [aaaa "node.local" "fd00::3" 120] |}
  /\ nextAnnounceIntervalSeconds
       (setQueryRecords oneQuery "q" [srvQuery nodeB] [aaaa "node.local" "fd00::3" 120])
     = START_ANNOUNCE_INTERVAL_SECONDS
  /\ queryTimer
       (setQueryRecords oneQuery "q" [srvQuery nodeB] [aaaa "node.local" "fd00::3" 120])
     = Some 0.
Proof.
  split; [reflexivity|].
  apply (proj2 (setQueryRecords_existing oneQuery "q" [srvQuery nodeB]
                  [aaaa "node.local" "fd00::3" 120]
                  (existing := {| aq_queries := [srvQuery nodeA];
                                  aq_answers := [aaaa "node.local" "fd00::2" 120] |})
                  eq_refl)).
  exists (srvQuery nodeB). split; [now left|].
  intros e [He|[]]. subst e. reflexivity.
Defined.

(** The intervals of the first cycles after a reset, in seconds. *)
Example first_intervals :
  map (fun n => Qred (nextAnnounceIntervalSeconds
                        (Nat.iter n (sendQueries sampleEncodeRecord sampleQueryLength)
                           oneQuery)))
      [0; 1; 2; 11; 12; 13]%nat
  = [3 # 2; 3; 6; 3072; 3600; 3600].
Proof. vm_compute. reflexivity. Qed.

(** ** The send loops *)

Definition txt (n : string) (ttl' : Z) (items : list string) : DnsRecord :=
  {| name := n; recordType := TXT; recordClass := IN; ttl := ttl';
     value := TxtValue items |}.

(** A TXT record of 1532 bytes, and one of 782 bytes under a given name. *)
Definition bigTxt : DnsRecord :=
  txt "inst1._matterc._udp.local" 120 (repeat "abcd"%string 299).
Definition halfTxt (n : string) : DnsRecord :=
  txt n 120 (repeat "abcd"%string 149).

(** Claim C2 fails as stated.  One answer that exceeds the budget: the
    scanner sends the questions, then the answer in a datagram of 1544
    bytes.  Two answers that do not fit together: the responder sends two
    datagrams, the first of type Response, not TruncatedQuery. *)
Lemma oversized_answer_is_sent :
  (exists d0 d1,
      sentMessages (sendQueriesBurst sampleEncodeRecord sampleQueryLength [] [bigTxt])
      = [d0; d1]
      /\ (MAX_MDNS_MESSAGE_SIZE <? encodedLength sampleQueryLength d1)%nat = true)
  /\ (exists d0 d1,
         sendRecords sampleEncodeRecord sampleQueryLength Response 0 []
           [halfTxt "inst1._matterc._udp.local"; halfTxt "inst2._matterc._udp.local"] []
         = [d0; d1]
         /\ messageType d0 = Response
         /\ messageType d0 <> TruncatedQuery).
Proof.
  split.
  - do 2 eexists. split; [vm_compute; reflexivity|]. vm_compute. reflexivity.
  - do 2 eexists. split; [vm_compute; reflexivity|]. split; [reflexivity|discriminate].
Qed.

(** Scenario S3 of the design: known answers that need two datagrams;
    the first is a TruncatedQuery, both are within 1500 bytes.  Message
    type, number of answers and length of each datagram: *)
Example truncated_query_split :
  map (fun d => (messageType d, length (answers d),
                 encodedLength sampleQueryLength d))
      (sentMessages
         (sendQueriesBurst sampleEncodeRecord sampleQueryLength
            [srvQuery nodeA]
            [halfTxt "inst1._matterc._udp.local"; txt "inst2._matterc._udp.local" 120 [];
             halfTxt "inst3._matterc._udp.local"; txt "inst4._matterc._udp.local" 120 []]))
  = [(TruncatedQuery, 2, 889); (Query, 2, 831)]%nat.
Proof. vm_compute. reflexivity. Qed.

(** ** The cache *)

Definition srv (n : string) (ttl' : Z) (target : string) (port' : Z) : DnsRecord :=
  {| name := n; recordType := SRV; recordClass := IN; ttl := ttl';
     value := SrvValue 0 0 port' target |}.

(** Scenario S1 of the design: a response with TXT, SRV and AAAA records
    of node A, then one for node B, received at time 1000. *)
Definition twoNodes : MdnsScanner :=
  stateOf
    (scannerHandleDnsMessage 1000
       (stateOf
          (scannerHandleDnsMessage 1000 (initialScanner false)
             (response [txt nodeA 120 ["SII=5000"%string];
                        srv nodeA 120 "node.local" 5540;
                        aaaa "node.local" "fe80::1" 120])
             "eth0"))
       (response [txt nodeB 120 ["SII=300"%string];
                  srv nodeB 120 "other.local" 5540;
                  aaaa "other.local" "fd00::7" 120;
                  aaaa "other.local" "2001:db8::7" 120;
                  aaaa "other.local" "fe80::7" 120])
       "eth0").

Example operational_discovery :
  option_map od_addresses
    (getOperationalDeviceRecords sampleIsIPv6 twoNodes nodeA)
  = Some [{| sa_ip := "fe80::1%eth0"; sa_port := 5540 |}]
  /\ option_map od_addresses
       (getOperationalDeviceRecords sampleIsIPv6 twoNodes nodeB)
     = Some [{| sa_ip := "fd00::7"; sa_port := 5540 |};
             {| sa_ip := "fe80::7%eth0"; sa_port := 5540 |};
             {| sa_ip := "2001:db8::7"; sa_port := 5540 |}].
Proof. split; vm_compute; reflexivity. Qed.

(** Scenario S4 of the design: an SRV record with [ttl = 0] removes the
    entry. *)
Example goodbye_srv :
  option_map od_addresses
    (getOperationalDeviceRecords sampleIsIPv6
       (stateOf (scannerHandleDnsMessage 2000 twoNodes
                   (response [srv nodeA 0 "node.local" 5540]) "eth0"))
       nodeA)
  = None.
Proof. vm_compute. reflexivity. Qed.



(** Scenario S2 of the design: a commissionable TXT record with D, CM and
    VP and no SD. *)
Definition inst1 : string := "inst1._matterc._udp.local".
Definition txtS2 : DnsRecord :=
  txt inst1 120 ["D=3840"; "CM=1"; "VP=65521+32768"]%string.

Example commissionable_with_D_only :
  option_map (fun r => (SD r, V r, P r, instanceId r))
    (JsMap.get inst1
       (commissionableDeviceRecords
          (fst (commissionableTxtStep sampleParseInt 1000 (initialScanner false, [])
                  txtS2))))
  = Some (Some 15%Z, Some (Some 65521%Z), Some (Some 32768%Z), "inst1"%string).
Proof. vm_compute. reflexivity. Qed.

Example commissionable_without_CM :
  commissionableTxtStep sampleParseInt 1000 (initialScanner false, [])
    (txt inst1 120 ["D=3840"; "SD=15"]%string)
  = (initialScanner false, []).
Proof. vm_compute. reflexivity. Qed.

Lemma commissionable_txt_requirements_witness :
  value txtS2 = TxtValue ["D=3840"; "CM=1"; "VP=65521+32768"]%string
  /\ ttl txtS2 <> 0%Z
  /\ exists stored,
       JsMap.get (name txtS2)
         (commissionableDeviceRecords
            (fst (commissionableTxtStep sampleParseInt 1000 (initialScanner false, [])
                    txtS2))) = Some stored
       /\ D (data stored) = Some 3840%Z
       /\ SD stored = Some (js_and (js_shr 3840 8) 15)
       /\ js_and (js_shr 3840 8) 15 = ((3840 / 256) mod 16)%Z.
Proof.
  assert (ttl txtS2 <> 0%Z) as Hne by discriminate.
  split; [reflexivity|]. split; [exact Hne|].
  apply (proj2 (commissionable_txt_requirements sampleParseInt 1000
                  (initialScanner false) [] txtS2
                  (items := ["D=3840"; "CM=1"; "VP=65521+32768"]%string)
                  eq_refl Hne)
          3840%Z).
  - vm_compute. reflexivity.
  - vm_compute. discriminate.
Defined.

(** A TXT record that refreshes node A at time 5000: the address stays,
    the expiry and the TXT data change. *)
Definition cachedNodeA : OperationalDeviceRecordWithExpire :=
  {| op_deviceIdentifier := nodeA;
     op_addresses :=
       [("fe80::1%eth0"%string,
         {| ip := "fe80::1%eth0"; port := 5540; addr_expires := 121000 |})];
     op_expires := 121000;
     op_data := setField emptyDiscoveryData "SII" (Some 5000%Z) None |}.

Lemma txt_refresh_keeps_addresses_witness :
  ttl (txt nodeA 60 ["SII=800"; "DN=lamp"]%string) <> 0%Z
  /\ JsMap.get nodeA (operationalDeviceRecords twoNodes) = Some cachedNodeA
  /\ exists device',
       JsMap.get nodeA
         (operationalDeviceRecords
            (handleOperationalTxtRecord sampleParseInt 5000 twoNodes
               (txt nodeA 60 ["SII=800"; "DN=lamp"]%string))) = Some device'
       /\ op_addresses device' = op_addresses cachedNodeA
       /\ op_deviceIdentifier device' = nodeA
       /\ op_expires device' = 65000%Z
       /\ op_data device'
          = spreadData (op_data cachedNodeA)
              (parseTxtRecord sampleParseInt (txt nodeA 60 ["SII=800"; "DN=lamp"]%string)).
Proof.
  assert (ttl (txt nodeA 60 ["SII=800"; "DN=lamp"]%string) <> 0%Z) as Hne by discriminate.
  assert (JsMap.get nodeA (operationalDeviceRecords twoNodes) = Some cachedNodeA) as Hget
    by (vm_compute; reflexivity).
  split; [exact Hne|]. split; [exact Hget|].
  exact (proj1 (txt_refresh_keeps_addresses sampleParseInt 5000 twoNodes
                  (txt nodeA 60 ["SII=800"; "DN=lamp"]%string) Hne)
           cachedNodeA Hget).
Defined.

(** ** close *)

(** A scanner with a waiter that has a timeout and one that has none. *)
Definition twoWaiters : MdnsScanner :=
  registerWaiterPromise
    (registerWaiterPromise (initialScanner false) "a" (Some 5) true)
    "b" None true.

Example close_resolves_waiters_with_timer :
  events (close twoWaiters) = [Resolved "a"]
  /\ recordWaiters (close twoWaiters) = []
  /\ closing (close twoWaiters) = true.
Proof. repeat split. Qed.

(** On the closed scanner [findCommissionableDevices] registers a waiter
    and schedules a send; it does not throw. *)
Example findCommissionableDevices_after_close :
  exists s',
    findCommissionableDevices sampleIsIPv6 sampleInstanceQname sampleLongQname
      sampleShortQname sampleVendorQname sampleDeviceTypeQname
      sampleCommissioningModeQname sampleProductQueryId
      (close twoWaiters) (ByInstanceId "inst1") 5 false
    = Done s' (Suspended inst1)
    /\ closing s' = true
    /\ JsMap.has inst1 (recordWaiters s') = true
    /\ queryTimer s' = Some 0.
Proof. eexists. split; [vm_compute; reflexivity|]. repeat split. Qed.

(** ** The responder *)

Definition ptr (n target : string) : DnsRecord :=
  {| name := n; recordType := PTR; recordClass := IN; ttl := 120;
     value := StrValue target |}.

Definition served : list DnsRecord :=
  [ptr "_matterc._udp.local" inst1; txtS2; srv inst1 120 "host1.local" 5540;
   aaaa "host1.local" "fd00::2" 120].

Definition responderHandle (knownAnswers : list DnsRecord) : MdnsServer :=
  serverHandleDnsMessage sampleEncodeRecord sampleQueryLength DnsRecord_eqb
    sampleRecordKey (fun _ => 5000%Z)
    {| recordLastSentAsMulticastAnswer := JsMap.empty; server_events := [] |}
    [("5540-0"%string, served)]
    (Some {| dm_messageType := Query; dm_transactionId := 0;
             dm_queries := [ptrQuery "_matterc._udp.local"];
             dm_answers := knownAnswers; dm_additionalRecords := [] |})
    "fe80::9" "eth0".

(** A PTR question without known answers is answered with the PTR record
    and, as additional records, the TXT, SRV and AAAA records; with the
    PTR record as known answer nothing is sent; with the TXT record as
    known answer it is left out of the additional records. *)
Example responder_suppression :
  map (fun e => match e with
                | ServerSent d _ _ => (length (answers d), length (additionalRecords d))
                end)
      (server_events (responderHandle []))
  = [(1, 3)]%nat
  /\ server_events (responderHandle [ptr "_matterc._udp.local" inst1]) = []
  /\ map (fun e => match e with
                   | ServerSent d _ _ => (length (answers d), length (additionalRecords d))
                   end)
         (server_events (responderHandle [txtS2]))
     = [(1, 2)]%nat.
Proof. repeat split; vm_compute; reflexivity. Qed.

(** ** The TLV object schema *)

(** A reader over an array of elements: [readTagType] moves to the next
    element, a primitive schema reads the value of the current one. *)
Record TlvElement := {
  el_tag : option TlvTag;
  el_typeLength : TlvTypeLength;
  el_value : JsValue
}.

Record ArrayReader := { current : option TlvElement; upcoming : list TlvElement }.

Definition arrayReadTagType (r : ArrayReader)
    : Error + (option TlvTag * TlvTypeLength * ArrayReader) :=
  match upcoming r with
  | [] => inl (UnexpectedDataError "Unexpected end of data.")
  | e :: rest => inr (el_tag e, el_typeLength e, {| current := Some e; upcoming := rest |})
  end.

Definition ArrayWriter := list TlvElement.

Definition arrayWriteTag (w : ArrayWriter) (tl : TlvTypeLength) (tag : option TlvTag)
    : ArrayWriter :=
  w ++ [{| el_tag := tag; el_typeLength := tl; el_value := JsNull |}].

Definition readPrimitive (r : ArrayReader) : Error + (JsValue * ArrayReader) :=
  match current r with
  | Some e => inr (el_value e, r)
  | None => inl (UnexpectedDataError "No element.")
  end.

Definition sampleUInt : TlvSchema ArrayReader ArrayWriter :=
  {| decodeTlvInternalValue := fun r _ => readPrimitive r;
     encodeTlvInternal := fun w v tag _ =>
       inr (w ++ [{| el_tag := tag;
                     el_typeLength := {| tl_type := TlvUnsignedInt; tl_length := None |};
                     el_value := v |}]);
     validate := fun v =>
       match v with
       | JsNumber _ => None
       | _ => Some (ValidationError "Expected number." None)
       end |}.

(** [TlvAny] on primitive elements. *)
Definition sampleAny : TlvSchema ArrayReader ArrayWriter :=
  {| decodeTlvInternalValue := fun r _ => readPrimitive r;
     encodeTlvInternal := fun w _ _ _ => inr w;
     validate := fun _ => None |}.

Definition contextTag (i : Z) : option TlvTag :=
  Some {| profile := None; tag_id := Some i |}.

Definition uintElement (i v : Z) : TlvElement :=
  {| el_tag := contextTag i;
     el_typeLength := {| tl_type := TlvUnsignedInt; tl_length := None |};
     el_value := JsNumber v |}.

Definition endOfContainer : TlvElement :=
  {| el_tag := None;
     el_typeLength := {| tl_type := TlvEndOfContainer; tl_length := None |};
     el_value := JsNull |}.

Definition TlvField (i : Z) (sc : TlvSchema ArrayReader ArrayWriter)
    (fb : option JsValue) : FieldType ArrayReader ArrayWriter :=
  {| id := i; schema := sc; optional := false; repeated := false; fallback := fb;
     minLength := None; maxLength := None |}.

Definition TlvOptionalField (i : Z) (sc : TlvSchema ArrayReader ArrayWriter)
    : FieldType ArrayReader ArrayWriter :=
  {| id := i; schema := sc; optional := true; repeated := false; fallback := None;
     minLength := None; maxLength := None |}.

Local Open Scope string_scope.

Definition sampleObject : ObjectSchema ArrayReader ArrayWriter :=
  {| fieldDefinitions :=
       [("vendorId", TlvField 0 sampleUInt None);
        ("productId", TlvOptionalField 1 sampleUInt);
        ("level", TlvField 2 sampleUInt (Some (JsNumber 7)))];
     type := TlvStructure |}.

Definition fabricScoped : ObjectSchema ArrayReader ArrayWriter :=
  {| fieldDefinitions :=
       [("value", TlvField 1 sampleUInt None);
        ("fabricIndex", TlvField 254 sampleUInt None)];
     type := TlvStructure |}.

Definition structure : TlvTypeLength :=
  {| tl_type := TlvStructure; tl_length := None |}.

Definition decodeSample (elements : list TlvElement)
    : option (Error + (JsMap.t JsValue * ArrayReader)) :=
  ObjectSchema_decodeTlvInternalValue arrayReadTagType sampleAny 10 sampleObject
    {| current := None; upcoming := elements |} structure.

(** An element with the unknown tag 9 is read over; the missing field
    with a fallback is set. *)
Example decode_skips_unknown :
  option_map (fun r => match r with inr (v, _) => Some v | inl _ => None end)
    (decodeSample [uintElement 0 5; uintElement 9 99; endOfContainer])
  = Some (Some [("vendorId", JsNumber 5); ("level", JsNumber 7)]).
Proof. vm_compute. reflexivity. Qed.

(** The element of the mandatory field [vendorId] is missing: decoding
    returns an object without it, which [validate] rejects. *)
Example decode_then_validate :
  option_map (fun r => match r with inr (v, _) => Some v | inl _ => None end)
    (decodeSample [endOfContainer])
  = Some (Some [("level", JsNumber 7)])
  /\ ObjectSchema_validate sampleObject [("level", JsNumber 7)]
     = Some (ValidationError "Missing mandatory field vendorId" (Some "vendorId")).
Proof. split; vm_compute; reflexivity. Qed.


(** Without the write-interaction flag the same object is refused. *)
Example encode_missing_mandatory :
  ObjectSchema_encodeTlvInternal arrayWriteTag 254 fabricScoped []
    [("value", JsNumber 3)] None false
  = inl (ValidationError "Missing mandatory field fabricIndex" (Some "fabricIndex")).
Proof. vm_compute. reflexivity. Qed.

Local Close Scope string_scope.

(** ** Expiry *)

(** The cache of scenario S1 after a response, at time 1000, that
    repeats one address of node B with a time to live of 10 seconds. *)
Definition agedCache : MdnsScanner :=
  stateOf
    (scannerHandleDnsMessage 1000 twoNodes
       (response [srv nodeB 120 "other.local" 5540;
                  aaaa "other.local" "fd00::7" 10])
       "eth0").

Ltac distinct_keys :=
  repeat (apply NoDup_cons; [cbn [In]; intuition discriminate|]); apply NoDup_nil.

Lemma agedCache_wellFormed : cacheWellFormed agedCache.
Proof.
  unfold cacheWellFormed, addressesWellFormed. vm_compute.
  split; [distinct_keys|]. split.
  - repeat (apply Forall_cons; [distinct_keys|]). apply Forall_nil.
  - split; [distinct_keys | apply Forall_nil].
Qed.

(** At time 50000 the address with the short time to live is gone, the
    rest of the cache is kept. *)
Lemma expire_keeps_valid_records_witness :
  cacheWellFormed agedCache
  /\ map (fun kv => (fst kv, JsMap.keys (op_addresses (snd kv))))
       (operationalDeviceRecords (expire 50000 agedCache))
     = [(nodeA, ["fe80::1%eth0"%string]);
        (nodeB, ["2001:db8::7"%string; "fe80::7%eth0"%string])].
Proof.
  split; [exact agedCache_wellFormed|].
  rewrite (proj1 (@expire_keeps_valid_records 50000 agedCache agedCache_wellFormed)).
  vm_compute. reflexivity.
Defined.

Lemma expire_leaves_nothing_stale_witness :
  cacheWellFormed agedCache
  /\ forall k device,
       In (k, device) (operationalDeviceRecords (expire 50000 agedCache)) ->
       (50000 < op_expires device)%Z
       /\ op_addresses device <> []
       /\ Forall (fun a => (50000 < addr_expires (snd a))%Z) (op_addresses device).
Proof.
  split; [exact agedCache_wellFormed|].
  exact (proj1 (@expire_leaves_nothing_stale 50000 agedCache agedCache_wellFormed)).
Defined.

Lemma expire_later_absorbs_witness :
  cacheWellFormed agedCache
  /\ (50000 <= 130000)%Z
  /\ expire 130000 (expire 50000 agedCache) = expire 130000 agedCache
  /\ operationalDeviceRecords (expire 130000 agedCache) = [].
Proof.
  assert (50000 <= 130000)%Z as Hle by lia.
  split; [exact agedCache_wellFormed|]. split; [exact Hle|].
  split; [|vm_compute; reflexivity].
  exact (@expire_later_absorbs 50000 130000 agedCache agedCache_wellFormed Hle).
Defined.

(** ** Discovery *)

Lemma cancelled_operational_discovery_witness :
  closing (initialScanner false) = false
  /\ getOperationalDeviceRecords sampleIsIPv6 (initialScanner false) nodeA = None
  /\ exists s1,
       findOperationalDevice sampleIsIPv6 (initialScanner false) nodeA (Some 5) false
       = Done s1 (Suspended nodeA)
       /\ hasWaiter s1 nodeA = true
       /\ events (cancelOperationalDeviceDiscovery s1 nodeA) = [Resolved nodeA]
       /\ hasWaiter (cancelOperationalDeviceDiscovery s1 nodeA) nodeA = false.
Proof.
  split; [reflexivity|]. split; [reflexivity|].
  destruct (@cancelled_operational_discovery sampleIsIPv6 (initialScanner false) nodeA
              (Some 5) false eq_refl eq_refl)
    as (s1 & Hfind & Hwaiter & _ & Hevents & Hgone & _).
  exists s1. split; [exact Hfind|]. split; [exact Hwaiter|].
  split; [exact Hevents | exact Hgone].
Defined.

Lemma cancelled_commissionable_discovery_witness :
  getCommissionableDeviceRecords sampleIsIPv6 (initialScanner false) (ByInstanceId "inst1")
  = []
  /\ exists s1,
       findCommissionableDevices sampleIsIPv6 sampleInstanceQname sampleLongQname
         sampleShortQname sampleVendorQname sampleDeviceTypeQname
         sampleCommissioningModeQname sampleProductQueryId
         (initialScanner false) (ByInstanceId "inst1") 5 false
       = Done s1 (Suspended inst1)
       /\ JsMap.has inst1 (activeAnnounceQueries s1) = true
       /\ hasWaiter
            (cancelCommissionableDeviceDiscovery sampleInstanceQname sampleLongQname
               sampleShortQname sampleVendorQname sampleDeviceTypeQname
               sampleCommissioningModeQname sampleProductQueryId
               s1 (ByInstanceId "inst1"))
            inst1 = false.
Proof.
  split; [reflexivity|].
  destruct (@cancelled_commissionable_discovery sampleIsIPv6 sampleInstanceQname
              sampleLongQname sampleShortQname sampleVendorQname sampleDeviceTypeQname
              sampleCommissioningModeQname sampleProductQueryId
              (initialScanner false) (ByInstanceId "inst1") 5 eq_refl)
    as (s1 & Hfind & _ & Hquery & _ & Hgone & _).
  exists s1. split; [exact Hfind|]. split; [exact Hquery | exact Hgone].
Defined.

(** A scanner that waits for node A, and the response with the SRV
    record of node A and the address of its target. *)
Definition waitsForNodeA : MdnsScanner :=
  stateOf (findOperationalDevice sampleIsIPv6 (initialScanner false) nodeA (Some 5) false).

Lemma operational_srv_completes_discovery_witness :
  hasWaiter waitsForNodeA nodeA = true
  /\ getOperationalDeviceRecords sampleIsIPv6
       (handleOperationalSrvRecord 1000 waitsForNodeA (srv nodeA 120 "node.local" 5540)
          [srv nodeA 120 "node.local" 5540; aaaa "node.local" "fe80::1" 120] [] "eth0")
       nodeA <> None
  /\ events
       (handleOperationalSrvRecord 1000 waitsForNodeA (srv nodeA 120 "node.local" 5540)
          [srv nodeA 120 "node.local" 5540; aaaa "node.local" "fe80::1" 120] [] "eth0")
     = [Resolved nodeA].
Proof.
  split; [reflexivity|].
  assert (ttl (srv nodeA 120 "node.local" 5540) <> 0%Z) as Hne by discriminate.
  assert (handleIpRecords waitsForNodeA
            ([srv nodeA 120 "node.local" 5540; aaaa "node.local" "fe80::1" 120] ++ [])
            "node.local" "eth0" <> []) as Hips by (vm_compute; discriminate).
  assert (Forall (fun r => ip_ttl r <> 0%Z)
            (handleIpRecords waitsForNodeA
               ([srv nodeA 120 "node.local" 5540; aaaa "node.local" "fe80::1" 120] ++ [])
               "node.local" "eth0")) as Hall
    by (vm_compute; repeat constructor; discriminate).
  destruct (@operational_srv_completes_discovery sampleIsIPv6 1000 waitsForNodeA
              (srv nodeA 120 "node.local" 5540)
              [srv nodeA 120 "node.local" 5540; aaaa "node.local" "fe80::1" 120] []
              "eth0" 0 0 5540 "node.local" Hne eq_refl Hips Hall)
    as (_ & Hfound & _ & Hwaiter).
  split; [exact Hfound|]. exact (proj2 Hwaiter).
Defined.

(** The SRV record alone: the scanner asks for the addresses of the
    target. *)
Lemma operational_srv_without_addresses_witness :
  handleIpRecords waitsForNodeA ([srv nodeA 120 "node.local" 5540] ++ [])
    "node.local" "eth0" = []
  /\ JsMap.get nodeA
       (activeAnnounceQueries
          (handleOperationalSrvRecord 1000 waitsForNodeA (srv nodeA 120 "node.local" 5540)
             [srv nodeA 120 "node.local" 5540] [] "eth0"))
     = Some {| aq_queries := ipQueries waitsForNodeA "node.local";
               aq_answers := [srv nodeA 120 "node.local" 5540] |}
  /\ events
       (handleOperationalSrvRecord 1000 waitsForNodeA (srv nodeA 120 "node.local" 5540)
          [srv nodeA 120 "node.local" 5540] [] "eth0")
     = [].
Proof.
  assert (ttl (srv nodeA 120 "node.local" 5540) <> 0%Z) as Hne by discriminate.
  assert (handleIpRecords waitsForNodeA ([srv nodeA 120 "node.local" 5540] ++ [])
            "node.local" "eth0" = []) as Hips by (vm_compute; reflexivity).
  assert (forall device,
             JsMap.get (name (srv nodeA 120 "node.local" 5540))
               (operationalDeviceRecords waitsForNodeA) = Some device ->
             op_addresses device = []) as Hcache
    by (intros device H; vm_compute in H; discriminate).
  destruct (@operational_srv_without_addresses 1000 waitsForNodeA
              (srv nodeA 120 "node.local" 5540) [srv nodeA 120 "node.local" 5540] []
              "eth0" 0 0 5540 "node.local" Hne eq_refl Hips Hcache)
    as (_ & _ & Hevents & _ & _ & Hquery).
  split; [exact Hips|]. split; [|exact Hevents].
  exact (proj1 (Hquery eq_refl eq_refl)).
Defined.

Lemma commissionable_txt_is_found_witness :
  D (parseTxtRecord sampleParseInt txtS2) = Some 3840%Z
  /\ CM (parseTxtRecord sampleParseInt txtS2) = Some 1%Z
  /\ (exists device,
         In device
           (getCommissionableDeviceRecords sampleIsIPv6
              (fst (commissionableTxtStep sampleParseInt 1000 (initialScanner false, [])
                      txtS2))
              (ByShortDiscriminator 15))
         /\ instanceId (cd_record device) = "inst1"%string)
  /\ (exists device,
         In device
           (getCommissionableDeviceRecords sampleIsIPv6
              (fst (commissionableTxtStep sampleParseInt 1000 (initialScanner false, [])
                      txtS2))
              (ByVendorId 65521))
         /\ instanceId (cd_record device) = "inst1"%string).
Proof.
  assert (ttl txtS2 <> 0%Z) as Hne by discriminate.
  assert (D (parseTxtRecord sampleParseInt txtS2) = Some 3840%Z) as HD
    by (vm_compute; reflexivity).
  assert (CM (parseTxtRecord sampleParseInt txtS2) = Some 1%Z) as HCM
    by (vm_compute; reflexivity).
  split; [exact HD|]. split; [exact HCM|].
  destruct (@commissionable_txt_is_found sampleIsIPv6 sampleParseInt 1000
              (initialScanner false) [] txtS2
              ["D=3840"; "CM=1"; "VP=65521+32768"]%string 3840 1 Hne eq_refl HD HCM)
    as (_ & _ & Hshort & _ & Hvendor & _).
  split.
  - destruct Hshort as (device & Hin & Hid & _). exists device. split; [exact Hin|].
    exact Hid.
  - destruct (Hvendor "65521+32768"%string "65521"%string 65521%Z)
      as (device & Hin & Hid & _); [vm_compute; reflexivity ..|].
    exists device. split; [exact Hin | exact Hid].
Defined.

(** A scanner that looks for the instance [inst1] and has its TXT
    record, and the record it has stored. *)
Definition askedInst1 : MdnsScanner :=
  fst (commissionableTxtStep sampleParseInt 1000
         (stateOf
            (findCommissionableDevices sampleIsIPv6 sampleInstanceQname sampleLongQname
               sampleShortQname sampleVendorQname sampleDeviceTypeQname
               sampleCommissioningModeQname sampleProductQueryId
               (initialScanner false) (ByInstanceId "inst1") 5 false),
          [])
         txtS2).

Definition storedInst1 : CommissionableDeviceRecordWithExpire :=
  {| instanceId := "inst1"; deviceIdentifier := "inst1"; addresses := [];
     expires := 121000;
     SD := Some 15%Z; V := Some (Some 65521%Z); P := Some (Some 32768%Z);
     data := parseTxtRecord sampleParseInt txtS2 |}.

Lemma commissionable_srv_completes_discovery_witness :
  JsMap.get inst1 (commissionableDeviceRecords askedInst1) = Some storedInst1
  /\ exists s',
       commissionableSrvStep sampleInstanceQname sampleLongQname sampleShortQname
         sampleVendorQname sampleDeviceTypeQname sampleCommissioningModeQname
         sampleProductQueryId sampleVendorId 2000
         [srv inst1 120 "host1.local" 5540; aaaa "host1.local" "fd00::2" 120] [] "eth0"
         askedInst1 [inst1] (srv inst1 120 "host1.local" 5540)
       = Done s' []
       /\ hasWaiter s' inst1 = false
       /\ events s' = [Resolved inst1].
Proof.
  assert (JsMap.get inst1 (commissionableDeviceRecords askedInst1) = Some storedInst1)
    as Hstored by (vm_compute; reflexivity).
  split; [exact Hstored|].
  assert (ttl (srv inst1 120 "host1.local" 5540) <> 0%Z) as Hne by discriminate.
  assert (handleIpRecords askedInst1
            ([srv inst1 120 "host1.local" 5540; aaaa "host1.local" "fd00::2" 120] ++ [])
            "host1.local" "eth0" <> []) as Hips by (vm_compute; discriminate).
  assert (Forall (fun r => ip_ttl r <> 0%Z)
            (handleIpRecords askedInst1
               ([srv inst1 120 "host1.local" 5540; aaaa "host1.local" "fd00::2" 120] ++ [])
               "host1.local" "eth0")) as Hall
    by (vm_compute; repeat constructor; discriminate).
  assert (findCommissionableQueryIdentifier sampleInstanceQname sampleLongQname
            sampleShortQname sampleVendorQname sampleDeviceTypeQname
            sampleCommissioningModeQname sampleProductQueryId sampleVendorId
            askedInst1 (name (srv inst1 120 "host1.local" 5540)) storedInst1
          = Done askedInst1 (Some inst1)) as Hquery by (vm_compute; reflexivity).
  destruct (@commissionable_srv_completes_discovery sampleInstanceQname sampleLongQname
              sampleShortQname sampleVendorQname sampleDeviceTypeQname
              sampleCommissioningModeQname sampleProductQueryId sampleVendorId
              2000 askedInst1 [inst1] (srv inst1 120 "host1.local" 5540)
              [srv inst1 120 "host1.local" 5540; aaaa "host1.local" "fd00::2" 120] []
              "eth0" 0 0 5540 "host1.local" inst1 storedInst1
              Hstored Hne eq_refl Hips Hall Hquery)
    as (s' & Hstep & _ & _ & Hwaiter).
  exists s'. split; [exact Hstep|]. exact Hwaiter.
Defined.

(** ** Responses of the responder *)

Definition freshServer : MdnsServer :=
  {| recordLastSentAsMulticastAnswer := JsMap.empty; server_events := [] |}.

Lemma response_answers_the_questions_witness :
  exists r srv',
    buildResponse DnsRecord_eqb sampleRecordKey 5000 freshServer "eth0"
      [ptrQuery "_matterc._udp.local"] [] served = Some (r, srv')
    /\ rd_answers r = [ptr "_matterc._udp.local" inst1]
    /\ Forall (fun record => In record served /\ recordType record <> PTR)
         (rd_additionalRecords r).
Proof.
  do 2 eexists. split; [vm_compute; reflexivity|]. split; [reflexivity|].
  assert (buildResponse DnsRecord_eqb sampleRecordKey 5000 freshServer "eth0"
            [ptrQuery "_matterc._udp.local"] [] served
          = Some ({| rd_answers := [ptr "_matterc._udp.local" inst1];
                     rd_additionalRecords :=
                       [txtS2; srv inst1 120 "host1.local" 5540;
                        aaaa "host1.local" "fd00::2" 120];
                     rd_uniCastResponse := false |},
                  {| recordLastSentAsMulticastAnswer :=
                       [("_matterc._udp.local-1-12-eth0"%string, 5000%Z)];
                     server_events := [] |})) as H by (vm_compute; reflexivity).
  destruct (@response_answers_the_questions DnsRecord_eqb sampleRecordKey 5000
              freshServer _ "eth0" [ptrQuery "_matterc._udp.local"] [] served _ H)
    as (_ & _ & Hadditional & _).
  eapply Forall_impl; [|exact Hadditional].
  intros record (Hin & Hptr & _). split; [exact Hin | exact Hptr].
Defined.

(** The PTR record has been multicast at time 5000: the same question,
    half a second later, is not answered. *)
Lemma multicast_rate_limit_witness :
  exists r srv',
    buildResponse DnsRecord_eqb sampleRecordKey 5000 freshServer "eth0"
      [ptrQuery "_matterc._udp.local"] [] served = Some (r, srv')
    /\ rd_uniCastResponse r = false
    /\ Forall (fun answer => lastMulticast sampleRecordKey srv' "eth0" answer = 5000%Z)
         (rd_answers r)
    /\ buildResponse DnsRecord_eqb sampleRecordKey 5500 srv' "eth0"
         [ptrQuery "_matterc._udp.local"] [] served = None.
Proof.
  do 2 eexists. split; [vm_compute; reflexivity|]. split; [reflexivity|].
  split; [|vm_compute; reflexivity].
  assert (buildResponse DnsRecord_eqb sampleRecordKey 5000 freshServer "eth0"
            [ptrQuery "_matterc._udp.local"] [] served
          = Some ({| rd_answers := [ptr "_matterc._udp.local" inst1];
                     rd_additionalRecords :=
                       [txtS2; srv inst1 120 "host1.local" 5540;
                        aaaa "host1.local" "fd00::2" 120];
                     rd_uniCastResponse := false |},
                  {| recordLastSentAsMulticastAnswer :=
                       [("_matterc._udp.local-1-12-eth0"%string, 5000%Z)];
                     server_events := [] |})) as H by (vm_compute; reflexivity).
  destruct (@multicast_rate_limit DnsRecord_eqb sampleRecordKey 5000
              freshServer _ "eth0" [ptrQuery "_matterc._udp.local"] [] served _ H eq_refl)
    as (Hstamped & _).
  eapply Forall_impl; [|exact Hstamped].
  intros answer (_ & Hlast). exact Hlast.
Defined.

(** A question that asks for a unicast response, one second after the
    record was multicast: the response goes to the sender. *)
Definition askedBefore : MdnsServer :=
  {| recordLastSentAsMulticastAnswer := [("_matterc._udp.local-1-12-eth0"%string, 5000%Z)];
     server_events := [] |}.

Definition unicastPtrQuery : DnsQuery :=
  {| q_name := "_matterc._udp.local"; q_recordType := PTR; q_recordClass := IN;
     uniCastResponse := true |}.

Lemma unicast_response_when_fresh_witness :
  exists r,
    buildResponse DnsRecord_eqb sampleRecordKey 6000 askedBefore "eth0"
      [unicastPtrQuery] [] served = Some (r, askedBefore)
    /\ rd_uniCastResponse r = true
    /\ rd_answers r = [ptr "_matterc._udp.local" inst1]
    /\ exists new,
         server_events (respond sampleEncodeRecord sampleQueryLength askedBefore "eth0"
                          "fe80::9" 0 r)
         = new
         /\ Forall (fun e => match e with
                             | ServerSent _ netInterface' unicastTarget =>
                                 netInterface' = "eth0"%string
                                 /\ unicastTarget = Some "fe80::9"%string
                             end) new.
Proof.
  eexists. split; [vm_compute; reflexivity|]. split; [reflexivity|].
  assert (buildResponse DnsRecord_eqb sampleRecordKey 6000 askedBefore "eth0"
            [unicastPtrQuery] [] served
          = Some ({| rd_answers := [ptr "_matterc._udp.local" inst1];
                     rd_additionalRecords :=
                       [txtS2; srv inst1 120 "host1.local" 5540;
                        aaaa "host1.local" "fd00::2" 120];
                     rd_uniCastResponse := true |}, askedBefore)) as H
    by (vm_compute; reflexivity).
  destruct (@unicast_response_when_fresh sampleEncodeRecord sampleQueryLength
              DnsRecord_eqb sampleRecordKey 6000 askedBefore _ "eth0" "fe80::9" 0
              [unicastPtrQuery] [] served _ H)
    as (_ & Hsame & new & Hevents & _ & Hall).
  split; [exact (proj1 (Hsame eq_refl))|].
  exists new. split; [exact Hevents | exact Hall].
Defined.

(** ** Timers *)

Definition noTimers : NodeTimers := {| pending := []; nextHandle := 0 |}.

Definition queryTimerNode : TimerNode :=
  {| timerId := None; isRunning := false; intervalMs := 1500; periodic := false |}.

Lemma noTimers_consistent : timerConsistent noTimers queryTimerNode.
Proof.
  split; [apply NoDup_nil|]. split; [intros h []|]. intros h H. discriminate H.
Qed.

(** A timer that is started twice has one pending handle; when the
    timeout has run, none. *)
Lemma timer_has_one_pending_handle_witness :
  timerConsistent noTimers queryTimerNode
  /\ (let '(n1, t1) := TimerNode_start noTimers queryTimerNode in
      let '(n2, t2) := TimerNode_start n1 t1 in
      timerConsistent n2 t2
      /\ pending n2 = [1%nat]
      /\ (let '(n3, t3) := TimerNode_fire n2 t2 1 in
          pending n3 = [] /\ isRunning t3 = false)).
Proof.
  split; [exact noTimers_consistent|].
  pose proof (proj1 (@timer_has_one_pending_handle noTimers queryTimerNode
                       noTimers_consistent)) as H1.
  cbn in H1. destruct H1 as (H1 & _).
  pose proof (proj1 (@timer_has_one_pending_handle _ _ H1)) as H2.
  cbn in H2. destruct H2 as (H2 & _).
  unfold noTimers, queryTimerNode. cbn. split; [exact H2|]. split; [reflexivity|].
  split; reflexivity.
Defined.

Lemma query_timer_delay_is_accepted_witness :
  intervalInRange (initialScanner false)
  /\ intervalInRange (sendQueries sampleEncodeRecord sampleQueryLength (initialScanner false))
  /\ exists timer,
       queryTimer (sendQueries sampleEncodeRecord sampleQueryLength (initialScanner false))
       = Some (intervalMs timer)
       /\ TimerNode_new (fun _ => "1500"%string) (intervalMs timer) false = inr timer.
Proof.
  assert (intervalInRange (initialScanner false)) as H.
  { split; [apply Qle_bool_iff | apply Qle_bool_iff]; reflexivity. }
  split; [exact H|].
  destruct (@query_timer_delay_is_accepted sampleEncodeRecord sampleQueryLength
              (fun _ => "1500"%string) (initialScanner false) H)
    as (Hsend & _ & _ & Htimer & _).
  split; [exact Hsend | exact Htimer].
Defined.

(** ** Round trips of the object schema *)

Lemma sampleUInt_roundTrips (i : Z) (v : JsValue) :
  roundTrips arrayReadTagType (fun w : ArrayWriter => w) upcoming sampleUInt i v.
Proof.
  intros w forWriteInteraction w' H. cbn in H. inversion H; subst; clear H.
  eexists. split; [reflexivity|].
  intros r rest Hr. unfold arrayReadTagType. rewrite Hr. cbn.
  do 3 eexists. split; [reflexivity|]. split; [reflexivity|].
  split; reflexivity.
Qed.


Local Open Scope string_scope.



Local Close Scope string_scope.

(** [TlvEntryIndex] wraps an unsigned integer schema; both of its
    functions return their argument. *)
Lemma wrapper_round_trips_witness :
  roundTrips arrayReadTagType (fun w : ArrayWriter => w) upcoming
    (TlvWrapper sampleUInt (fun entryIndex => entryIndex) (fun value => value))
    0 (JsNumber 5)
  /\ validate (TlvWrapper sampleUInt (fun entryIndex => entryIndex) (fun value => value))
       (JsNumber 5)
     = None.
Proof.
  destruct (@wrapper_round_trips ArrayReader ArrayWriter arrayReadTagType TlvElement
              (fun w : ArrayWriter => w) upcoming
              sampleUInt (fun entryIndex => entryIndex) (fun value => value)
              0 (JsNumber 5) (@sampleUInt_roundTrips 0 (JsNumber 5)) eq_refl)
    as (Hround & Hvalid).
  split; [exact Hround|]. rewrite Hvalid. reflexivity.
Defined.
